(** * youtube_to_spotify: a shallow embedding of [youtube_to_spotify.py]

    The script reads a playlist from the source catalog (YouTube), looks
    every title up in the destination catalog (Spotify), creates a playlist
    there and appends the resolved identifiers in batches.

    Conventions of the embedding:
    - a Python [str] is a [string] holding its UTF-8 bytes; a [str] with a
      lone surrogate, which [json.load] returns for an escape such as
      [\ud800], has no UTF-8 encoding and no [string] stands for it;
    - a value decoded by [json.load] is a [json];
    - a Python exception is an [exn], a fallible pure computation a
      [result], code that talks to the network, the console or the process
      environment a computation in the monad [M] over a [world];
    - every [_url_open] call is one [request]; the world holds the answers
      the services will give, in order, and the exchanges made so far;
    - [_main] starts from the arguments [argparse] has accepted; writing to
      stdout succeeds. *)

From Stdlib Require Import String Ascii ZArith List Lia Bool.
From stdpp Require Import base option list strings gmap.


(** ** Python values and exceptions *)

(** What [json.load] returns. A [JObj] holds the items of the decoded
    [dict], each key once. A number is an [int]: in every operation below a
    [float] behaves as the [int] of the same sign. *)
#[warnings="-register-all"]
Inductive json : Type :=
| JNull
| JBool (b : bool)
| JNum (z : Z)
| JStr (s : string)
| JArr (l : list json)
| JObj (members : list (string * json)).

Inductive exn : Type :=
| KeyError
| IndexError
| TypeError
| AttributeError
| UnboundLocalError
| OSError
| URLError
| SystemExit (status : Z)
| Exception_ (class : string).   (* any other exception a request may end with *)

Inductive result (A : Type) : Type :=
| Ok (a : A)
| Raise (e : exn).
Arguments Ok {A} a.
Arguments Raise {A} e.

#[global] Instance result_ret : MRet result := fun A a => Ok a.
#[global] Instance result_bind : MBind result := fun A B f r =>
  match r with
  | Ok a => f a
  | Raise e => Raise e
  end.

(** ** Strings

    Helpers over [string] for the [str] methods the script and the
    library functions it calls rely on. *)

Definition is_ascii (c : ascii) : bool := (nat_of_ascii c <? 128)%nat.

Definition in_range (lo hi c : ascii) : bool :=
  (nat_of_ascii lo <=? nat_of_ascii c)%nat && (nat_of_ascii c <=? nat_of_ascii hi)%nat.

Definition is_alpha (c : ascii) : bool := in_range "a" "z" c || in_range "A" "Z" c.
Definition is_digit (c : ascii) : bool := in_range "0" "9" c.

(** [sub in s] for a one-character [sub]. *)
Fixpoint contains (c : ascii) (s : string) : bool :=
  match s with
  | EmptyString => false
  | String x s' => Ascii.eqb x c || contains c s'
  end.

(** [s.replace(a, b)] for one-character [a] and [b]. *)
Fixpoint replace_char (a b : ascii) (s : string) : string :=
  match s with
  | EmptyString => EmptyString
  | String x s' => String (if Ascii.eqb x a then b else x) (replace_char a b s')
  end.

(** [s.replace(a, "")] for each one-character [a] that satisfies [f]. *)
Fixpoint remove_chars (f : ascii -> bool) (s : string) : string :=
  match s with
  | EmptyString => EmptyString
  | String x s' => if f x then remove_chars f s' else String x (remove_chars f s')
  end.

(** [s.lstrip(chars)], [chars] given as a predicate. *)
Fixpoint lstrip (f : ascii -> bool) (s : string) : string :=
  match s with
  | EmptyString => EmptyString
  | String x s' => if f x then lstrip f s' else s
  end.

(** The text before the first character that satisfies [f], and the text
    from that character on (empty when there is none). *)
Fixpoint break_at (f : ascii -> bool) (s : string) : string * string :=
  match s with
  | EmptyString => (EmptyString, EmptyString)
  | String x s' =>
      if f x then (EmptyString, s)
      else let '(before, after) := break_at f s' in (String x before, after)
  end.

(** [s.split(c, 1)] when [c in s]: the text before the first [c] and the
    text after it. *)
Fixpoint split_once (c : ascii) (s : string) : option (string * string) :=
  match s with
  | EmptyString => None
  | String x s' =>
      if Ascii.eqb x c then Some (EmptyString, s')
      else match split_once c s' with
           | Some (before, after) => Some (String x before, after)
           | None => None
           end
  end.

(** [s.split(c)]: never empty, one more piece than there are [c]s. *)
Fixpoint split_on (c : ascii) (s : string) : list string :=
  match s with
  | EmptyString => [EmptyString]
  | String x s' =>
      match split_on c s' with
      | piece :: pieces =>
          if Ascii.eqb x c then EmptyString :: piece :: pieces
          else String x piece :: pieces
      | [] => [String x EmptyString]
      end
  end.

Definition lower (c : ascii) : ascii :=
  if in_range "A" "Z" c then ascii_of_nat (nat_of_ascii c + 32) else c.

Fixpoint str_lower (s : string) : string :=
  match s with
  | EmptyString => EmptyString
  | String x s' => String (lower x) (str_lower s')
  end.

Fixpoint str_forall (f : ascii -> bool) (s : string) : bool :=
  match s with
  | EmptyString => true
  | String x s' => f x && str_forall f s'
  end.

(** Characters are counted, and strings cut, at code points: a byte
    [10xxxxxx] continues the code point before it. *)
Definition is_continuation (c : ascii) : bool :=
  (128 <=? nat_of_ascii c)%nat && (nat_of_ascii c <? 192)%nat.

Fixpoint py_strlen (s : string) : nat :=
  match s with
  | EmptyString => 0
  | String x s' => (if is_continuation x then 0 else 1) + py_strlen s'
  end.

(** [s[:n]] for [n >= 0] *)
Fixpoint str_take (n : nat) (s : string) : string :=
  match s with
  | EmptyString => EmptyString
  | String x s' =>
      if is_continuation x then String x (str_take n s')
      else match n with
           | O => EmptyString
           | S n' => String x (str_take n' s')
           end
  end.

(** [s[:stop]]: a negative [stop] counts from the end. *)
Definition str_slice_to (stop : Z) (s : string) : string :=
  if (stop <? 0)%Z then str_take (Z.to_nat (Z.of_nat (py_strlen s) + stop)) s
  else str_take (Z.to_nat stop) s.

(** ** [urllib.parse]

    The functions of the standard library behind [_youtube_get_playlist_id]
    and [_spotify_search_track], after CPython 3.11's [urllib/parse.py]. *)

Module urllib.

Record SplitResult := {
  scheme : string;
  netloc : string;
  path : string;
  query : string;
  fragment : string
}.

(** [scheme_chars]: letters, digits and [+-.]. *)
Definition scheme_char (c : ascii) : bool :=
  is_alpha c || is_digit c || Ascii.eqb c "+" || Ascii.eqb c "-" || Ascii.eqb c ".".

(** [_WHATWG_C0_CONTROL_OR_SPACE]: the characters up to the space. *)
Definition c0_control_or_space (c : ascii) : bool := (nat_of_ascii c <=? 32)%nat.

(** [_UNSAFE_URL_BYTES_TO_REMOVE]: tab, carriage return, line feed. *)
Definition unsafe_url_byte (c : ascii) : bool :=
  (nat_of_ascii c =? 9)%nat || (nat_of_ascii c =? 13)%nat || (nat_of_ascii c =? 10)%nat.

Definition netloc_delimiter (c : ascii) : bool :=
  Ascii.eqb c "/" || Ascii.eqb c "?" || Ascii.eqb c "#".

(** [urlsplit(url)] with the default scheme and fragments allowed. The
    checks of the network location (brackets of an IPv6 literal, NFKC
    normalisation of a non-ASCII host) are left out: the script calls
    [urlparse] on strings that start with
    [https://www.youtube.com/playlist] only, whose network location is
    [www.youtube.com] ([playlist_url_netloc] below), and that one passes
    them. *)
Definition urlsplit (url : string) : SplitResult :=
  let url := lstrip c0_control_or_space url in
  let url := remove_chars unsafe_url_byte url in
  let '(scheme, url) :=
    match split_once ":" url with
    | Some (String c0 before, after) =>
        if is_alpha c0 && str_forall scheme_char (String c0 before)
        then (str_lower (String c0 before), after)
        else (EmptyString, url)
    | _ => (EmptyString, url)
    end in
  let '(netloc, url) :=
    match url with
    | String "/" (String "/" rest) => break_at netloc_delimiter rest
    | _ => (EmptyString, url)
    end in
  let '(url, fragment) :=
    match split_once "#" url with
    | Some (before, after) => (before, after)
    | None => (url, EmptyString)
    end in
  let '(url, query) :=
    match split_once "?" url with
    | Some (before, after) => (before, after)
    | None => (url, EmptyString)
    end in
  {| scheme := scheme; netloc := netloc; path := url; query := query;
     fragment := fragment |}.

(** [urlparse] also splits the parameters off the path; the other
    components are those of [urlsplit]. *)
Definition urlparse_query (url : string) : string := query (urlsplit url).

Definition hex_value (c : ascii) : option nat :=
  if is_digit c then Some (nat_of_ascii c - 48)
  else if in_range "a" "f" c then Some (nat_of_ascii c - 87)
  else if in_range "A" "F" c then Some (nat_of_ascii c - 55)
  else None.

(** [_hextobyte]: the byte two hexadecimal digits stand for. *)
Definition hextobyte (a b : ascii) : option ascii :=
  match hex_value a, hex_value b with
  | Some h, Some l => Some (ascii_of_nat (16 * h + l))
  | _, _ => None
  end.

(** [unquote_to_bytes]: every [%] followed by two hexadecimal digits
    becomes the byte they stand for; every other [%] stays. *)
Fixpoint unquote_to_bytes (s : string) : string :=
  match s with
  | EmptyString => EmptyString
  | String c s' =>
      if Ascii.eqb c "%" then
        match s' with
        | String a (String b rest) =>
            match hextobyte a b with
            | Some x => String x (unquote_to_bytes rest)
            | None => String c (unquote_to_bytes s')
            end
        | _ => String c (unquote_to_bytes s')
        end
      else String c (unquote_to_bytes s')
  end.

(** U+FFFD, the replacement character, in UTF-8. *)
Definition replacement : string :=
  String (ascii_of_nat 239) (String (ascii_of_nat 191) (String (ascii_of_nat 189) EmptyString)).

(** May [c2] follow the lead byte [c] of a three- or four-byte sequence?
    The first continuation byte is what rules out overlong forms,
    surrogates and code points above U+10FFFF. *)
Definition second_ok (c c2 : ascii) : bool :=
  let n := nat_of_ascii c in
  let n2 := nat_of_ascii c2 in
  is_continuation c2 &&
  negb ((n =? 224)%nat && (n2 <? 160)%nat) &&
  negb ((n =? 237)%nat && (160 <=? n2)%nat) &&
  negb ((n =? 240)%nat && (n2 <? 144)%nat) &&
  negb ((n =? 244)%nat && (144 <=? n2)%nat).

(** [bytes.decode("utf-8", "replace")], the result again in UTF-8: a
    well-formed sequence is kept; a byte that starts none, or the start of
    a sequence up to where it goes wrong or the data ends, becomes one
    U+FFFD. *)
Fixpoint decode_replace (s : string) : string :=
  match s with
  | EmptyString => EmptyString
  | String c s1 =>
      let n := nat_of_ascii c in
      if (n <? 128)%nat then String c (decode_replace s1)
      else if (n <? 194)%nat || (245 <=? n)%nat then replacement +:+ decode_replace s1
      else
        match s1 with
        | EmptyString => replacement
        | String c2 s2 =>
            if (n <? 224)%nat then
              if is_continuation c2 then String c (String c2 (decode_replace s2))
              else replacement +:+ decode_replace s1
            else if negb (second_ok c c2) then replacement +:+ decode_replace s1
            else
              match s2 with
              | EmptyString => replacement
              | String c3 s3 =>
                  if negb (is_continuation c3) then replacement +:+ decode_replace s2
                  else if (n <? 240)%nat then
                    String c (String c2 (String c3 (decode_replace s3)))
                  else
                    match s3 with
                    | EmptyString => replacement
                    | String c4 s4 =>
                        if is_continuation c4 then
                          String c (String c2 (String c3 (String c4 (decode_replace s4))))
                        else replacement +:+ decode_replace s3
                    end
              end
        end
  end.

(** [_asciire.split]: the maximal runs of ASCII characters and the text
    between them, each with whether it is ASCII. *)
Fixpoint ascii_runs (s : string) : list (bool * string) :=
  match s with
  | EmptyString => []
  | String c s' =>
      match ascii_runs s' with
      | (a, run) :: runs =>
          if Bool.eqb (is_ascii c) a then (a, String c run) :: runs
          else (is_ascii c, String c EmptyString) :: (a, run) :: runs
      | [] => [(is_ascii c, String c EmptyString)]
      end
  end.

Fixpoint join (pieces : list string) : string :=
  match pieces with
  | [] => EmptyString
  | p :: ps => p +:+ join ps
  end.

(** [unquote(string)], decoding as UTF-8 with [errors="replace"]. *)
Definition unquote (s : string) : string :=
  if negb (contains "%" s) then s
  else join (map (fun '(a, run) =>
                    if (a : bool) then decode_replace (unquote_to_bytes run) else run)
                 (ascii_runs s)).

(** [parse_qsl(qs)] with its defaults: fields without [=] and fields with
    a blank value are skipped. *)
Definition parse_qsl (qs : string) : list (string * string) :=
  let query_args := if String.eqb qs "" then [] else split_on "&" qs in
  omap (fun name_value =>
          match split_once "=" name_value with
          | Some (name, value) =>
              if String.eqb value "" then None
              else Some (unquote (replace_char "+" " " name),
                         unquote (replace_char "+" " " value))
          | None => None
          end) query_args.

(** [parse_qs(qs)]: the values of each name, in the order they come. *)
Definition parse_qs (qs : string) : gmap string (list string) :=
  foldl (fun parsed_result '(name, value) =>
           match parsed_result !! name with
           | Some values => <[name := values ++ [value]]> parsed_result
           | None => <[name := [value]]> parsed_result
           end) ∅ (parse_qsl qs).

(** [_ALWAYS_SAFE] *)
Definition always_safe (c : ascii) : bool :=
  is_alpha c || is_digit c ||
  Ascii.eqb c "_" || Ascii.eqb c "." || Ascii.eqb c "-" || Ascii.eqb c "~".

Definition hex_digit (n : nat) : ascii :=
  if (n <? 10)%nat then ascii_of_nat (48 + n) else ascii_of_nat (55 + n).

(** [quote_plus(string)]: a space becomes [+], every other byte outside
    [_ALWAYS_SAFE] becomes [%XX]. The bytes are those of
    [string.encode("utf-8", "strict")], which every [str] of the embedding
    has; on a [str] with a lone surrogate the call raises
    [UnicodeEncodeError]. *)
Fixpoint quote_plus (s : string) : string :=
  match s with
  | EmptyString => EmptyString
  | String c s' =>
      if always_safe c then String c (quote_plus s')
      else if Ascii.eqb c " " then String "+" (quote_plus s')
      else
        let n := nat_of_ascii c in
        String "%" (String (hex_digit (n / 16)) (String (hex_digit (n mod 16)) (quote_plus s')))
  end.

End urllib.

(** ** Operations on decoded JSON

    What the script does to the values [json.load] returns, with the
    exception Python raises when the value has the wrong shape. *)

(** [bool(v)] *)
Definition truthy (v : json) : bool :=
  match v with
  | JNull => false
  | JBool b => b
  | JNum z => negb (z =? 0)%Z
  | JStr s => negb (String.eqb s "")
  | JArr l => match l with [] => false | _ => true end
  | JObj members => match members with [] => false | _ => true end
  end.

Fixpoint assoc (key : string) (members : list (string * json)) : option json :=
  match members with
  | [] => None
  | (k, v) :: members' => if String.eqb k key then Some v else assoc key members'
  end.

(** Does [s] start in the middle of a code point? *)
Definition continues (s : string) : bool :=
  match s with
  | String c _ => is_continuation c
  | EmptyString => false
  end.

(** The characters of a [str], one string per code point. *)
Fixpoint str_chars (s : string) : list string :=
  match s with
  | EmptyString => []
  | String c s' =>
      match str_chars s' with
      | ch :: chs =>
          if continues s' then String c ch :: chs
          else String c EmptyString :: ch :: chs
      | [] => [String c EmptyString]
      end
  end.

(** [v[key]] for a [str] key. *)
Definition getitem (v : json) (key : string) : result json :=
  match v with
  | JObj members =>
      match assoc key members with
      | Some x => Ok x
      | None => Raise KeyError
      end
  | _ => Raise TypeError
  end.

(** [v[0]]; no key of a decoded [dict] is the [int] 0. *)
Definition getitem_0 (v : json) : result json :=
  match v with
  | JArr (x :: _) => Ok x
  | JArr [] => Raise IndexError
  | JStr s =>
      match str_chars s with
      | ch :: _ => Ok (JStr ch)
      | [] => Raise IndexError
      end
  | JObj _ => Raise KeyError
  | _ => Raise TypeError
  end.

(** [v.get(key)] *)
Definition dict_get (v : json) (key : string) : result json :=
  match v with
  | JObj members =>
      match assoc key members with
      | Some x => Ok x
      | None => Ok JNull
      end
  | _ => Raise AttributeError
  end.

(** [len(v)] *)
Definition py_len (v : json) : result nat :=
  match v with
  | JArr l => Ok (length l)
  | JObj members => Ok (length members)
  | JStr s => Ok (py_strlen s)
  | _ => Raise TypeError
  end.

(** [iter(v)]: the elements of a list, the keys of a dict, the characters
    of a string. *)
Definition py_iter (v : json) : result (list json) :=
  match v with
  | JArr l => Ok l
  | JObj members => Ok (map (fun kv => JStr (fst kv)) members)
  | JStr s => Ok (map JStr (str_chars s))
  | _ => Raise TypeError
  end.

(** [tracks.extend(items)], where evaluating [items] may raise: the method
    is looked up first, the argument evaluated next. *)
Definition list_extend (tracks : json) (items : result json) : result json :=
  match tracks with
  | JArr l =>
      items ← items;
      more ← py_iter items;
      mret (JArr (l ++ more))
  | _ => Raise AttributeError
  end.

(** [range(0, stop, step)] for a positive [step]. *)
Definition py_range (stop step : nat) : list nat :=
  map (fun k => k * step) (seq 0 ((stop + step - 1) / step)).

(** [l[start:end]] for [start <= end]. *)
Definition slice {A} (l : list A) (start end_ : nat) : list A :=
  take (end_ - start) (drop start l).

(** ** Formatted strings, requests and console output *)

(** The pieces of an f-string: literal text, [{v}] and [{v!r}]. The text
    Python gives a decoded JSON value is not spelled out. *)
Inductive piece : Type :=
| Lit (s : string)
| Str (v : json)
| Repr (v : json).

Definition fstring : Type := list piece.

Inductive http_method : Type := GET | POST.

(** The arguments of one [_url_open] call: the URL, the method, the bearer
    token of the [Authorization] header and the object sent as JSON. *)
Record request : Type := {
  url : fstring;
  method : http_method;
  authorization : option string;
  data : option json
}.

(** What [sys.stdout.write] receives: a line of [_log], or the line of
    the progress bar, cleared and drawn again. The bar is drawn from [i] and
    [total] with floating-point arithmetic; the model records the numbers
    it is drawn from. *)
Inductive output : Type :=
| Line (level color : string) (message : fstring)
| Progress (columns i total : nat) (message : string)
| ProgressEnd (columns i total : nat).

(** ** The world and the monad of the script *)

Record world : Type := {
  environ : gmap string string;       (* [os.environ] *)
  terminal : option nat;              (* the columns of the terminal, if stdout is one *)
  responses : list (result json);     (* what the next [_url_open] calls give *)
  exchanges : list (request * result json);   (* the calls made, oldest first *)
  stdout : list output                (* what was written, oldest first *)
}.

Definition M (A : Type) : Type := world -> result A * world.

#[global] Instance M_ret : MRet M := fun A a w => (Ok a, w).
#[global] Instance M_bind : MBind M := fun A B f m w =>
  match m w with
  | (Ok a, w') => f a w'
  | (Raise e, w') => (Raise e, w')
  end.

Definition raise {A} (e : exn) : M A := fun w => (Raise e, w).

Definition lift {A} (r : result A) : M A := fun w => (r, w).

(** [os.getenv(name)] *)
Definition os_getenv (name : string) : M (option string) :=
  fun w => (Ok (environ w !! name), w).

(** [os.get_terminal_size().columns]; without a terminal on stdout the
    call raises [OSError]. *)
Definition os_get_terminal_size : M nat :=
  fun w => match terminal w with
           | Some columns => (Ok columns, w)
           | None => (Raise OSError, w)
           end.

(** How many responses are pending: not a step of the script, the bound of
    its one [while] loop. *)
Definition count_pending : M nat :=
  fun w => (Ok (length (responses w)), w).

Definition sys_stdout_write (o : output) : M unit :=
  fun w => (Ok tt,
            {| environ := environ w; terminal := terminal w; responses := responses w;
               exchanges := exchanges w; stdout := stdout w ++ [o] |}).

(** ** The script *)

Definition YOUTUBE_URL : string := "https://www.googleapis.com/youtube/v3".
Definition SPOTIFY_URL : string := "https://api.spotify.com/v1".

Definition ESC : string := String (ascii_of_nat 27) EmptyString.

Definition _log (level color : string) (message : fstring) : M unit :=
  sys_stdout_write (Line level color message).

Definition _debug (message : fstring) : M unit :=
  _log "DEBUG" (ESC +:+ "[35;1m") message.

Definition _info (message : fstring) : M unit :=
  _log "INFO" (ESC +:+ "[34;1m") message.

Definition _error (message : fstring) : M unit :=
  _log "ERROR" (ESC +:+ "[31;1m") message.

(** [_url_open]: the call is recorded with what it gives, the next pending
    response; with none pending the service cannot be reached. *)
Definition _url_open (req : request) : M json :=
  fun w =>
    let r := match responses w with
             | r :: _ => r
             | [] => Raise URLError
             end in
    (r, {| environ := environ w; terminal := terminal w;
           responses := tail (responses w);
           exchanges := exchanges w ++ [(req, r)]; stdout := stdout w |}).

Definition _get_token (name : string) : M string :=
  value ← os_getenv name;
  match value with
  | None =>
      _error [Lit "Missing environment variable: "; Repr (JStr name)];;
      raise (SystemExit 1)
  | Some value => mret value
  end.

Definition _crop (s : string) (length : Z) : string :=
  if (length <? Z.of_nat (py_strlen s))%Z then str_slice_to (length - 3) s +:+ "..." else s.

(** A value used where the code needs a [str] ([len], slicing,
    concatenation to a [str], [quote_plus]): anything else raises
    [TypeError] in the first such operation. *)
Definition expect_str (v : json) : result string :=
  match v with
  | JStr s => Ok s
  | _ => Raise TypeError
  end.

(** The loop of [_progress_bar]. The generator hands [item] to the body of
    the [for] statement that consumes it ([body], which carries the state
    of that statement) and draws the bar when it is resumed. [base] is the
    step the bar was last drawn at, if it was drawn. *)
Fixpoint _progress_bar_for {A} (columns total : nat) (get_message : json -> result json)
    (body : json -> A -> M A) (i : nat) (items : list json) (base : option nat) (acc : A)
    : M (option nat * A) :=
  match items with
  | [] => mret (base, acc)
  | item :: items' =>
      acc ← body item acc;
      message ← lift (get_message item ≫= expect_str);
      sys_stdout_write (Progress columns i total (_crop message 40%Z));;
      _progress_bar_for columns total get_message body (S i) items' (Some i) acc
  end.

(** [_progress_bar]: what runs before the first item is handed out, the
    loop, and what runs after it, where [msg = base] reads a variable that
    only the loop assigns. *)
Definition _progress_bar {A} (sequence : json) (get_message : json -> result json)
    (body : json -> A -> M A) (acc : A) : M A :=
  total ← lift (py_len sequence);
  columns ← os_get_terminal_size;
  items ← lift (py_iter sequence);
  '(base, acc) ← _progress_bar_for columns total get_message body 1 items None acc;
  match base with
  | None => raise UnboundLocalError
  | Some i => sys_stdout_write (ProgressEnd columns i total);; mret acc
  end.

Definition _youtube_get_playlist_id (s : string) : result string :=
  if String.prefix "https://www.youtube.com/playlist" s then
    let query := urllib.parse_qs (urllib.urlparse_query s) in
    match query !! "list" with
    | Some (ret :: _) => Ok ret
    | Some [] => Raise IndexError
    | None => Raise KeyError
    end
  else Ok s.

Definition _youtube_get_playlist_name (token playlist_id : string) : M json :=
  let url := [Lit YOUTUBE_URL; Lit "/playlists?"; Lit "&part=snippet";
              Lit "&id="; Lit playlist_id; Lit "&key="; Lit token] in
  ret ← _url_open {| url := url; method := GET; authorization := None; data := None |};
  lift (items ← getitem ret "items";
        item ← getitem_0 items;
        snippet ← getitem item "snippet";
        getitem snippet "title").

(** The [while] loop of [_youtube_get_tracks]. Every turn takes one pending
    response, so the number of responses pending when the loop is entered
    bounds its turns: [pending] counts them down, and with none left
    [_url_open] has raised before the count is looked at. *)
Fixpoint _youtube_get_tracks_while (base_url : fstring) (pending : nat) (ret tracks : json)
    : M json :=
  cursor ← lift (dict_get ret "nextPageToken");
  if truthy cursor then
    token ← lift (getitem ret "nextPageToken");
    let url := base_url ++ [Lit "&pageToken="; Str token] in
    ret ← _url_open {| url := url; method := GET; authorization := None; data := None |};
    match pending with
    | O => raise URLError
    | S pending' =>
        tracks ← lift (list_extend tracks (getitem ret "items"));
        _youtube_get_tracks_while base_url pending' ret tracks
    end
  else mret tracks.

Definition _youtube_get_tracks (token playlist_id : string) : M json :=
  let base_url := [Lit YOUTUBE_URL; Lit "/playlistItems?"; Lit "&part=snippet";
                   Lit "&maxResults=50"; Lit "&playlistId="; Lit playlist_id;
                   Lit "&key="; Lit token] in
  ret ← _url_open {| url := base_url; method := GET; authorization := None; data := None |};
  tracks ← lift (getitem ret "items");
  pending ← count_pending;
  _youtube_get_tracks_while base_url pending ret tracks.

Definition _spotify_search_track (token : string) (track : json) : M json :=
  track ← lift (expect_str track);
  let url := [Lit SPOTIFY_URL; Lit "/search?"; Lit "&q="; Lit (urllib.quote_plus track);
              Lit "&type=track"; Lit "&limit=1"] in
  ret ← _url_open {| url := url; method := GET; authorization := Some token; data := None |};
  lift (tracks ← getitem ret "tracks";
        items ← getitem tracks "items";
        item ← getitem_0 items;
        getitem item "uri").

Definition _spotify_create_playlist (token : string) (name : json) : M json :=
  user ← _url_open {| url := [Lit SPOTIFY_URL; Lit "/me"]; method := GET;
                      authorization := Some token; data := None |};
  user_id ← lift (getitem user "id");
  let url := [Lit SPOTIFY_URL; Lit "/users/"; Str user_id; Lit "/playlists"] in
  ret ← _url_open {| url := url; method := POST; authorization := Some token;
                     data := Some (JObj [("name", name)]) |};
  lift (getitem ret "id").

Definition _spotify_add_to_playlist (token : string) (playlist : json) (tracks : list json)
    : M unit :=
  let url := [Lit SPOTIFY_URL; Lit "/playlists/"; Str playlist; Lit "/tracks"] in
  _url_open {| url := url; method := POST; authorization := Some token;
               data := Some (JObj [("uris", JArr tracks)]) |};;
  mret tt.

(** What [argparse] gives [_main]: the positional argument and the value of
    [-n]/[--name], [None] when the flag is not given. *)
Module Namespace.
Record t : Type := {
  youtube_playlist : string;
  name : option string
}.
End Namespace.

(** [args.name or name] *)
Definition name_or (override : option string) (name : json) : json :=
  match override with
  | Some s => if truthy (JStr s) then JStr s else name
  | None => name
  end.

(** [for x in l: body(x)] over a list that the body leaves alone. *)
Fixpoint for_in {A} (l : list A) (body : A -> M unit) : M unit :=
  match l with
  | [] => mret tt
  | x :: l' => body x;; for_in l' body
  end.

(** The title the search is made with and the progress bar shows:
    [x["snippet"]["title"]]. *)
Definition snippet_title (x : json) : result json :=
  snippet ← getitem x "snippet";
  getitem snippet "title".

(** The body of the [for] statement at lines 192 to 194 of [_main]: one
    search, whose result is appended to [uris]. *)
Definition search_body (sp_token : string) (track : json) (uris : list json)
    : M (list json) :=
  title ← lift (snippet_title track);
  uri ← _spotify_search_track sp_token title;
  mret (uris ++ [uri]).

(** Lines 190 to 194 of [_main]: the identifiers found, in the order of
    the tracks. *)
Definition search_tracks (sp_token : string) (tracks : json) : M (list json) :=
  _info [Lit "Searching for tracks on Spotify..."];;
  _progress_bar tracks snippet_title (search_body sp_token) [].

(** Lines 199 to 203 of [_main]: the identifiers are appended a hundred at
    a time. *)
Definition add_tracks (sp_token : string) (spotify_playlist : json) (uris : list json)
    : M unit :=
  for_in (py_range (length uris) 100) (fun start =>
    let end_ := start + 100 in
    let end_ := if (length uris <? end_)%nat then length uris else end_ in
    _spotify_add_to_playlist sp_token spotify_playlist (slice uris start end_)).

Definition _main (args : Namespace.t) : M Z :=
  yt_token ← _get_token "YOUTUBE_TOKEN";
  sp_token ← _get_token "SPOTIFY_TOKEN";
  _debug [Lit "Tokens found"];;
  youtube_playlist ← lift (_youtube_get_playlist_id (Namespace.youtube_playlist args));
  name ← _youtube_get_playlist_name yt_token youtube_playlist;
  _debug [Lit "Youtube playlist found: "; Repr name];;
  tracks ← _youtube_get_tracks yt_token youtube_playlist;
  found ← lift (py_len tracks);
  _info [Lit "Found "; Str (JNum (Z.of_nat found)); Lit " tracks in the playlist"];;
  uris ← search_tracks sp_token tracks;
  spotify_playlist ← _spotify_create_playlist sp_token (name_or (Namespace.name args) name);
  _info [Lit "Spotify playlist created"];;
  add_tracks sp_token spotify_playlist uris;;
  _info [Lit "Tracks added to playlist"];;
  _info [Lit "Done"];;
  mret 0%Z.

(** [raise SystemExit(_main())]: the status the process ends with. An
    exception nobody handles ends it with status 1. *)
Definition exit_status (r : result Z) : Z :=
  match r with
  | Ok status => status
  | Raise (SystemExit status) => status
  | Raise _ => 1
  end.

(** * Vocabulary of the statements *)

(** One call of [_url_open] and what it gave. *)
Definition exchange : Type := request * result json.

(** The world after some input and output: the environment and the
    terminal stay as they are. *)
Definition with_io (w : world) (pending : list (result json)) (made : list exchange)
    (written : list output) : world :=
  {| environ := environ w; terminal := terminal w; responses := pending;
     exchanges := made; stdout := written |}.

(** The requests of the script, by the function that makes them. *)
Definition playlists_request (token playlist_id : string) : request :=
  {| url := [Lit YOUTUBE_URL; Lit "/playlists?"; Lit "&part=snippet";
             Lit "&id="; Lit playlist_id; Lit "&key="; Lit token];
     method := GET; authorization := None; data := None |}.

Definition playlist_items_url (token playlist_id : string) : fstring :=
  [Lit YOUTUBE_URL; Lit "/playlistItems?"; Lit "&part=snippet"; Lit "&maxResults=50";
   Lit "&playlistId="; Lit playlist_id; Lit "&key="; Lit token].

(** The request for the first page, and the one that follows a cursor. *)
Definition playlist_items_request (token playlist_id : string) (cursor : option json)
    : request :=
  {| url := playlist_items_url token playlist_id ++
            match cursor with
            | Some c => [Lit "&pageToken="; Str c]
            | None => []
            end;
     method := GET; authorization := None; data := None |}.

Definition search_request (token title : string) : request :=
  {| url := [Lit SPOTIFY_URL; Lit "/search?"; Lit "&q="; Lit (urllib.quote_plus title);
             Lit "&type=track"; Lit "&limit=1"];
     method := GET; authorization := Some token; data := None |}.

Definition me_request (token : string) : request :=
  {| url := [Lit SPOTIFY_URL; Lit "/me"]; method := GET;
     authorization := Some token; data := None |}.

Definition create_request (token : string) (user_id name : json) : request :=
  {| url := [Lit SPOTIFY_URL; Lit "/users/"; Str user_id; Lit "/playlists"];
     method := POST; authorization := Some token;
     data := Some (JObj [("name", name)]) |}.

Definition add_request (token : string) (playlist : json) (uris : list json) : request :=
  {| url := [Lit SPOTIFY_URL; Lit "/playlists/"; Str playlist; Lit "/tracks"];
     method := POST; authorization := Some token;
     data := Some (JObj [("uris", JArr uris)]) |}.

(** The line [_get_token] writes for a variable that is not set. *)
Definition missing_variable (name : string) : output :=
  Line "ERROR" (ESC +:+ "[31;1m") [Lit "Missing environment variable: "; Repr (JStr name)].

(** ** Sample values *)

Definition titled (title : string) : json :=
  JObj [("snippet", JObj [("title", JStr title)])].

Definition found (uri : string) : json :=
  JObj [("tracks", JObj [("items", JArr [JObj [("uri", JStr uri)]])])].

Definition no_match : json := JObj [("tracks", JObj [("items", JArr [])])].

(** A process with both tokens set, a terminal of 80 columns and the given
    responses pending. *)
Definition sample_world (pending : list (result json)) : world :=
  {| environ := {[ "YOUTUBE_TOKEN" := "yt"; "SPOTIFY_TOKEN" := "sp" ]};
     terminal := Some 80; responses := pending; exchanges := []; stdout := [] |}.

(** The same process without [SPOTIFY_TOKEN]. *)
Definition sample_world_no_spotify (pending : list (result json)) : world :=
  {| environ := {[ "YOUTUBE_TOKEN" := "yt" ]};
     terminal := Some 80; responses := pending; exchanges := []; stdout := [] |}.

Definition sample_args : Namespace.t :=
  {| Namespace.youtube_playlist := "https://www.youtube.com/playlist?list=PL123";
     Namespace.name := None |}.

(** ** Playlist references *)

Definition playlist_prefix : string := "https://www.youtube.com/playlist".

(** The parameters of the query of a URL, as [urlparse] and [parse_qsl]
    read them: decoded, those with a blank value left out. *)
Definition query_parameters (s : string) : list (string * string) :=
  urllib.parse_qsl (urllib.urlparse_query s).

(** The values a name has among the parameters, in order. *)
Definition values_of (name : string) (pairs : list (string * string)) : list string :=
  omap (fun '(n, v) => if String.eqb n name then Some v else None) pairs.

(** A character that stands for itself in the value of a parameter: it
    neither ends the value, nor is it decoded, nor dropped from the URL. *)
Definition plain (c : ascii) : bool :=
  negb (Ascii.eqb c "#" || Ascii.eqb c "&" || Ascii.eqb c "%" || Ascii.eqb c "+"
        || urllib.unsafe_url_byte c).

(** What may follow the value of the first parameter: nothing, another
    parameter or the fragment. *)
Definition ends_value (rest : string) : bool :=
  match rest with
  | EmptyString => true
  | String c _ => Ascii.eqb c "&" || Ascii.eqb c "#"
  end.

(** The fields [name=value] of the query of a URL as they are written,
    decoded, those with nothing after the [=] included. *)
Definition written_parameters (s : string) : list (string * string) :=
  let qs := urllib.urlparse_query s in
  omap (fun name_value =>
          match split_once "=" name_value with
          | Some (name, value) =>
              Some (urllib.unquote (replace_char "+" " " name),
                    urllib.unquote (replace_char "+" " " value))
          | None => None
          end) (if String.eqb qs "" then [] else split_on "&" qs).

(** C5 as it is stated: a URL of the playlist shape in which a [list]
    parameter is written resolves to the value of a [list] parameter. *)
Definition resolved_as_stated (s : string) : Prop :=
  String.prefix playlist_prefix s = true ->
  forall value, ("list", value) ∈ written_parameters s ->
  exists value', ("list", value') ∈ written_parameters s /\
                 _youtube_get_playlist_id s = Ok value'.

(** ** Pages of the source playlist *)

(** A page of the playlist, as the source catalog sends it: the response
    with the list it holds under [items] and the value [.get] finds under
    [nextPageToken], [None] when there is none. *)
Record page : Type := {
  page_response : json;
  page_items : list json;
  page_cursor : json
}.

Definition well_formed (p : page) : Prop :=
  getitem (page_response p) "items" = Ok (JArr (page_items p)) /\
  dict_get (page_response p) "nextPageToken" = Ok (page_cursor p).

(** The page [cur] and the pages [more] after it: every page but the last
    carries a cursor, one that Python counts as true. *)
Fixpoint linked (cur : page) (more : list page) : bool :=
  match more with
  | [] => negb (truthy (page_cursor cur))
  | next :: more' => truthy (page_cursor cur) && linked next more'
  end.

(** The exchanges that fetch the pages after [cur]: each request carries
    the cursor of the page before. *)
Fixpoint follow_ups (token playlist_id : string) (cur : page) (more : list page)
    : list exchange :=
  match more with
  | [] => []
  | next :: more' =>
      (playlist_items_request token playlist_id (Some (page_cursor cur)),
       Ok (page_response next))
      :: follow_ups token playlist_id next more'
  end.

Definition sample_page (titles : list string) (cursor : option string) : page :=
  {| page_response :=
       JObj (("items", JArr (map titled titles))
             :: match cursor with
                | Some c => [("nextPageToken", JStr c)]
                | None => []
                end);
     page_items := map titled titles;
     page_cursor := match cursor with Some c => JStr c | None => JNull end |}.

(** ** Batches *)

(** The slices [uris[start:end]] the loop of [_main] takes, in order. *)
Definition batches (uris : list json) : list (list json) :=
  map (fun start =>
         let end_ := start + 100 in
         let end_ := if (length uris <? end_)%nat then length uris else end_ in
         slice uris start end_)
      (py_range (length uris) 100).

Definition sample_uris (n : nat) : list json :=
  map (fun k => JStr (String (ascii_of_nat k) EmptyString)) (seq 0 n).

(** ** What a run exchanges with the catalogs *)

(** [m] adds the exchanges [X] to those made before, and [Q] holds of what
    it returns or raises and of [X]. *)
Definition emits {A} (m : M A) (Q : result A -> list exchange -> Prop) : Prop :=
  forall w, exists X, exchanges (snd (m w)) = exchanges w ++ X /\ Q (fst (m w)) X.

(** The title [_youtube_get_playlist_name] reads from a response. *)
Definition first_title (ret : json) : result json :=
  items ← getitem ret "items";
  item ← getitem_0 items;
  snippet_title item.

(** The identifier [_spotify_search_track] reads from a response. *)
Definition top_result (ret : json) : result json :=
  tracks ← getitem ret "tracks";
  items ← getitem tracks "items";
  item ← getitem_0 items;
  getitem item "uri".

(** A search that found nothing: the list of results is empty. *)
Definition zero_results (ret : json) : Prop :=
  exists tracks, getitem ret "tracks" = Ok tracks /\ getitem tracks "items" = Ok (JArr []).

(** The requests of [_spotify_create_playlist] and those of
    [_spotify_add_to_playlist]. *)
Definition is_create (req : request) : Prop :=
  (exists token, req = me_request token) \/
  (exists token user_id name, req = create_request token user_id name).

Definition is_add (req : request) : Prop :=
  exists token playlist uris, req = add_request token playlist uris.

(** A request to the source catalog carries no bearer token. *)
Definition is_source (x : exchange) : Prop := authorization (fst x) = None.

Definition is_search (token : string) (x : exchange) : Prop :=
  exists title, fst x = search_request token title.

(** The exchanges of a search phase that returns or raises [r]: all are
    searches, and an answer from which no identifier can be read is what
    made the phase raise. *)
Definition searched {A} (token : string) (r : result A) (X : list exchange) : Prop :=
  Forall (is_search token) X /\
  forall req answer, (req, Ok answer) ∈ X ->
    match top_result answer with
    | Ok _ => True
    | Raise e => r = Raise e
    end.

(** An exchange that is neither part of creating the playlist nor an
    append to it. *)
Definition no_write (x : exchange) : Prop := ~ is_create (fst x) /\ ~ is_add (fst x).

(** Some search among the exchanges found nothing. *)
Definition found_nothing (X : list exchange) : Prop :=
  exists token title answer,
    (search_request token title, Ok answer) ∈ X /\ zero_results answer.

(** ** Sample runs *)

(** The source playlist "My Mix" with the tracks A and B on one page. *)
Definition my_mix : list (result json) :=
  [Ok (JObj [("items", JArr [titled "My Mix"])]);
   Ok (page_response (sample_page ["A"; "B"] None))].

(** The destination catalog finds A and nothing for B. *)
Definition run_without_match : world :=
  sample_world (my_mix ++ [Ok (found "spotify:track:1"); Ok no_match]).

(** The destination catalog finds both, and the playlist is created and
    filled. *)
Definition run_to_the_end : world :=
  sample_world (my_mix ++ [Ok (found "spotify:track:1"); Ok (found "spotify:track:2");
                           Ok (JObj [("id", JStr "me")]); Ok (JObj [("id", JStr "new")]);
                           Ok (JObj [("snapshot_id", JStr "s1")])]).

(** ** The name of the destination playlist *)

(** The name as the specification states it: an override that was
    supplied is used, whatever it is. *)
Definition claimed_name (override : option string) (display : json) : json :=
  match override with
  | Some s => JStr s
  | None => display
  end.

(** The name as the code has it: an empty override counts as none. *)
Definition destination_name (override : option string) (display : json) : json :=
  match override with
  | Some s => if decide (s = "") then display else JStr s
  | None => display
  end.

(** No exchange asks to create a playlist. *)
Definition no_create (X : list exchange) : Prop :=
  forall token user_id created resp,
    (create_request token user_id created, resp) ∉ X.

Definition args_with_empty_name : Namespace.t :=
  {| Namespace.youtube_playlist := "PL123"; Namespace.name := Some "" |}.

(** C7 as it is stated: a request that asks to create the playlist
    carries [claimed_name]. *)
Definition created_as_claimed (args : Namespace.t) (w : world) : Prop :=
  exists X, exchanges (snd (_main args w)) = exchanges w ++ X /\
    forall token user_id created resp,
      (create_request token user_id created, resp) ∈ X ->
      exists yt_token playlist_id ret display rest,
        X = (playlists_request yt_token playlist_id, Ok ret) :: rest /\
        first_title ret = Ok display /\
        created = claimed_name (Namespace.name args) display.

(** ** The search phase *)

Definition has_title (track : json) (title : string) : Prop :=
  snippet_title track = Ok (JStr title).

Definition has_top_result (answer uri : json) : Prop := top_result answer = Ok uri.

(** What the progress bar writes for the tracks with the given titles,
    from step [i] on. *)
Fixpoint progress_output (columns total i : nat) (titles : list string) : list output :=
  match titles with
  | [] => []
  | title :: titles' =>
      Progress columns i total (_crop title 40%Z)
      :: progress_output columns total (S i) titles'
  end.

(** Where the bar was last drawn after the loop went over [tracks] from
    step [i]. *)
Definition last_step (i : nat) (base : option nat) (tracks : list json) : option nat :=
  match tracks with
  | [] => base
  | _ :: _ => Some (i + length tracks - 1)
  end.

Definition searching : output :=
  Line "INFO" (ESC +:+ "[34;1m") [Lit "Searching for tracks on Spotify..."].

(** [for item in items: body], with the state [acc] of the loop. *)
Fixpoint for_each {A} (items : list json) (body : json -> A -> M A) (acc : A) : M A :=
  match items with
  | [] => mret acc
  | item :: items' => acc ← body item acc; for_each items' body acc
  end.

(** The source playlist without tracks. *)
Definition empty_playlist : world :=
  sample_world [Ok (JObj [("items", JArr [titled "My Mix"])]);
                Ok (JObj [("items", JArr [])]);
                Ok (JObj [("id", JStr "me")]); Ok (JObj [("id", JStr "new")])].

(** Two worlds that differ in what was written to stdout at most. *)
Definition same_io (w w' : world) : Prop :=
  environ w = environ w' /\ terminal w = terminal w' /\
  responses w = responses w' /\ exchanges w = exchanges w'.

(** * Vocabulary of the further properties *)

(** A character [quote_plus] lets through or writes: a letter, a digit,
    one of [_.-~], the [+] that stands for a space, or the [%] of an
    escape. *)
Definition query_char (c : ascii) : bool :=
  urllib.always_safe c || Ascii.eqb c "+" || Ascii.eqb c "%".

(** [s] is well-formed UTF-8: decoding finds nothing to replace. *)
Definition well_formed_utf8 (s : string) : Prop := urllib.decode_replace s = s.

(** [unquote_plus(s)], what [parse_qsl] does to a name or a value. *)
Definition unquote_plus (s : string) : string :=
  urllib.unquote (replace_char "+" " " s).

(** ** Runs, request by request *)

(** Every request got an answer. *)
Definition all_answered (X : list exchange) : Prop :=
  Forall (fun x : exchange => exists ret, snd x = Ok ret) X.

(** No request follows one that failed: either every request was
    answered, or the last one failed, the ones before were answered, and
    its exception is what the run raises. *)
Definition fail_fast {A} (r : result A) (X : list exchange) : Prop :=
  all_answered X \/
  exists X' req e, X = X' ++ [(req, Raise e)] /\ all_answered X' /\ r = Raise e.

(** ** The steps of a run *)

(** A step that makes no request and gives [r0]. *)
Definition quiet {A} (r0 r : result A) (X : list exchange) : Prop :=
  X = [] /\ r = r0.

(** A step that [P] describes and, if it returned, one that [Q]
    describes: an exception ends the run where it is raised. *)
Definition then_ {A B} (P : result A -> list exchange -> Prop)
    (Q : A -> result B -> list exchange -> Prop) (r : result B) (X : list exchange) : Prop :=
  exists r1 X1, P r1 X1 /\
    match r1 with
    | Ok a => exists X2, Q a r X2 /\ X = X1 ++ X2
    | Raise e => r = Raise e /\ X = X1
    end.

(** One request, from whose answer [read] takes the result. *)
Definition asks {A} (req : request) (read : json -> result A) (r : result A)
    (X : list exchange) : Prop :=
  exists resp, X = [(req, resp)] /\ r = resp ≫= read.

(** A response whose [nextPageToken] Python counts as true, or as false. *)
Definition has_cursor (resp : result json) (cursor : json) : Prop :=
  exists ret, resp = Ok ret /\ dict_get ret "nextPageToken" = Ok cursor /\
              truthy cursor = true.

Definition has_no_cursor (resp : result json) : Prop :=
  exists ret cursor, resp = Ok ret /\ dict_get ret "nextPageToken" = Ok cursor /\
                     truthy cursor = false.

(** The exchanges after the one answered with [prev]: each asks for the
    page after the cursor of the answer before. *)
Fixpoint follows_cursors (token playlist_id : string) (prev : result json)
    (X : list exchange) : Prop :=
  match X with
  | [] => True
  | x :: X' =>
      (exists cursor, has_cursor prev cursor /\
                      fst x = playlist_items_request token playlist_id (Some cursor)) /\
      follows_cursors token playlist_id (snd x) X'
  end.

(** [tracks] after [tracks.extend(ret["items"])] for every response of
    [rets], in order. *)
Fixpoint extended (tracks : json) (rets : list json) : result json :=
  match rets with
  | [] => Ok tracks
  | ret :: rets' =>
      tracks ← list_extend tracks (getitem ret "items");
      extended tracks rets'
  end.

(** What [_youtube_get_tracks] returns after the answers [first] and
    [more]: every request was answered, the last answer carries no
    cursor, and the tracks are the items of the first answer, extended by
    those of the others. *)
Definition collected (first : result json) (more : list (result json)) (tracks : json)
    : Prop :=
  has_no_cursor (List.last more first) /\
  exists ret rets items,
    first = Ok ret /\ more = map Ok rets /\
    getitem ret "items" = Ok items /\ extended items rets = Ok tracks.

(** The exchanges of [_youtube_get_tracks]: the first page is asked for
    without a cursor, every other one with the cursor of the answer
    before. *)
Definition pages_fetched (token playlist_id : string) (r : result json)
    (X : list exchange) : Prop :=
  exists first more,
    X = (playlist_items_request token playlist_id None, first) :: more /\
    follows_cursors token playlist_id first more /\
    forall tracks, r = Ok tracks -> collected first (map snd more) tracks.

(** The elements the progress bar goes over. *)
Definition elements (tracks : json) : list json :=
  match py_iter tracks with
  | Ok items => items
  | Raise _ => []
  end.

(** An exchange that gave the identifier [uri]. *)
Definition gave (x : exchange) (uri : json) : Prop :=
  exists answer, snd x = Ok answer /\ top_result answer = Ok uri.

(** The exchanges of the search loop over [items]: one search per track,
    in the order of the tracks, for as long as the loop runs; when it
    returns, every track was searched and the identifiers [found] are
    what the searches gave. *)
Definition searches_made (token : string) (items : list json) (found : result (list json))
    (X : list exchange) : Prop :=
  (exists titles, Forall2 has_title (take (length X) items) titles /\
                  map fst X = map (search_request token) titles) /\
  forall uris, found = Ok uris -> length X = length items /\ Forall2 gave X uris.

(** The exchanges of [_spotify_create_playlist]: the user is asked for,
    then the playlist is created under the identifier of the user. *)
Definition playlist_created (token : string) (name : json) : result json ->
    list exchange -> Prop :=
  then_ (asks (me_request token) (fun user => getitem user "id"))
        (fun user_id => asks (create_request token user_id name)
                             (fun ret => getitem ret "id")).

(** The exchanges of the loop that fills the playlist: the batches are
    appended in order for as long as the loop runs, all of them when it
    returns. *)
Definition tracks_added (token : string) (playlist : json) (uris : list json)
    (r : result unit) (X : list exchange) : Prop :=
  map fst X = map (add_request token playlist) (take (length X) (batches uris)) /\
  (r = Ok tt -> length X = length (batches uris) /\ all_answered X).

(** Lines 181 to 208 of [_main]: what runs once both tokens are there. *)
Definition transfer (args : Namespace.t) (yt_token sp_token : string) : M Z :=
  _debug [Lit "Tokens found"];;
  youtube_playlist ← lift (_youtube_get_playlist_id (Namespace.youtube_playlist args));
  name ← _youtube_get_playlist_name yt_token youtube_playlist;
  _debug [Lit "Youtube playlist found: "; Repr name];;
  tracks ← _youtube_get_tracks yt_token youtube_playlist;
  found ← lift (py_len tracks);
  _info [Lit "Found "; Str (JNum (Z.of_nat found)); Lit " tracks in the playlist"];;
  uris ← search_tracks sp_token tracks;
  spotify_playlist ← _spotify_create_playlist sp_token (name_or (Namespace.name args) name);
  _info [Lit "Spotify playlist created"];;
  add_tracks sp_token spotify_playlist uris;;
  _info [Lit "Tracks added to playlist"];;
  _info [Lit "Done"];;
  mret 0%Z.

(** The exchanges of a run, step by step. *)
Definition steps_of_main (args : Namespace.t) (yt_token sp_token : string)
    : result Z -> list exchange -> Prop :=
  then_ (quiet (_youtube_get_playlist_id (Namespace.youtube_playlist args)))
    (fun playlist_id =>
  then_ (asks (playlists_request yt_token playlist_id) first_title) (fun name =>
  then_ (pages_fetched yt_token playlist_id) (fun tracks =>
  then_ (quiet (py_len tracks)) (fun _ =>
  then_ (searches_made sp_token (elements tracks)) (fun uris =>
  then_ (playlist_created sp_token (name_or (Namespace.name args) name))
    (fun spotify_playlist =>
  then_ (tracks_added sp_token spotify_playlist uris) (fun _ =>
  quiet (Ok 0%Z)))))))).

(** ** Where the requests go *)

(** The requests to the source catalog for the playlist [playlist_id]:
    the key is part of the URL and there is no [Authorization] header. *)
Definition source_request (yt_token playlist_id : string) (req : request) : Prop :=
  req = playlists_request yt_token playlist_id \/
  exists cursor, req = playlist_items_request yt_token playlist_id cursor.

(** The requests to the destination catalog: the token is the bearer. *)
Definition destination_request (sp_token : string) (req : request) : Prop :=
  (exists title, req = search_request sp_token title) \/
  req = me_request sp_token \/
  (exists user_id name, req = create_request sp_token user_id name) \/
  (exists playlist chunk, req = add_request sp_token playlist chunk).

Definition routed (args : Namespace.t) (yt_token sp_token : string) (x : exchange) : Prop :=
  (exists playlist_id,
     _youtube_get_playlist_id (Namespace.youtube_playlist args) = Ok playlist_id /\
     source_request yt_token playlist_id (fst x)) \/
  destination_request sp_token (fst x).

(** ** Runs that go through *)

(** After the exchanges [X0] and the output [O0] of a run from [w], with
    the responses [p0] pending, [m] gives [r], leaves the responses [p]
    pending, makes the exchanges [X] and writes [O]. *)
Definition runs {A} (m : M A) (w : world) (p0 : list (result json)) (X0 : list exchange)
    (O0 : list output) (r : result A) (p : list (result json)) (X : list exchange)
    (O : list output) : Prop :=
  m (with_io w p0 (exchanges w ++ X0) (stdout w ++ O0))
  = (r, with_io w p (exchanges w ++ X0 ++ X) (stdout w ++ O0 ++ O)).

(** The same process with stdout redirected to a file or a pipe. *)
Definition without_terminal (w : world) : world :=
  {| environ := environ w; terminal := None; responses := responses w;
     exchanges := exchanges w; stdout := stdout w |}.

(** * Properties *)

(** ** Running the monad *)

Lemma bind_run {A B} (m : M A) (f : A -> M B) (w : world) :
  (m ≫= f) w = match m w with
               | (Ok a, w') => f a w'
               | (Raise e, w') => (Raise e, w')
               end.
Proof. reflexivity. Qed.

Lemma bind_ok {A B} (m : M A) (f : A -> M B) (w w' : world) (a : A) :
  m w = (Ok a, w') -> (m ≫= f) w = f a w'.
Proof. intros H. rewrite bind_run, H. reflexivity. Qed.

Lemma bind_raise {A B} (m : M A) (f : A -> M B) (w w' : world) (e : exn) :
  m w = (Raise e, w') -> (m ≫= f) w = (Raise e, w').
Proof. intros H. rewrite bind_run, H. reflexivity. Qed.

Lemma with_io_same (w : world) : with_io w (responses w) (exchanges w) (stdout w) = w.
Proof. destruct w; reflexivity. Qed.

Lemma url_open_run (req : request) (w : world) (r : result json) (rest : list (result json)) :
  responses w = r :: rest ->
  _url_open req w = (r, with_io w rest (exchanges w ++ [(req, r)]) (stdout w)).
Proof. intros H. unfold _url_open, with_io. rewrite H. reflexivity. Qed.

Lemma url_open_unreachable (req : request) (w : world) :
  responses w = [] ->
  _url_open req w
  = (Raise URLError, with_io w [] (exchanges w ++ [(req, Raise URLError)]) (stdout w)).
Proof. intros H. unfold _url_open, with_io. rewrite H. reflexivity. Qed.

Lemma get_token_set (name value : string) (w : world) :
  environ w !! name = Some value -> _get_token name w = (Ok value, w).
Proof. intros H. unfold _get_token. rewrite bind_run. cbn. rewrite H. reflexivity. Qed.

Lemma get_token_unset (name : string) (w : world) :
  environ w !! name = None ->
  _get_token name w
  = (Raise (SystemExit 1),
     with_io w (responses w) (exchanges w) (stdout w ++ [missing_variable name])).
Proof. intros H. unfold _get_token. rewrite bind_run. cbn. rewrite H. reflexivity. Qed.

(** ** Missing credentials *)

(** C6. When [YOUTUBE_TOKEN] or [SPOTIFY_TOKEN] is not set in the
    environment, [_main] writes one error line that names a variable that
    is not set and raises [SystemExit(1)], so the process ends with status
    1; no request has been made and no pending response taken. *)
Theorem missing_token_exits (args : Namespace.t) (w : world) :
  environ w !! "YOUTUBE_TOKEN" = None \/ environ w !! "SPOTIFY_TOKEN" = None ->
  exists name : string,
    (name = "YOUTUBE_TOKEN" \/ name = "SPOTIFY_TOKEN") /\
    environ w !! name = None /\
    _main args w
    = (Raise (SystemExit 1),
       with_io w (responses w) (exchanges w) (stdout w ++ [missing_variable name])) /\
    exit_status (fst (_main args w)) = 1%Z.
Proof.
  intros H.
  destruct (environ w !! "YOUTUBE_TOKEN") as [yt|] eqn:Hyt.
  - destruct H as [H|H]; [discriminate|].
    exists "SPOTIFY_TOKEN". split; [now right|]. split; [exact H|].
    assert (Hrun : _main args w
                   = (Raise (SystemExit 1),
                      with_io w (responses w) (exchanges w)
                        (stdout w ++ [missing_variable "SPOTIFY_TOKEN"]))).
    { unfold _main. rewrite (bind_ok _ _ _ _ _ (get_token_set _ _ _ Hyt)).
      apply bind_raise, get_token_unset, H. }
    rewrite Hrun. split; reflexivity.
  - exists "YOUTUBE_TOKEN". split; [now left|]. split; [exact Hyt|].
    assert (Hrun : _main args w
                   = (Raise (SystemExit 1),
                      with_io w (responses w) (exchanges w)
                        (stdout w ++ [missing_variable "YOUTUBE_TOKEN"]))).
    { unfold _main. apply bind_raise, get_token_unset, Hyt. }
    rewrite Hrun. split; reflexivity.
Qed.

Lemma missing_token_exits_witness :
  (environ (sample_world_no_spotify [Ok (titled "x")]) !! "YOUTUBE_TOKEN" = None \/
   environ (sample_world_no_spotify [Ok (titled "x")]) !! "SPOTIFY_TOKEN" = None) /\
  exists name : string,
    (name = "YOUTUBE_TOKEN" \/ name = "SPOTIFY_TOKEN") /\
    environ (sample_world_no_spotify [Ok (titled "x")]) !! name = None /\
    _main sample_args (sample_world_no_spotify [Ok (titled "x")])
    = (Raise (SystemExit 1),
       with_io (sample_world_no_spotify [Ok (titled "x")]) [Ok (titled "x")] []
         [missing_variable name]) /\
    exit_status (fst (_main sample_args (sample_world_no_spotify [Ok (titled "x")]))) = 1%Z.
Proof.
  split.
  - right. reflexivity.
  - apply (missing_token_exits sample_args (sample_world_no_spotify [Ok (titled "x")])).
    right. reflexivity.
Defined.

(** ** The name of the source playlist *)

(** C9. [_youtube_get_playlist_name] makes one request. When the response
    holds a list of items, the result is the title of the snippet of the
    first item if there is one, and [IndexError], the failure of indexing
    an empty list, if the list is empty. *)
Theorem playlist_name_of_first_item (token playlist_id : string) (w : world)
    (ret : json) (rest : list (result json)) (items : list json) :
  responses w = Ok ret :: rest ->
  getitem ret "items" = Ok (JArr items) ->
  _youtube_get_playlist_name token playlist_id w
  = (match items with
     | item :: _ => snippet_title item
     | [] => Raise IndexError
     end,
     with_io w rest (exchanges w ++ [(playlists_request token playlist_id, Ok ret)])
       (stdout w)).
Proof.
  intros Hw Hitems. unfold _youtube_get_playlist_name.
  rewrite (bind_ok _ _ _ _ _ (url_open_run _ _ _ _ Hw)).
  unfold lift. rewrite Hitems. destruct items as [|item items']; reflexivity.
Qed.

Lemma playlist_name_of_first_item_witness :
  _youtube_get_playlist_name "yt" "PL123"
    (sample_world [Ok (JObj [("items", JArr [titled "My Mix"])])])
  = (Ok (JStr "My Mix"),
     with_io (sample_world []) []
       [(playlists_request "yt" "PL123", Ok (JObj [("items", JArr [titled "My Mix"])]))] [])
  /\
  _youtube_get_playlist_name "yt" "PL123" (sample_world [Ok (JObj [("items", JArr [])])])
  = (Raise IndexError,
     with_io (sample_world []) []
       [(playlists_request "yt" "PL123", Ok (JObj [("items", JArr [])]))] []).
Proof.
  split.
  - exact (playlist_name_of_first_item "yt" "PL123"
             (sample_world [Ok (JObj [("items", JArr [titled "My Mix"])])])
             (JObj [("items", JArr [titled "My Mix"])]) [] [titled "My Mix"]
             eq_refl eq_refl).
  - exact (playlist_name_of_first_item "yt" "PL123"
             (sample_world [Ok (JObj [("items", JArr [])])])
             (JObj [("items", JArr [])]) [] []
             eq_refl eq_refl).
Defined.

(** ** Playlist references *)

Section Strings.

Lemma append_nil (s : string) : "" +:+ s = s.
Proof. reflexivity. Qed.

Lemma append_cons (c : ascii) (a b : string) : String c a +:+ b = String c (a +:+ b).
Proof. reflexivity. Qed.

Lemma prefix_app (a s : string) :
  String.prefix a s = true -> exists t, s = a +:+ t.
Proof.
  revert s. induction a as [|c a IH]; intros s H.
  - exists s. reflexivity.
  - destruct s as [|c' s]; [discriminate|]. cbn in H.
    destruct (ascii_dec c c') as [->|]; [|discriminate].
    destruct (IH s H) as [t ->]. exists t. reflexivity.
Qed.

Lemma remove_chars_app (f : ascii -> bool) (a b : string) :
  remove_chars f (a +:+ b) = remove_chars f a +:+ remove_chars f b.
Proof.
  induction a as [|c a IH]; [reflexivity|]. rewrite append_cons. cbn.
  destruct (f c); rewrite ?append_cons, IH; reflexivity.
Qed.

Lemma remove_chars_none (f : ascii -> bool) (a : string) :
  str_forall (fun c => negb (f c)) a = true -> remove_chars f a = a.
Proof.
  induction a as [|c a IH]; [reflexivity|]. cbn. intros [Hc Ha]%andb_prop.
  destruct (f c); [discriminate|]. now rewrite IH.
Qed.

Lemma split_once_app (c : ascii) (a b : string) :
  contains c a = false ->
  split_once c (a +:+ b)
  = match split_once c b with
    | Some (x, y) => Some (a +:+ x, y)
    | None => None
    end.
Proof.
  induction a as [|x a IH]; rewrite ?append_nil, ?append_cons; cbn.
  - intros _. destruct (split_once c b) as [[? ?]|]; reflexivity.
  - intros [Hx Ha]%orb_false_elim. rewrite Hx, (IH Ha).
    destruct (split_once c b) as [[? ?]|]; reflexivity.
Qed.

Lemma split_once_none (c : ascii) (a : string) :
  contains c a = false -> split_once c a = None.
Proof.
  induction a as [|x a IH]; cbn; [reflexivity|].
  intros [Hx Ha]%orb_false_elim. now rewrite Hx, (IH Ha).
Qed.

Lemma split_on_nonempty (c : ascii) (s : string) : split_on c s <> [].
Proof.
  destruct s as [|x s]; cbn; [discriminate|].
  destruct (split_on c s); [discriminate|]. destruct (Ascii.eqb x c); discriminate.
Qed.

Lemma split_on_app (c : ascii) (a b : string) :
  contains c a = false ->
  split_on c (a +:+ b)
  = match split_on c b with
    | p :: ps => (a +:+ p) :: ps
    | [] => [a]
    end.
Proof.
  induction a as [|x a IH]; rewrite ?append_nil, ?append_cons; cbn.
  - intros _. destruct (split_on c b) eqn:E; [|reflexivity].
    now apply split_on_nonempty in E.
  - intros [Hx Ha]%orb_false_elim. rewrite Hx, (IH Ha).
    destruct (split_on c b) eqn:E; [|reflexivity].
    now apply split_on_nonempty in E.
Qed.

Lemma replace_char_none (a b : ascii) (s : string) :
  contains a s = false -> replace_char a b s = s.
Proof.
  induction s as [|x s IH]; cbn; [reflexivity|].
  intros [Hx Hs]%orb_false_elim. now rewrite Hx, (IH Hs).
Qed.

Lemma unquote_none (s : string) : contains "%" s = false -> urllib.unquote s = s.
Proof. intros H. unfold urllib.unquote. now rewrite H. Qed.

Lemma append_empty_r (s : string) : s +:+ "" = s.
Proof. induction s as [|c s IH]; [reflexivity|]. now rewrite append_cons, IH. Qed.

Lemma append_assoc (a b c : string) : (a +:+ b) +:+ c = a +:+ (b +:+ c).
Proof. induction a as [|x a IH]; [reflexivity|]. now rewrite !append_cons, IH. Qed.

(** What [plain] rules out. *)
Lemma plain_spec (s : string) (c : ascii) :
  str_forall plain s = true ->
  Ascii.eqb c "#" || Ascii.eqb c "&" || Ascii.eqb c "%" || Ascii.eqb c "+"
    || urllib.unsafe_url_byte c = true ->
  contains c s = false.
Proof.
  intros Hs Hc. induction s as [|x s IH]; cbn; [reflexivity|].
  cbn in Hs. apply andb_prop in Hs as [Hx Hs]. rewrite (IH Hs), orb_false_r.
  destruct (Ascii.eqb_spec x c) as [->|]; [|reflexivity].
  unfold plain in Hx. rewrite Hc in Hx. discriminate.
Qed.

Lemma plain_safe (s : string) :
  str_forall plain s = true ->
  str_forall (fun c => negb (urllib.unsafe_url_byte c)) s = true.
Proof.
  induction s as [|x s IH]; cbn; [reflexivity|].
  intros [Hx Hs]%andb_prop. rewrite (IH Hs), andb_true_r.
  unfold plain in Hx. rewrite !negb_orb in Hx.
  now repeat apply andb_prop in Hx as [Hx ?].
Qed.

End Strings.

Section PlaylistReference.

(** For every string that starts like a playlist URL the network location
    is [www.youtube.com], which the checks [urlsplit] makes on it accept;
    the query is what stands between the first [?] and the first [#]. *)
Lemma playlist_url_split (t : string) :
  urllib.urlsplit (playlist_prefix +:+ t)
  = let t' := remove_chars urllib.unsafe_url_byte t in
    let '(u, fragment) := match split_once "#" ("/playlist" +:+ t') with
                          | Some (before, after) => (before, after)
                          | None => ("/playlist" +:+ t', "")
                          end in
    let '(p, q) := match split_once "?" u with
                   | Some (before, after) => (before, after)
                   | None => (u, "")
                   end in
    {| urllib.scheme := "https"; urllib.netloc := "www.youtube.com";
       urllib.path := p; urllib.query := q; urllib.fragment := fragment |}.
Proof. reflexivity. Qed.

Lemma playlist_url_netloc (t : string) :
  urllib.netloc (urllib.urlsplit (playlist_prefix +:+ t)) = "www.youtube.com".
Proof.
  rewrite playlist_url_split. cbv zeta.
  destruct (split_once "#" _) as [[u f]|]; destruct (split_once "?" _) as [[p q]|];
    reflexivity.
Qed.

Lemma values_of_cons (name n v : string) (pairs : list (string * string)) :
  values_of name ((n, v) :: pairs)
  = if String.eqb n name then v :: values_of name pairs else values_of name pairs.
Proof. unfold values_of. cbn. destruct (String.eqb n name); reflexivity. Qed.

(** [parse_qs] gathers, for every name, its values in order. *)
Lemma parse_qs_fold (name : string) (pairs : list (string * string)) :
  forall m : gmap string (list string),
    foldl (fun parsed_result '(name, value) =>
             match parsed_result !! name with
             | Some values => <[name := values ++ [value]]> parsed_result
             | None => <[name := [value]]> parsed_result
             end) m pairs !! name
    = match values_of name pairs with
      | [] => m !! name
      | v :: vs => Some (default [] (m !! name) ++ v :: vs)
      end.
Proof.
  induction pairs as [|[n v] pairs IH]; intros m; [reflexivity|].
  cbn [foldl]. rewrite IH, values_of_cons.
  destruct (String.eqb_spec n name) as [->|Hne].
  - assert (Hm : (match m !! name with
                  | Some values => <[name := values ++ [v]]> m
                  | None => <[name := [v]]> m
                  end) !! name = Some (default [] (m !! name) ++ [v])).
    { destruct (m !! name); cbn; now rewrite lookup_insert_eq. }
    rewrite Hm. cbn [default].
    destruct (values_of name pairs); [reflexivity|].
    unfold id. now rewrite <- app_assoc.
  - assert (Hm : (match m !! n with
                  | Some values => <[n := values ++ [v]]> m
                  | None => <[n := [v]]> m
                  end) !! name = m !! name).
    { destruct (m !! n); now rewrite lookup_insert_ne. }
    now rewrite Hm.
Qed.

Lemma parse_qs_lookup (qs name : string) :
  urllib.parse_qs qs !! name
  = match values_of name (urllib.parse_qsl qs) with
    | [] => None
    | v :: vs => Some (v :: vs)
    end.
Proof.
  unfold urllib.parse_qs. rewrite parse_qs_fold, lookup_empty. reflexivity.
Qed.

(** [_youtube_get_playlist_id] in terms of the parameters of the query. *)
Lemma playlist_id_unfold (s : string) :
  _youtube_get_playlist_id s
  = if String.prefix playlist_prefix s then
      match values_of "list" (query_parameters s) with
      | ret :: _ => Ok ret
      | [] => Raise KeyError
      end
    else Ok s.
Proof.
  unfold _youtube_get_playlist_id, query_parameters. fold playlist_prefix.
  destruct (String.prefix playlist_prefix s); [|reflexivity].
  rewrite parse_qs_lookup. destruct (values_of _ _); reflexivity.
Qed.

Lemma values_of_absent (name : string) (pairs : list (string * string)) :
  (forall value, (name, value) ∉ pairs) -> values_of name pairs = [].
Proof.
  induction pairs as [|[n v] pairs IH]; intros H; [reflexivity|].
  rewrite values_of_cons.
  destruct (String.eqb_spec n name) as [->|Hne].
  - exfalso. apply (H v). left.
  - apply IH. intros value Hin. apply (H value). now right.
Qed.

Lemma values_of_first (name value : string) (before after : list (string * string)) :
  (forall v, (name, v) ∉ before) ->
  values_of name (before ++ (name, value) :: after) = value :: values_of name after.
Proof.
  intros H. unfold values_of at 1. rewrite omap_app.
  fold (values_of name before) (values_of name ((name, value) :: after)).
  rewrite (values_of_absent _ _ H), values_of_cons, String.eqb_refl. reflexivity.
Qed.

End PlaylistReference.

Section CanonicalUrl.

Lemma contains_app (c : ascii) (a b : string) :
  contains c (a +:+ b) = contains c a || contains c b.
Proof.
  induction a as [|x a IH]; [reflexivity|].
  rewrite append_cons. cbn. now rewrite IH, orb_assoc.
Qed.

Variable id : string.
Hypothesis id_plain : str_forall plain id = true.

Lemma id_without (c : ascii) :
  Ascii.eqb c "#" || Ascii.eqb c "&" || Ascii.eqb c "%" || Ascii.eqb c "+"
    || urllib.unsafe_url_byte c = true ->
  contains c id = false.
Proof. apply plain_spec, id_plain. Qed.

(** The query of [https://www.youtube.com/playlist?list=<id><rest>]. *)
Lemma canonical_query (rest : string) :
  ends_value rest = true ->
  exists r, urllib.urlparse_query (playlist_prefix +:+ "?list=" +:+ id +:+ rest)
            = "list=" +:+ id +:+ r
            /\ (r = "" \/ exists x, r = String "&" x).
Proof.
  intros Hrest. unfold urllib.urlparse_query. rewrite playlist_url_split. cbv zeta.
  rewrite !remove_chars_app, (remove_chars_none _ id (plain_safe _ id_plain)).
  replace (remove_chars urllib.unsafe_url_byte "?list=") with "?list=" by reflexivity.
  set (rest' := remove_chars urllib.unsafe_url_byte rest).
  change ("/playlist" +:+ "?list=" +:+ id +:+ rest') with ("/playlist?list=" +:+ id +:+ rest').
  assert (Hsplit : forall r, split_once "?" ("/playlist?list=" +:+ id +:+ r)
                             = Some ("/playlist", "list=" +:+ id +:+ r))
    by reflexivity.
  assert (Hhash : contains "#" ("/playlist?list=" +:+ id) = false).
  { rewrite contains_app, (id_without "#") by reflexivity. reflexivity. }
  rewrite <- append_assoc, (split_once_app _ _ _ Hhash).
  destruct rest as [|c x].
  - exists "". subst rest'. cbn. rewrite append_assoc, Hsplit.
    split; [reflexivity | now left].
  - cbn in Hrest. apply orb_prop in Hrest as [Hc|Hc]; apply Ascii.eqb_eq in Hc; subst c.
    + subst rest'. cbn [remove_chars].
      replace (urllib.unsafe_url_byte "&") with false by reflexivity.
      cbn [split_once]. replace (Ascii.eqb "&" "#") with false by reflexivity.
      destruct (split_once "#" _) as [[b a]|].
      * exists (String "&" b). rewrite append_assoc, Hsplit. split; [reflexivity|].
        right. now exists b.
      * exists (String "&" (remove_chars urllib.unsafe_url_byte x)).
        rewrite append_assoc, Hsplit. split; [reflexivity|]. right. eauto.
    + subst rest'. cbn [remove_chars].
      replace (urllib.unsafe_url_byte "#") with false by reflexivity.
      cbn [split_once]. replace (Ascii.eqb "#" "#") with true by reflexivity.
      exists "". rewrite append_assoc, Hsplit. split; [reflexivity | now left].
Qed.

Hypothesis id_not_blank : id <> "".

(** The parameters of the query [list=<id><r>] start with [list]. *)
Lemma canonical_parameters (r : string) :
  r = "" \/ (exists x, r = String "&" x) ->
  exists after, urllib.parse_qsl ("list=" +:+ id +:+ r) = ("list", id) :: after.
Proof.
  intros Hr. unfold urllib.parse_qsl.
  replace (String.eqb ("list=" +:+ id +:+ r) "") with false by reflexivity.
  assert (Hamp : contains "&" ("list=" +:+ id) = false).
  { rewrite contains_app, (id_without "&") by reflexivity. reflexivity. }
  rewrite <- append_assoc, (split_on_app _ _ _ Hamp).
  assert (Hfield : split_once "=" ("list=" +:+ id) = Some ("list", id)) by reflexivity.
  assert (Hvalue : String.eqb id "" = false) by now apply String.eqb_neq.
  assert (Hid : urllib.unquote (replace_char "+" " " id) = id).
  { rewrite replace_char_none by (now apply id_without).
    apply unquote_none. now apply id_without. }
  destruct Hr as [->|[x ->]].
  - cbn [split_on]. rewrite append_empty_r. cbn [omap list_omap].
    rewrite Hfield, Hvalue, Hid. eexists. reflexivity.
  - cbn [split_on]. replace (Ascii.eqb "&" "&") with true by reflexivity.
    destruct (split_on "&" x) as [|p ps] eqn:E; [now apply split_on_nonempty in E|].
    rewrite append_empty_r. cbn [omap list_omap].
    rewrite Hfield, Hvalue, Hid. eexists. reflexivity.
Qed.

Lemma canonical_url (rest : string) :
  ends_value rest = true ->
  _youtube_get_playlist_id (playlist_prefix +:+ "?list=" +:+ id +:+ rest) = Ok id.
Proof.
  intros Hrest. rewrite playlist_id_unfold.
  replace (String.prefix playlist_prefix (playlist_prefix +:+ "?list=" +:+ id +:+ rest))
    with true by reflexivity.
  unfold query_parameters.
  destruct (canonical_query rest Hrest) as (r & -> & Hr).
  destruct (canonical_parameters r Hr) as (after & ->).
  rewrite values_of_cons. reflexivity.
Qed.

End CanonicalUrl.

Section BlankValues.

Lemma append_not_empty_l (a b : string) : a <> "" -> a +:+ b <> "".
Proof. destruct a; [congruence|]. rewrite append_cons. discriminate. Qed.

Lemma unquote_to_bytes_not_empty (s : string) :
  s <> "" -> urllib.unquote_to_bytes s <> "".
Proof.
  destruct s as [|c s]; [congruence|]. intros _. cbn [urllib.unquote_to_bytes].
  destruct (Ascii.eqb c "%"); [|discriminate].
  destruct s as [|a [|b rest]]; try discriminate.
  destruct (urllib.hextobyte a b); discriminate.
Qed.

Lemma replacement_not_empty (s : string) : urllib.replacement +:+ s <> "".
Proof. discriminate. Qed.

Lemma decode_replace_not_empty (s : string) :
  s <> "" -> urllib.decode_replace s <> "".
Proof.
  destruct s as [|c s1]; [congruence|]. intros _. cbn [urllib.decode_replace].
  repeat match goal with
         | |- (if ?b then _ else _) <> _ => destruct b
         | |- match ?s with EmptyString => _ | String _ _ => _ end <> _ => destruct s
         end;
    first [discriminate | apply replacement_not_empty].
Qed.

(** The runs of a non-empty string: there is a first one, and none is
    empty. *)
Lemma ascii_runs_not_empty (s : string) :
  s <> "" ->
  exists a run runs, urllib.ascii_runs s = (a, run) :: runs /\ run <> "".
Proof.
  induction s as [|c s IH]; [congruence|]. intros _. cbn [urllib.ascii_runs].
  destruct s as [|c' s].
  - cbn. eexists _, _, _. split; [reflexivity | discriminate].
  - destruct IH as (a & run & runs & -> & Hrun); [discriminate|].
    destruct (Bool.eqb (is_ascii c) a); eexists _, _, _; split;
      first [reflexivity | discriminate].
Qed.

Lemma unquote_not_empty (s : string) : s <> "" -> urllib.unquote s <> "".
Proof.
  intros Hs. unfold urllib.unquote.
  destruct (negb (contains "%" s)); [exact Hs|].
  destruct (ascii_runs_not_empty s Hs) as (a & run & runs & -> & Hrun).
  cbn [map urllib.join]. apply append_not_empty_l. destruct a; [|exact Hrun].
  now apply decode_replace_not_empty, unquote_to_bytes_not_empty.
Qed.

Lemma replace_char_not_empty (a b : ascii) (s : string) :
  s <> "" -> replace_char a b s <> "".
Proof. destruct s; [congruence | discriminate]. Qed.

(** Decoding leaves a value blank or not as it is written. *)
Lemma decoded_blank (value : string) :
  String.eqb (urllib.unquote (replace_char "+" " " value)) "" = String.eqb value "".
Proof.
  destruct (String.eqb_spec value "") as [->|Hvalue]; [reflexivity|].
  apply String.eqb_neq. now apply unquote_not_empty, replace_char_not_empty.
Qed.

(** The parameters [parse_qs] reads are the written ones whose value is
    not blank. *)
Lemma query_parameters_written (s : string) :
  query_parameters s
  = List.filter (fun p => negb (String.eqb (snd p) "")) (written_parameters s).
Proof.
  unfold query_parameters, written_parameters, urllib.parse_qsl. cbv zeta.
  induction (if String.eqb (urllib.urlparse_query s) "" then []
             else split_on "&" (urllib.urlparse_query s)) as [|field fields IH];
    [reflexivity|].
  cbn. rewrite IH. destruct (split_once "=" field) as [[name value]|]; [|reflexivity].
  cbn. rewrite decoded_blank. destruct (String.eqb value ""); reflexivity.
Qed.

Lemma filter_elem {A} (f : A -> bool) (l : list A) (x : A) :
  x ∈ List.filter f l <-> x ∈ l /\ f x = true.
Proof. rewrite !list_elem_of_In. apply List.filter_In. Qed.

End BlankValues.

(** C5. A string that does not start with
    [https://www.youtube.com/playlist] is returned as it is. For one that
    does, the parameters of its query are read as [urlparse] and
    [parse_qs] read them, percent-decoded and those with a blank value
    skipped, and the result is the value of the first [list] parameter
    among them: the first [list] parameter that is written with a value.
    In particular [https://www.youtube.com/playlist?list=<id>], alone or
    followed by [&...] or [#...], gives [<id>] for every non-empty [<id>]
    of plain characters. *)
Theorem playlist_id_of_reference :
  (forall s : string,
     String.prefix playlist_prefix s = false -> _youtube_get_playlist_id s = Ok s) /\
  (forall (s value : string) (before after : list (string * string)),
     String.prefix playlist_prefix s = true ->
     query_parameters s = before ++ ("list", value) :: after ->
     (forall v, ("list", v) ∉ before) ->
     _youtube_get_playlist_id s = Ok value) /\
  (forall id rest : string,
     id <> "" -> str_forall plain id = true -> ends_value rest = true ->
     _youtube_get_playlist_id (playlist_prefix +:+ "?list=" +:+ id +:+ rest) = Ok id) /\
  (forall (s value : string) (before after : list (string * string)),
     String.prefix playlist_prefix s = true ->
     written_parameters s = before ++ ("list", value) :: after ->
     value <> "" ->
     (forall v, ("list", v) ∈ before -> v = "") ->
     _youtube_get_playlist_id s = Ok value).
Proof.
  split; [|split; [|split]].
  - intros s H. rewrite playlist_id_unfold, H. reflexivity.
  - intros s value before after Hs Hq Hfirst.
    rewrite playlist_id_unfold, Hs, Hq, values_of_first by exact Hfirst. reflexivity.
  - intros id rest Hid Hplain Hrest. now apply canonical_url.
  - intros s value before after Hs Hq Hvalue Hblank.
    rewrite playlist_id_unfold, Hs, query_parameters_written, Hq, List.filter_app.
    cbn [List.filter snd]. apply String.eqb_neq in Hvalue. rewrite Hvalue. cbn [negb].
    rewrite values_of_first; [reflexivity|].
    intros v [Hin Hv]%filter_elem. rewrite (Hblank v Hin) in Hv. discriminate.
Qed.

Lemma playlist_id_of_reference_witness :
  _youtube_get_playlist_id "PL123" = Ok "PL123" /\
  _youtube_get_playlist_id "https://www.youtube.com/playlist?feature=share&list=PL%2D123&list=x"
  = Ok "PL-123" /\
  _youtube_get_playlist_id "https://www.youtube.com/playlist?list=PL123&si=abc" = Ok "PL123" /\
  _youtube_get_playlist_id "https://www.youtube.com/playlist?list=&list=PL123" = Ok "PL123".
Proof.
  split; [|split; [|split]].
  - exact (proj1 playlist_id_of_reference "PL123" eq_refl).
  - apply (proj1 (proj2 playlist_id_of_reference)
             "https://www.youtube.com/playlist?feature=share&list=PL%2D123&list=x"
             "PL-123" [("feature", "share")] [("list", "x")] eq_refl eq_refl).
    intros v Hv. apply list_elem_of_singleton in Hv. discriminate Hv.
  - apply (proj1 (proj2 (proj2 playlist_id_of_reference)) "PL123" "&si=abc");
      [discriminate | reflexivity | reflexivity].
  - apply (proj2 (proj2 (proj2 playlist_id_of_reference))
             "https://www.youtube.com/playlist?list=&list=PL123"
             "PL123" [("list", "")] [] eq_refl eq_refl); [discriminate|].
    intros v Hv. apply list_elem_of_singleton in Hv. now injection Hv.
Defined.

(** A [list] parameter with a blank value is dropped by [parse_qs]: the
    reference is then a URL without a [list] parameter. *)
Example blank_list_value :
  _youtube_get_playlist_id "https://www.youtube.com/playlist?list=" = Raise KeyError.
Proof. reflexivity. Qed.

(** C5 as it is stated does not hold: in
    [https://www.youtube.com/playlist?list=] a [list] parameter is
    written, and the resolution raises [KeyError]. *)
Lemma blank_list_is_not_resolved :
  ~ resolved_as_stated "https://www.youtube.com/playlist?list=".
Proof.
  intros H. destruct (H eq_refl "") as (value & _ & Hvalue).
  - assert (Hw : written_parameters "https://www.youtube.com/playlist?list="
                 = [("list", "")]) by reflexivity.
    rewrite Hw. constructor.
  - rewrite blank_list_value in Hvalue. discriminate.
Qed.


(** C10. For a string that starts with
    [https://www.youtube.com/playlist] and whose query has no [list]
    parameter, [query["list"]] raises [KeyError]: the string is not
    returned, and no identifier is. *)
Theorem playlist_url_without_list (s : string) :
  String.prefix playlist_prefix s = true ->
  (forall value, ("list", value) ∉ query_parameters s) ->
  _youtube_get_playlist_id s = Raise KeyError.
Proof.
  intros Hs Hnone.
  rewrite playlist_id_unfold, Hs, (values_of_absent _ _ Hnone). reflexivity.
Qed.

Lemma playlist_url_without_list_witness :
  String.prefix playlist_prefix "https://www.youtube.com/playlist?feature=share" = true /\
  (forall value,
     ("list", value) ∉ query_parameters "https://www.youtube.com/playlist?feature=share") /\
  _youtube_get_playlist_id "https://www.youtube.com/playlist?feature=share" = Raise KeyError.
Proof.
  assert (H : forall value,
             ("list", value)
             ∉ query_parameters "https://www.youtube.com/playlist?feature=share").
  { intros value Hv.
    change (query_parameters "https://www.youtube.com/playlist?feature=share")
      with [("feature", "share")] in Hv.
    apply list_elem_of_singleton in Hv. discriminate Hv. }
  split; [reflexivity|]. split; [exact H|].
  exact (playlist_url_without_list "https://www.youtube.com/playlist?feature=share"
           eq_refl H).
Defined.

(** The same without any query. *)
Example playlist_url_without_query :
  _youtube_get_playlist_id "https://www.youtube.com/playlist" = Raise KeyError.
Proof. reflexivity. Qed.

(** ** Fetching the tracks *)

Section Pagination.

Lemma lift_bind {A B} (r : result A) (f : A -> M B) (w : world) :
  (lift r ≫= f) w = match r with
                    | Ok a => f a w
                    | Raise e => (Raise e, w)
                    end.
Proof. rewrite bind_run. unfold lift. destruct r; reflexivity. Qed.

Lemma while_unfold (base_url : fstring) (pending : nat) (ret tracks : json) :
  _youtube_get_tracks_while base_url pending ret tracks
  = (cursor ← lift (dict_get ret "nextPageToken");
     if truthy cursor then
       token ← lift (getitem ret "nextPageToken");
       let url := base_url ++ [Lit "&pageToken="; Str token] in
       ret ← _url_open {| url := url; method := GET; authorization := None;
                          data := None |};
       match pending with
       | O => raise URLError
       | S pending' =>
           tracks ← lift (list_extend tracks (getitem ret "items"));
           _youtube_get_tracks_while base_url pending' ret tracks
       end
     else mret tracks).
Proof. destruct pending; reflexivity. Qed.

(** A value [.get] finds and Python counts as true is what indexing
    gives. *)
Lemma get_truthy (ret cursor : json) (key : string) :
  dict_get ret key = Ok cursor -> truthy cursor = true -> getitem ret key = Ok cursor.
Proof.
  destruct ret; try discriminate. cbn.
  destruct (assoc key members); intros [= <-]; [reflexivity | discriminate].
Qed.

(** The count of pending responses is a bound that is never reached: any
    count that is as large gives the same run. *)
Lemma pending_is_enough (base_url : fstring) (n : nat) :
  forall (pending : nat) (ret tracks : json) (w : world),
    length (responses w) = n -> n <= pending ->
    _youtube_get_tracks_while base_url pending ret tracks w
    = _youtube_get_tracks_while base_url n ret tracks w.
Proof.
  induction n as [|n IH]; intros pending ret tracks w Hlen Hle.
  - rewrite !while_unfold, !lift_bind.
    destruct (dict_get ret "nextPageToken") as [cursor|]; [|reflexivity].
    destruct (truthy cursor); [|reflexivity].
    rewrite !lift_bind. destruct (getitem ret "nextPageToken"); [|reflexivity].
    cbv zeta. apply length_zero_iff_nil in Hlen.
    rewrite !(bind_raise _ _ _ _ _ (url_open_unreachable _ _ Hlen)). reflexivity.
  - destruct pending as [|pending]; [lia|].
    rewrite !while_unfold, !lift_bind.
    destruct (dict_get ret "nextPageToken") as [cursor|]; [|reflexivity].
    destruct (truthy cursor); [|reflexivity].
    rewrite !lift_bind. destruct (getitem ret "nextPageToken"); [|reflexivity].
    cbv zeta. destruct (responses w) as [|r rest] eqn:Hw; [discriminate|].
    destruct r as [ret'|e].
    + rewrite !(bind_ok _ _ _ _ _ (url_open_run _ _ _ _ Hw)), !lift_bind.
      destruct (list_extend tracks (getitem ret' "items")); [|reflexivity].
      apply IH; cbn in *; lia.
    + rewrite !(bind_raise _ _ _ _ _ (url_open_run _ _ _ _ Hw)). reflexivity.
Qed.

Variables token playlist_id : string.

(** The loop, from a page on: the items of the pages after it are added in
    order and one request is made for each. *)
Lemma while_follows_cursors (more : list page) :
  forall (cur : page) (tracks : list json) (w : world) (pending : nat)
         (rest : list (result json)),
    well_formed cur -> Forall well_formed more -> linked cur more = true ->
    responses w = map (fun p => Ok (page_response p)) more ++ rest ->
    length more <= pending ->
    _youtube_get_tracks_while (playlist_items_url token playlist_id) pending
      (page_response cur) (JArr tracks) w
    = (Ok (JArr (tracks ++ concat (map page_items more))),
       with_io w rest (exchanges w ++ follow_ups token playlist_id cur more) (stdout w)).
Proof.
  induction more as [|next more IH];
    intros cur tracks w pending rest [_ Hcur] Hmore Hlinked Hw Hpending.
  - cbn in Hlinked, Hw. apply negb_true_iff in Hlinked.
    rewrite while_unfold, lift_bind, Hcur, Hlinked. cbn.
    rewrite !app_nil_r, <- Hw. now rewrite with_io_same.
  - cbn in Hlinked, Hw. apply andb_prop in Hlinked as [Hcursor Hlinked].
    destruct pending as [|pending]; [cbn in Hpending; lia|].
    apply Forall_cons in Hmore as [Hnext Hmore].
    rewrite while_unfold, lift_bind, Hcur, Hcursor.
    rewrite lift_bind, (get_truthy _ _ _ Hcur Hcursor). cbv zeta.
    rewrite (bind_ok _ _ _ _ _ (url_open_run _ _ _ _ Hw)), lift_bind.
    destruct Hnext as [Hitems Hnext_cursor]. rewrite Hitems. cbn [list_extend].
    replace (Ok (JArr (page_items next)) ≫= λ items : json,
               py_iter items ≫= λ more0 : list json, mret (JArr (tracks ++ more0)))
      with (Ok (JArr (tracks ++ page_items next)) : result json) by reflexivity.
    rewrite (IH next (tracks ++ page_items next) _ pending rest);
      [| split; assumption | assumption | assumption | reflexivity
       | cbn in Hpending; lia].
    unfold with_io, playlist_items_request. cbn. rewrite <- !app_assoc. reflexivity.
Qed.

End Pagination.

Lemma follow_ups_length (token playlist_id : string) (more : list page) :
  forall cur, length (follow_ups token playlist_id cur more) = length more.
Proof. induction more as [|next more IH]; intros cur; cbn; [|rewrite IH]; reflexivity. Qed.

(** C1. The source catalog answers with the pages [first :: more], every
    page but the last carrying a cursor (a [nextPageToken] that Python
    counts as true, as the loop tests it). Then [_youtube_get_tracks]
    returns the items of all pages, concatenated in page order; it makes
    one request per page, the first without a cursor and each later one
    with the cursor of the page before; what is pending after the last
    page stays pending. *)
Theorem get_tracks_all_pages (token playlist_id : string) (first : page)
    (more : list page) (w : world) (rest : list (result json)) :
  Forall well_formed (first :: more) ->
  linked first more = true ->
  responses w = map (fun p => Ok (page_response p)) (first :: more) ++ rest ->
  _youtube_get_tracks token playlist_id w
  = (Ok (JArr (concat (map page_items (first :: more)))),
     with_io w rest
       (exchanges w ++
        (playlist_items_request token playlist_id None, Ok (page_response first))
        :: follow_ups token playlist_id first more)
       (stdout w))
  /\ length ((playlist_items_request token playlist_id None, Ok (page_response first))
             :: follow_ups token playlist_id first more)
     = length (first :: more).
Proof.
  intros Hpages Hlinked Hw. split; [|cbn; now rewrite follow_ups_length].
  apply Forall_cons in Hpages as [Hfirst Hmore]. cbn in Hw.
  unfold _youtube_get_tracks.
  rewrite (bind_ok _ _ _ _ _ (url_open_run _ _ _ _ Hw)), lift_bind.
  rewrite (proj1 Hfirst), bind_run. cbn [count_pending].
  rewrite (while_follows_cursors token playlist_id more first (page_items first) _ _ rest);
    [| assumption | assumption | assumption | reflexivity
     | cbn; rewrite length_app, length_map; lia].
  unfold with_io, playlist_items_request. cbn. rewrite <- !app_assoc. reflexivity.
Qed.

Lemma get_tracks_all_pages_witness :
  _youtube_get_tracks "yt" "PL123"
    (sample_world [Ok (page_response (sample_page ["A"; "B"] (Some "p2")));
                   Ok (page_response (sample_page ["C"] None));
                   Ok (found "spotify:track:1")])
  = (Ok (JArr [titled "A"; titled "B"; titled "C"]),
     with_io (sample_world []) [Ok (found "spotify:track:1")]
       [(playlist_items_request "yt" "PL123" None,
         Ok (page_response (sample_page ["A"; "B"] (Some "p2"))));
        (playlist_items_request "yt" "PL123" (Some (JStr "p2")),
         Ok (page_response (sample_page ["C"] None)))]
       []).
Proof.
  refine (proj1 (get_tracks_all_pages "yt" "PL123" (sample_page ["A"; "B"] (Some "p2"))
                   [sample_page ["C"] None]
                   (sample_world [Ok (page_response (sample_page ["A"; "B"] (Some "p2")));
                                  Ok (page_response (sample_page ["C"] None));
                                  Ok (found "spotify:track:1")])
                   [Ok (found "spotify:track:1")] _ eq_refl eq_refl)).
  repeat constructor.
Defined.

(** A [nextPageToken] that Python counts as false, such as the empty
    string, is no cursor for the loop: the page that carries it is the
    last one fetched. *)
Example empty_cursor_ends_the_fetch :
  _youtube_get_tracks "yt" "PL123"
    (sample_world [Ok (page_response (sample_page ["A"] (Some "")));
                   Ok (page_response (sample_page ["B"] None))])
  = (Ok (JArr [titled "A"]),
     with_io (sample_world []) [Ok (page_response (sample_page ["B"] None))]
       [(playlist_items_request "yt" "PL123" None,
         Ok (page_response (sample_page ["A"] (Some ""))))]
       []).
Proof. reflexivity. Qed.

(** ** Appending in batches *)

Section Batches.

Lemma slice_hundred {A} (l : list A) (start : nat) :
  slice l start (if (length l <? start + 100)%nat then length l else start + 100)
  = take 100 (drop start l).
Proof.
  unfold slice. destruct (Nat.ltb_spec (length l) (start + 100)) as [Hlt|Hge].
  - rewrite !take_ge; [reflexivity | rewrite length_drop; lia | rewrite length_drop; lia].
  - f_equal. lia.
Qed.

Lemma hundreds_concat {A} (l : list A) (m : nat) :
  concat (map (fun start => take 100 (drop start l)) (map (fun k => k * 100) (seq 0 m)))
  = take (m * 100) l.
Proof.
  induction m as [|m IH]; [reflexivity|].
  rewrite seq_S, !map_app, concat_app, IH. cbn [map concat].
  rewrite app_nil_r, take_take_drop. f_equal. lia.
Qed.

Lemma range_bounds (n : nat) :
  n <= (n + 100 - 1) / 100 * 100 /\
  forall k, k < (n + 100 - 1) / 100 -> k * 100 < n.
Proof.
  pose proof (Nat.div_mod_eq (n + 100 - 1) 100) as Hdiv.
  pose proof (Nat.mod_upper_bound (n + 100 - 1) 100) as Hmod.
  split; [lia|]. intros k Hk. nia.
Qed.

Lemma batches_hundred (uris : list json) :
  batches uris
  = map (fun start => take 100 (drop start uris)) (py_range (length uris) 100).
Proof. unfold batches. apply map_ext. intros start. apply slice_hundred. Qed.

Lemma batches_concat (uris : list json) : concat (batches uris) = uris.
Proof.
  rewrite batches_hundred. unfold py_range. rewrite hundreds_concat.
  apply take_ge, range_bounds.
Qed.

Lemma batches_sizes (uris : list json) :
  Forall (fun chunk => 0 < length chunk <= 100) (batches uris).
Proof.
  rewrite batches_hundred. unfold py_range. rewrite !Forall_map.
  apply Forall_forall. intros k Hk. apply elem_of_seq in Hk.
  pose proof (proj2 (range_bounds (length uris)) k) as Hlt.
  cbn. rewrite length_take, length_drop. lia.
Qed.

Lemma for_in_map {A B} (g : A -> B) (body : B -> M unit) (l : list A) :
  for_in (map g l) body = for_in l (fun x => body (g x)).
Proof. induction l as [|x l IH]; cbn; [|rewrite IH]; reflexivity. Qed.

Lemma add_tracks_batches (token : string) (playlist : json) (uris : list json) :
  add_tracks token playlist uris
  = for_in (batches uris) (_spotify_add_to_playlist token playlist).
Proof. unfold add_tracks, batches. now rewrite for_in_map. Qed.

Lemma add_to_playlist_run (token : string) (playlist : json) (chunk : list json)
    (w : world) (answer : json) (rest : list (result json)) :
  responses w = Ok answer :: rest ->
  _spotify_add_to_playlist token playlist chunk w
  = (Ok tt,
     with_io w rest (exchanges w ++ [(add_request token playlist chunk, Ok answer)])
       (stdout w)).
Proof.
  intros Hw. unfold _spotify_add_to_playlist.
  now rewrite (bind_ok _ _ _ _ _ (url_open_run _ _ _ _ Hw)).
Qed.

Lemma add_each_batch (token : string) (playlist : json) (chunks : list (list json)) :
  forall (w : world) (answers : list json) (rest : list (result json)),
    responses w = map Ok answers ++ rest ->
    length answers = length chunks ->
    for_in chunks (_spotify_add_to_playlist token playlist) w
    = (Ok tt,
       with_io w rest
         (exchanges w ++ zip (map (add_request token playlist) chunks) (map Ok answers))
         (stdout w)).
Proof.
  induction chunks as [|chunk chunks IH]; intros w answers rest Hw Hlen.
  - destruct answers; [|discriminate]. cbn in *. rewrite app_nil_r, <- Hw.
    now rewrite with_io_same.
  - destruct answers as [|answer answers]; [discriminate|]. cbn in Hw, Hlen.
    cbn [for_in].
    rewrite (bind_ok _ _ _ _ _ (add_to_playlist_run _ _ _ _ _ _ Hw)).
    rewrite (IH _ answers rest); [| reflexivity | lia].
    unfold with_io. cbn. rewrite <- app_assoc. reflexivity.
Qed.

End Batches.

(** C2. The loop that appends the identifiers cuts them into [batches]:
    contiguous slices in the original order, whose concatenation is the
    whole list, each of at least one and at most a hundred identifiers;
    250 identifiers give slices of 100, 100 and 50, no identifier gives
    none. When the destination catalog answers each call, the loop makes
    exactly one append request per slice, in that order, and nothing
    else. *)
Theorem append_in_batches (token : string) (playlist : json) (uris : list json)
    (w : world) (answers : list json) (rest : list (result json)) :
  responses w = map Ok answers ++ rest ->
  length answers = length (batches uris) ->
  add_tracks token playlist uris w
  = (Ok tt,
     with_io w rest
       (exchanges w ++ zip (map (add_request token playlist) (batches uris)) (map Ok answers))
       (stdout w))
  /\ concat (batches uris) = uris
  /\ Forall (fun chunk => 0 < length chunk <= 100) (batches uris)
  /\ (length uris = 250 -> map length (batches uris) = [100; 100; 50])
  /\ (uris = [] -> batches uris = []).
Proof.
  intros Hw Hlen. repeat split.
  - rewrite add_tracks_batches. now apply add_each_batch.
  - apply batches_concat.
  - apply batches_sizes.
  - intros H250. rewrite batches_hundred, H250.
    change (py_range 250 100) with [0; 100; 200]. cbn [map].
    rewrite !length_take, !length_drop, H250. reflexivity.
  - intros ->. reflexivity.
Qed.

Lemma append_in_batches_witness :
  add_tracks "sp" (JStr "new") (sample_uris 250)
    (sample_world [Ok JNull; Ok JNull; Ok JNull; Ok (JStr "pending")])
  = (Ok tt,
     with_io (sample_world []) [Ok (JStr "pending")]
       ([] ++ zip (map (add_request "sp" (JStr "new")) (batches (sample_uris 250)))
                  (map Ok [JNull; JNull; JNull]))
       [])
  /\ map length (batches (sample_uris 250)) = [100; 100; 50].
Proof.
  destruct (append_in_batches "sp" (JStr "new") (sample_uris 250)
              (sample_world [Ok JNull; Ok JNull; Ok JNull; Ok (JStr "pending")])
              [JNull; JNull; JNull] [Ok (JStr "pending")] eq_refl eq_refl)
    as (Hrun & _ & _ & Hsizes & _).
  split; [exact Hrun | exact (Hsizes eq_refl)].
Defined.

(** ** What a run exchanges with the catalogs *)

Section Emits.

Lemma emits_conseq {A} (m : M A) (P Q : result A -> list exchange -> Prop) :
  emits m P -> (forall r X, P r X -> Q r X) -> emits m Q.
Proof.
  intros Hm HPQ w. destruct (Hm w) as (X & HX & HP). exists X. auto.
Qed.

Lemma emits_bind {A B} (m : M A) (f : A -> M B) (Q : result B -> list exchange -> Prop) :
  emits m (fun r X1 =>
             match r with
             | Ok a => emits (f a) (fun r' X2 => Q r' (X1 ++ X2))
             | Raise e => Q (Raise e) X1
             end) ->
  emits (m ≫= f) Q.
Proof.
  intros Hm w. destruct (Hm w) as (X1 & HX1 & HQ). rewrite bind_run.
  destruct (m w) as [[a|e] w']; cbn in HX1, HQ.
  - destruct (HQ w') as (X2 & HX2 & HQ2). exists (X1 ++ X2).
    rewrite HX2, HX1, app_assoc. auto.
  - exists X1. auto.
Qed.

(** A step that talks to no catalog. *)
Lemma emits_quiet {A} (m : M A) (Q : result A -> list exchange -> Prop) :
  (forall w, exchanges (snd (m w)) = exchanges w) ->
  (forall w, Q (fst (m w)) []) ->
  emits m Q.
Proof. intros Hm HQ w. exists []. rewrite app_nil_r. auto. Qed.

Lemma emits_ret {A} (a : A) (Q : result A -> list exchange -> Prop) :
  Q (Ok a) [] -> emits (mret a) Q.
Proof. intros HQ. apply emits_quiet; intros w; [reflexivity | exact HQ]. Qed.

Lemma emits_raise {A} (e : exn) (Q : result A -> list exchange -> Prop) :
  Q (Raise e) [] -> emits (raise e) Q.
Proof. intros HQ. apply emits_quiet; intros w; [reflexivity | exact HQ]. Qed.

Lemma emits_lift {A} (r : result A) (Q : result A -> list exchange -> Prop) :
  Q r [] -> emits (lift r) Q.
Proof. intros HQ. apply emits_quiet; intros w; [reflexivity | exact HQ]. Qed.

Lemma emits_write (o : output) (Q : result unit -> list exchange -> Prop) :
  Q (Ok tt) [] -> emits (sys_stdout_write o) Q.
Proof. intros HQ. apply emits_quiet; intros w; [reflexivity | exact HQ]. Qed.

Lemma emits_url_open (req : request) (Q : result json -> list exchange -> Prop) :
  (forall r, Q r [(req, r)]) -> emits (_url_open req) Q.
Proof. intros HQ w. eexists. split; [reflexivity | apply HQ]. Qed.

Lemma emits_get_token (name : string) (Q : result string -> list exchange -> Prop) :
  (forall r, Q r []) -> emits (_get_token name) Q.
Proof.
  intros HQ. apply emits_quiet; intros w; [|apply HQ].
  unfold _get_token. rewrite bind_run. cbn. destruct (environ w !! name); reflexivity.
Qed.

Lemma emits_terminal_size (Q : result nat -> list exchange -> Prop) :
  (forall r, Q r []) -> emits os_get_terminal_size Q.
Proof.
  intros HQ. apply emits_quiet; intros w; [|apply HQ].
  unfold os_get_terminal_size. destruct (terminal w); reflexivity.
Qed.

Lemma emits_count_pending (Q : result nat -> list exchange -> Prop) :
  (forall n, Q (Ok n) []) -> emits count_pending Q.
Proof. intros HQ. apply emits_quiet; intros w; [reflexivity | apply HQ]. Qed.

End Emits.

Section Phases.

Lemma emits_log (level color : string) (message : fstring)
    (Q : result unit -> list exchange -> Prop) :
  Q (Ok tt) [] -> emits (_log level color message) Q.
Proof. apply emits_write. Qed.

Lemma emits_playlist_name (token playlist_id : string) :
  emits (_youtube_get_playlist_name token playlist_id)
    (fun r X => exists resp, X = [(playlists_request token playlist_id, resp)] /\
                             r = resp ≫= first_title).
Proof.
  unfold _youtube_get_playlist_name. apply emits_bind, emits_url_open.
  intros [ret|e].
  - apply emits_lift. exists (Ok ret). split; reflexivity.
  - exists (Raise e). split; reflexivity.
Qed.

Lemma emits_while (token playlist_id : string) (pending : nat) :
  forall ret tracks,
    emits (_youtube_get_tracks_while (playlist_items_url token playlist_id) pending
             ret tracks)
      (fun _ X => Forall is_source X).
Proof.
  induction pending as [|pending IH]; intros ret tracks; rewrite while_unfold.
  - apply emits_bind, emits_lift. destruct (dict_get ret "nextPageToken"); [|constructor].
    destruct (truthy a); [|apply emits_ret; constructor].
    apply emits_bind, emits_lift. destruct (getitem ret "nextPageToken"); [|constructor].
    apply emits_bind, emits_url_open. intros [ret'|e].
    + apply emits_raise. repeat constructor.
    + repeat constructor.
  - apply emits_bind, emits_lift. destruct (dict_get ret "nextPageToken"); [|constructor].
    destruct (truthy a); [|apply emits_ret; constructor].
    apply emits_bind, emits_lift. destruct (getitem ret "nextPageToken"); [|constructor].
    apply emits_bind, emits_url_open. intros [ret'|e].
    + apply emits_bind, emits_lift.
      destruct (list_extend tracks (getitem ret' "items")); [|repeat constructor].
      eapply emits_conseq; [apply IH|]. cbv beta. intros _ X HX.
      repeat constructor. exact HX.
    + repeat constructor.
Qed.

Lemma emits_get_tracks (token playlist_id : string) :
  emits (_youtube_get_tracks token playlist_id) (fun _ X => Forall is_source X).
Proof.
  unfold _youtube_get_tracks. apply emits_bind, emits_url_open. intros [ret|e].
  - apply emits_bind, emits_lift. destruct (getitem ret "items"); [|repeat constructor].
    apply emits_bind, emits_count_pending. intros pending.
    eapply emits_conseq; [apply emits_while|]. cbv beta. intros _ X HX.
    repeat constructor. exact HX.
  - repeat constructor.
Qed.

Lemma emits_search_track (token : string) (track : json) :
  emits (_spotify_search_track token track)
    (fun r X => (X = [] /\ exists e, r = Raise e) \/
                exists title answer,
                  X = [(search_request token title, answer)] /\ r = answer ≫= top_result).
Proof.
  unfold _spotify_search_track. apply emits_bind, emits_lift.
  destruct (expect_str track) as [title|e]; [|left; eauto].
  apply emits_bind, emits_url_open. intros [ret|e].
  - apply emits_lift. right. exists title, (Ok ret). split; reflexivity.
  - right. exists title, (Raise e). split; reflexivity.
Qed.

Lemma searched_nil {A} (token : string) (r : result A) : searched token r [].
Proof. split; [constructor|]. intros req answer H. inversion H. Qed.

(** A search that gave an identifier, then a search phase. *)
Lemma searched_cons {A} (token title : string) (answer uri : json) (r : result A)
    (X : list exchange) :
  top_result answer = Ok uri -> searched token r X ->
  searched token r ((search_request token title, Ok answer) :: X).
Proof.
  intros Huri [Hall Hfail]. split.
  - constructor; [now exists title | exact Hall].
  - intros req answer' [[= -> ->]|Hin]%elem_of_cons; [now rewrite Huri|].
    now apply (Hfail req).
Qed.

(** A search that raised. *)
Lemma searched_last {A} (token title : string) (answer : result json) (e : exn) :
  answer ≫= top_result = Raise e ->
  searched (A:=A) token (Raise e) [(search_request token title, answer)].
Proof.
  intros Hraise. split.
  - constructor; [now exists title | constructor].
  - intros req answer' [= -> <-]%list_elem_of_singleton. cbn in Hraise. now rewrite Hraise.
Qed.

(** A phase that returned read an identifier from every answer. *)
Lemma searched_ok {A B} (token : string) (a : A) (r : result B) (X : list exchange) :
  searched token (Ok a) X -> searched token r X.
Proof.
  intros [Hall Hfail]. split; [exact Hall|].
  intros req answer Hin. specialize (Hfail req answer Hin).
  destruct (top_result answer); [exact I | discriminate].
Qed.

Lemma searched_raise {A B} (token : string) (e : exn) (X : list exchange) :
  searched (A:=A) token (Raise e) X -> searched (A:=B) token (Raise e) X.
Proof.
  intros [Hall Hfail]. split; [exact Hall|].
  intros req answer Hin. specialize (Hfail req answer Hin).
  destruct (top_result answer); [exact I | now injection Hfail as ->].
Qed.

Lemma emits_search_loop (token : string) (columns total : nat) (items : list json) :
  forall (i : nat) (base : option nat) (uris : list json),
    emits (_progress_bar_for columns total snippet_title (search_body token)
             i items base uris)
      (searched token).
Proof.
  induction items as [|item items IH]; intros i base uris; cbn [_progress_bar_for].
  - apply emits_ret, searched_nil.
  - unfold search_body at 1. apply emits_bind, emits_bind, emits_lift.
    destruct (snippet_title item) as [title|e]; [|apply searched_nil].
    apply emits_bind. eapply emits_conseq; [apply emits_search_track|]. cbv beta.
    intros r X [[-> [e ->]]|(title' & answer & -> & ->)]; [apply searched_nil|].
    destruct (answer ≫= top_result) as [uri|e] eqn:Hresult;
      [|now apply searched_last].
    destruct answer as [answer|]; [|discriminate]. cbn in Hresult.
    apply emits_ret. cbn [app].
    apply emits_bind, emits_lift.
    destruct (Ok title ≫= expect_str) as [message|e'];
      [|apply (searched_cons _ _ _ _ _ _ Hresult), searched_nil].
    apply emits_bind, emits_write.
    eapply emits_conseq; [apply IH|]. cbv beta. intros r X HX. cbn [app].
    now apply (searched_cons _ _ _ _ _ _ Hresult).
Qed.

Lemma emits_search_tracks (token : string) (tracks : json) :
  emits (search_tracks token tracks) (searched token).
Proof.
  unfold search_tracks, _progress_bar, _info.
  apply emits_bind, emits_log. apply emits_bind, emits_lift.
  destruct (py_len tracks) as [total|]; [|apply searched_nil].
  apply emits_bind, emits_terminal_size. intros [columns|]; [|apply searched_nil].
  apply emits_bind, emits_lift.
  destruct (py_iter tracks) as [items|]; [|apply searched_nil].
  apply emits_bind. eapply emits_conseq; [apply emits_search_loop|]. cbv beta.
  intros [[base uris]|e] X HX.
  - destruct base as [i|].
    + apply emits_bind, emits_write, emits_ret. rewrite !app_nil_r.
      exact (searched_ok _ _ _ _ HX).
    + apply emits_raise. rewrite !app_nil_r. exact (searched_ok _ _ _ _ HX).
  - cbn [app]. exact (searched_raise _ _ _ HX).
Qed.

Lemma emits_create_playlist (token : string) (name : json) :
  emits (_spotify_create_playlist token name)
    (fun _ X => Forall (fun x => fst x = me_request token \/
                                 exists user_id, fst x = create_request token user_id name)
                  X).
Proof.
  unfold _spotify_create_playlist. apply emits_bind, emits_url_open. intros [user|e].
  - apply emits_bind, emits_lift.
    destruct (getitem user "id") as [user_id|];
      [|apply Forall_cons; split; [now left | constructor]].
    apply emits_bind, emits_url_open.
    assert (Hboth : forall r r',
               Forall (fun x : exchange => fst x = me_request token \/
                                exists user_id, fst x = create_request token user_id name)
                 [(me_request token, r); (create_request token user_id name, r')]).
    { intros r r'. apply Forall_cons. split; [now left|].
      apply Forall_cons. split; [right; now exists user_id | constructor]. }
    intros [ret|e]; [apply emits_lift|]; apply Hboth.
  - apply Forall_cons; split; [now left | constructor].
Qed.

Lemma emits_add_tracks (token : string) (playlist : json) (uris : list json) :
  emits (add_tracks token playlist uris)
    (fun _ X => Forall (fun x => exists chunk, fst x = add_request token playlist chunk) X).
Proof.
  rewrite add_tracks_batches. induction (batches uris) as [|chunk chunks IH]; cbn [for_in].
  - apply emits_ret. constructor.
  - apply emits_bind. unfold _spotify_add_to_playlist at 1.
    apply emits_bind, emits_url_open. intros [ret|e].
    + apply emits_ret. cbn [app].
      eapply emits_conseq; [apply IH|]. cbv beta. intros _ X HX.
      constructor; [now exists chunk | exact HX].
    + repeat constructor. now exists chunk.
Qed.

End Phases.

(** ** A search without results *)

Section ZeroResults.

Lemma zero_results_raise (answer : json) :
  zero_results answer -> top_result answer = Raise IndexError.
Proof.
  intros (tracks & Htracks & Hitems). unfold top_result.
  rewrite Htracks. cbn -[getitem]. rewrite Hitems. reflexivity.
Qed.

Lemma found_nothing_app (X Y : list exchange) :
  found_nothing (X ++ Y) <-> found_nothing X \/ found_nothing Y.
Proof.
  unfold found_nothing. split.
  - intros (token & title & answer & [Hin|Hin]%elem_of_app & Hzero); [left|right]; eauto.
  - intros [(token & title & answer & Hin & Hzero)|(token & title & answer & Hin & Hzero)];
      exists token, title, answer; (split; [apply elem_of_app; auto | exact Hzero]).
Qed.

Lemma found_nothing_nil : ~ found_nothing [].
Proof. intros (token & title & answer & Hin & _). inversion Hin. Qed.

(** No exchange of the given kind is a search. *)
Lemma not_found_nothing (P : exchange -> Prop) (X : list exchange) :
  (forall x token title, P x -> fst x <> search_request token title) ->
  Forall P X -> ~ found_nothing X.
Proof.
  intros HP HX (token & title & answer & Hin & _).
  rewrite Forall_forall in HX. exact (HP _ token title (HX _ Hin) eq_refl).
Qed.

Lemma source_no_write (x : exchange) : is_source x -> no_write x.
Proof.
  unfold is_source. intros Hx. split.
  - intros [[token H]|(token & user_id & name & H)]; rewrite H in Hx; discriminate.
  - intros (token & playlist & uris & H). rewrite H in Hx. discriminate.
Qed.

Lemma search_no_write (token : string) (x : exchange) : is_search token x -> no_write x.
Proof.
  intros [title Hx]. split.
  - intros [[token' H]|(token' & user_id & name & H)]; rewrite H in Hx; discriminate.
  - intros (token' & playlist & uris & H). rewrite H in Hx. discriminate.
Qed.

Lemma source_quiet (X : list exchange) :
  Forall is_source X -> ~ found_nothing X /\ Forall no_write X.
Proof.
  intros HX. split.
  - apply (not_found_nothing is_source); [|exact HX].
    intros x token title Hx H. unfold is_source in Hx. rewrite H in Hx. discriminate.
  - eapply Forall_impl; [exact HX | exact source_no_write].
Qed.

Lemma searched_no_write {A} (token : string) (r : result A) (X : list exchange) :
  searched token r X -> Forall no_write X.
Proof. intros [HX _]. eapply Forall_impl; [exact HX | apply search_no_write]. Qed.

Lemma searched_found_nothing {A} (token : string) (r : result A) (X : list exchange) :
  searched token r X -> found_nothing X -> r = Raise IndexError.
Proof.
  intros [_ Hfail] (token' & title & answer & Hin & Hzero).
  specialize (Hfail _ _ Hin). now rewrite (zero_results_raise _ Hzero) in Hfail.
Qed.

Lemma create_quiet (token : string) (name : json) (X : list exchange) :
  Forall (fun x : exchange =>
            fst x = me_request token \/
            exists user_id, fst x = create_request token user_id name) X ->
  ~ found_nothing X.
Proof.
  apply not_found_nothing. intros x token' title [H|[user_id H]] Hx;
    rewrite H in Hx; discriminate.
Qed.

Lemma add_quiet (token : string) (playlist : json) (X : list exchange) :
  Forall (fun x : exchange => exists chunk, fst x = add_request token playlist chunk) X ->
  ~ found_nothing X.
Proof.
  apply not_found_nothing. intros x token' title [chunk H] Hx.
  rewrite H in Hx. discriminate.
Qed.

End ZeroResults.

(** Goals about exchanges with the source catalog only. *)
Ltac source_only :=
  cbn [app]; rewrite ?app_nil_r;
  repeat (apply Forall_app; split);
  repeat first [ assumption | apply Forall_nil_2 | apply Forall_cons; split; [reflexivity|] ].

Ltac no_search_yet :=
  let H := fresh in
  intros H; exfalso; revert H; apply source_quiet; source_only.

(** C3. In every run of [_main], if some search among its exchanges comes
    back with an empty list of results, the run raises [IndexError], and
    none of its exchanges is part of creating the playlist or an append to
    it. *)
Theorem zero_results_abort (args : Namespace.t) (w : world) :
  exists X, exchanges (snd (_main args w)) = exchanges w ++ X /\
            (found_nothing X ->
             fst (_main args w) = Raise IndexError /\ Forall no_write X).
Proof.
  revert w.
  change (emits (_main args)
            (fun r X => found_nothing X -> r = Raise IndexError /\ Forall no_write X)).
  unfold _main, _debug, _info.
  apply emits_bind, emits_get_token. intros [yt_token|e]; [|no_search_yet].
  apply emits_bind, emits_get_token. intros [sp_token|e]; [|no_search_yet].
  apply emits_bind, emits_log.
  apply emits_bind, emits_lift.
  destruct (_youtube_get_playlist_id _) as [youtube_playlist|e]; [|no_search_yet].
  apply emits_bind. eapply emits_conseq; [apply emits_playlist_name|]. cbv beta.
  intros r X1 (resp & -> & ->).
  destruct (resp ≫= first_title) as [name|e]; [|no_search_yet].
  apply emits_bind, emits_log.
  apply emits_bind. eapply emits_conseq; [apply emits_get_tracks|]. cbv beta.
  intros [tracks|e] X2 HX2; [|no_search_yet].
  apply emits_bind, emits_lift.
  destruct (py_len tracks) as [found|e]; [|no_search_yet].
  apply emits_bind, emits_log.
  apply emits_bind. eapply emits_conseq; [apply emits_search_tracks|]. cbv beta.
  assert (Hsource : Forall is_source
                      ((playlists_request yt_token youtube_playlist, resp) :: X2))
    by source_only.
  intros [uris|e] X3 HX3.
  - (* every search gave an identifier: no search found nothing *)
    assert (Hquiet : forall (r : result Z) (X : list exchange),
               ~ found_nothing X ->
               found_nothing
                 ([] ++ [] ++ [] ++ [] ++
                  [(playlists_request yt_token youtube_playlist, resp)] ++ [] ++
                  X2 ++ [] ++ [] ++ X3 ++ X) ->
               r = Raise IndexError /\
               Forall no_write
                 ([] ++ [] ++ [] ++ [] ++
                  [(playlists_request yt_token youtube_playlist, resp)] ++ [] ++
                  X2 ++ [] ++ [] ++ X3 ++ X)).
    { intros r X HX Hfound. exfalso. cbn [app] in Hfound.
      change ((playlists_request yt_token youtube_playlist, resp) :: X2 ++ X3 ++ X)
        with (((playlists_request yt_token youtube_playlist, resp) :: X2) ++ X3 ++ X)
        in Hfound.
      apply found_nothing_app in Hfound as [Hfound|Hfound];
        [now apply (source_quiet _ Hsource)|].
      apply found_nothing_app in Hfound as [Hfound|Hfound]; [|now apply HX].
      pose proof (searched_found_nothing _ _ _ HX3 Hfound). discriminate. }
    apply emits_bind. eapply emits_conseq; [apply emits_create_playlist|]. cbv beta.
    intros [spotify_playlist|e] X4 HX4;
      [|apply Hquiet; now apply create_quiet in HX4].
    apply emits_bind, emits_log.
    apply emits_bind. eapply emits_conseq; [apply emits_add_tracks|]. cbv beta.
    assert (Hwrites : forall X5,
               Forall (fun x : exchange =>
                         exists chunk, fst x = add_request sp_token spotify_playlist chunk)
                 X5 ->
               ~ found_nothing (X4 ++ X5)).
    { intros X5 HX5 [H|H]%found_nothing_app;
        [now apply create_quiet in HX4 | now apply add_quiet in HX5]. }
    intros [[]|e] X5 HX5.
    + apply emits_bind, emits_log. apply emits_bind, emits_log. apply emits_ret.
      cbn [app]. rewrite ?app_nil_r. apply (Hquiet (Ok 0%Z) (X4 ++ X5)), Hwrites, HX5.
    + cbn [app]. apply (Hquiet (Raise e) (X4 ++ X5)), Hwrites, HX5.
  - (* a search raised: the run ends there *)
    cbn [app]. intros Hfound. split.
    + change ((playlists_request yt_token youtube_playlist, resp) :: X2 ++ X3)
        with (((playlists_request yt_token youtube_playlist, resp) :: X2) ++ X3)
        in Hfound.
      apply found_nothing_app in Hfound as [Hfound|Hfound];
        [now apply (source_quiet _ Hsource) in Hfound|].
      pose proof (searched_found_nothing _ _ _ HX3 Hfound) as [= ->]. reflexivity.
    + change (Forall no_write
                (((playlists_request yt_token youtube_playlist, resp) :: X2) ++ X3)).
      apply Forall_app. split;
        [apply (source_quiet _ Hsource) | apply (searched_no_write _ _ _ HX3)].
Qed.

Lemma zero_results_abort_witness :
  found_nothing (exchanges (snd (_main sample_args run_without_match))) /\
  fst (_main sample_args run_without_match) = Raise IndexError /\
  Forall no_write (exchanges (snd (_main sample_args run_without_match))).
Proof.
  assert (Hfound : found_nothing (exchanges (snd (_main sample_args run_without_match)))).
  { exists "sp", "B", no_match. split.
    - apply list_elem_of_In. vm_compute. do 3 right. left. reflexivity.
    - exists (JObj [("items", JArr [])]). split; reflexivity. }
  split; [exact Hfound|].
  destruct (zero_results_abort sample_args run_without_match) as (X & HX & HQ).
  change (exchanges run_without_match ++ X) with X in HX. rewrite HX in Hfound |- *.
  exact (HQ Hfound).
Defined.

(** ** The name of the destination playlist *)

Section DestinationName.

Lemma name_or_destination (override : option string) (display : json) :
  name_or override display = destination_name override display.
Proof.
  destruct override as [s|]; [|reflexivity]. unfold name_or, destination_name, truthy.
  destruct (String.eqb_spec s ""), (decide (s = "")); cbn; congruence.
Qed.

(** No exchange of the given kind asks to create a playlist. *)
Lemma no_create_of (P : exchange -> Prop) (X : list exchange) :
  (forall x token user_id created, P x -> fst x <> create_request token user_id created) ->
  Forall P X -> no_create X.
Proof.
  intros HP HX token user_id created resp Hin.
  rewrite Forall_forall in HX. exact (HP _ token user_id created (HX _ Hin) eq_refl).
Qed.

Lemma no_create_app (X Y : list exchange) :
  no_create X -> no_create Y -> no_create (X ++ Y).
Proof.
  intros HX HY token user_id created resp [Hin|Hin]%elem_of_app;
    [exact (HX _ _ _ _ Hin) | exact (HY _ _ _ _ Hin)].
Qed.

Lemma no_create_source (X : list exchange) : Forall is_source X -> no_create X.
Proof.
  apply no_create_of. intros x token user_id created Hx H.
  unfold is_source in Hx. rewrite H in Hx. discriminate.
Qed.

Lemma no_create_searched {A} (token : string) (r : result A) (X : list exchange) :
  searched token r X -> no_create X.
Proof.
  intros [HX _]. revert HX. apply no_create_of.
  intros x token' user_id created [title Hx] H. rewrite H in Hx. discriminate.
Qed.

Lemma no_create_add (token : string) (playlist : json) (X : list exchange) :
  Forall (fun x : exchange => exists chunk, fst x = add_request token playlist chunk) X ->
  no_create X.
Proof.
  apply no_create_of. intros x token' user_id created [chunk Hx] H.
  rewrite H in Hx. discriminate.
Qed.

(** The requests of [_spotify_create_playlist] that ask to create a
    playlist carry the name it was called with. *)
Lemma create_carries_name (token : string) (name : json) (X : list exchange) :
  Forall (fun x : exchange =>
            fst x = me_request token \/
            exists user_id, fst x = create_request token user_id name) X ->
  forall token' user_id created resp,
    (create_request token' user_id created, resp) ∈ X -> created = name.
Proof.
  intros HX token' user_id created resp Hin. rewrite Forall_forall in HX.
  destruct (HX _ Hin) as [H|[user_id' H]]; cbn in H; [discriminate|].
  now injection H.
Qed.

End DestinationName.

Ltac no_create_yet :=
  let H := fresh in
  intros ? ? ? ? H; exfalso; revert H; apply no_create_source; source_only.

(** C7, as the code has it. In every run of [_main], a request that asks
    to create the playlist comes after the request for the source playlist,
    and the name it carries is the override given with [--name] when that
    is a non-empty string, and else (no override, or the empty string) the
    title read from the answer of the source catalog. *)
Theorem created_with_destination_name (args : Namespace.t) (w : world) :
  exists X, exchanges (snd (_main args w)) = exchanges w ++ X /\
    forall token user_id created resp,
      (create_request token user_id created, resp) ∈ X ->
      exists yt_token playlist_id ret display rest,
        X = (playlists_request yt_token playlist_id, Ok ret) :: rest /\
        first_title ret = Ok display /\
        created = destination_name (Namespace.name args) display.
Proof.
  revert w.
  change (emits (_main args)
            (fun _ X =>
               forall token user_id created resp,
                 (create_request token user_id created, resp) ∈ X ->
                 exists yt_token playlist_id ret display rest,
                   X = (playlists_request yt_token playlist_id, Ok ret) :: rest /\
                   first_title ret = Ok display /\
                   created = destination_name (Namespace.name args) display)).
  unfold _main, _debug, _info.
  apply emits_bind, emits_get_token. intros [yt_token|e]; [|no_create_yet].
  apply emits_bind, emits_get_token. intros [sp_token|e]; [|no_create_yet].
  apply emits_bind, emits_log.
  apply emits_bind, emits_lift.
  destruct (_youtube_get_playlist_id _) as [youtube_playlist|e]; [|no_create_yet].
  apply emits_bind. eapply emits_conseq; [apply emits_playlist_name|]. cbv beta.
  intros r X1 (resp & -> & ->).
  destruct (resp ≫= first_title) as [display|e] eqn:Hdisplay; [|no_create_yet].
  destruct resp as [ret|]; [|discriminate]. cbn in Hdisplay.
  apply emits_bind, emits_log.
  apply emits_bind. eapply emits_conseq; [apply emits_get_tracks|]. cbv beta.
  intros [tracks|e] X2 HX2; [|no_create_yet].
  apply emits_bind, emits_lift.
  destruct (py_len tracks) as [found|e]; [|no_create_yet].
  apply emits_bind, emits_log.
  apply emits_bind. eapply emits_conseq; [apply emits_search_tracks|]. cbv beta.
  assert (Hsource : no_create ((playlists_request yt_token youtube_playlist, Ok ret) :: X2))
    by (apply no_create_source; source_only).
  intros [uris|e] X3 HX3.
  - assert (Hnamed : forall X4 X5,
               Forall (fun x : exchange =>
                         fst x = me_request sp_token \/
                         exists user_id,
                           fst x = create_request sp_token user_id
                                     (name_or (Namespace.name args) display)) X4 ->
               no_create X5 ->
               forall token user_id created resp,
                 (create_request token user_id created, resp)
                 ∈ ((playlists_request yt_token youtube_playlist, Ok ret) :: X2)
                   ++ X3 ++ X4 ++ X5 ->
                 exists yt_token' playlist_id ret' display' rest,
                   ((playlists_request yt_token youtube_playlist, Ok ret) :: X2)
                   ++ X3 ++ X4 ++ X5
                   = (playlists_request yt_token' playlist_id, Ok ret') :: rest /\
                   first_title ret' = Ok display' /\
                   created = destination_name (Namespace.name args) display').
    { intros X4 X5 HX4 HX5 token user_id created resp Hin.
      exists yt_token, youtube_playlist, ret, display. eexists.
      split; [reflexivity|]. split; [exact Hdisplay|].
      apply elem_of_app in Hin as [Hin|Hin]; [now apply Hsource in Hin|].
      apply elem_of_app in Hin as [Hin|Hin];
        [now apply (no_create_searched _ _ _ HX3) in Hin|].
      apply elem_of_app in Hin as [Hin|Hin]; [|now apply HX5 in Hin].
      rewrite <- name_or_destination. exact (create_carries_name _ _ _ HX4 _ _ _ _ Hin). }
    apply emits_bind. eapply emits_conseq; [apply emits_create_playlist|]. cbv beta.
    intros [spotify_playlist|e] X4 HX4.
    + apply emits_bind, emits_log.
      apply emits_bind. eapply emits_conseq; [apply emits_add_tracks|]. cbv beta.
      intros [[]|e] X5 HX5.
      * apply emits_bind, emits_log. apply emits_bind, emits_log. apply emits_ret.
        cbn [app]. rewrite ?app_nil_r.
        apply (Hnamed X4 X5 HX4), (no_create_add _ _ _ HX5).
      * cbn [app]. apply (Hnamed X4 X5 HX4), (no_create_add _ _ _ HX5).
    + cbn [app]. rewrite <- (app_nil_r X4).
      apply (Hnamed X4 [] HX4). intros ? ? ? ? H. inversion H.
  - cbn [app]. intros token user_id created resp Hin. exfalso. revert Hin.
    apply (no_create_app _ _ Hsource (no_create_searched _ _ _ HX3)).
Qed.

Lemma created_with_destination_name_witness :
  (create_request "sp" (JStr "me") (JStr "My Mix"), Ok (JObj [("id", JStr "new")]))
  ∈ exchanges (snd (_main sample_args run_to_the_end)) /\
  exists yt_token playlist_id ret display rest,
    exchanges (snd (_main sample_args run_to_the_end))
    = (playlists_request yt_token playlist_id, Ok ret) :: rest /\
    first_title ret = Ok display /\
    JStr "My Mix" = destination_name (Namespace.name sample_args) display.
Proof.
  assert (Hin : (create_request "sp" (JStr "me") (JStr "My Mix"),
                 Ok (JObj [("id", JStr "new")]))
                ∈ exchanges (snd (_main sample_args run_to_the_end))).
  { apply list_elem_of_In. vm_compute. do 5 right. left. reflexivity. }
  split; [exact Hin|].
  destruct (created_with_destination_name sample_args run_to_the_end) as (X & HX & HQ).
  change (exchanges run_to_the_end ++ X) with X in HX. rewrite HX in Hin |- *.
  exact (HQ _ _ _ _ Hin).
Defined.

(** C7 as stated fails for the empty string given as override: the
    playlist is created with the title of the source playlist. *)
Lemma empty_override_is_ignored :
  ~ created_as_claimed args_with_empty_name run_to_the_end.
Proof.
  intros (X & HX & HQ).
  change (exchanges run_to_the_end ++ X) with X in HX.
  assert (Hin : (create_request "sp" (JStr "me") (JStr "My Mix"),
                 Ok (JObj [("id", JStr "new")])) ∈ X).
  { rewrite <- HX. apply list_elem_of_In. vm_compute. do 5 right. left. reflexivity. }
  destruct (HQ _ _ _ _ Hin) as (yt_token & playlist_id & ret & display & rest & HXeq & _ & Hname).
  discriminate Hname.
Qed.

(** ** The search phase *)

Section SearchPhase.

Variable sp_token : string.

Lemma write_run (o : output) (w : world) :
  sys_stdout_write o w = (Ok tt, with_io w (responses w) (exchanges w) (stdout w ++ [o])).
Proof. reflexivity. Qed.

Lemma search_track_run (title : string) (answer : json) (w : world)
    (rest : list (result json)) :
  responses w = Ok answer :: rest ->
  _spotify_search_track sp_token (JStr title) w
  = (top_result answer,
     with_io w rest (exchanges w ++ [(search_request sp_token title, Ok answer)])
       (stdout w)).
Proof.
  intros Hw. unfold _spotify_search_track. rewrite lift_bind. cbn [expect_str].
  now rewrite (bind_ok _ _ _ _ _ (url_open_run _ _ _ _ Hw)).
Qed.

Lemma search_body_run (track : json) (title : string) (answer uri : json)
    (uris : list json) (w : world) (rest : list (result json)) :
  has_title track title -> has_top_result answer uri ->
  responses w = Ok answer :: rest ->
  search_body sp_token track uris w
  = (Ok (uris ++ [uri]),
     with_io w rest (exchanges w ++ [(search_request sp_token title, Ok answer)])
       (stdout w)).
Proof.
  intros Htitle Huri Hw. unfold search_body. rewrite lift_bind, Htitle.
  rewrite bind_run, (search_track_run _ _ _ _ Hw), Huri. reflexivity.
Qed.

Lemma search_loop_run (columns total : nat) (tracks : list json) (titles : list string) :
  Forall2 has_title tracks titles ->
  forall (answers uris : list json),
    Forall2 has_top_result answers uris ->
    length answers = length tracks ->
    forall (i : nat) (base : option nat) (acc : list json) (w : world)
           (rest : list (result json)),
      responses w = map Ok answers ++ rest ->
      _progress_bar_for columns total snippet_title (search_body sp_token)
        i tracks base acc w
      = (Ok (last_step i base tracks, acc ++ uris),
         with_io w rest
           (exchanges w ++ zip (map (search_request sp_token) titles) (map Ok answers))
           (stdout w ++ progress_output columns total i titles)).
Proof.
  induction 1 as [|track title tracks titles Htitle Htitles IH];
    intros answers uris Huris Hlen i base acc w rest Hw.
  - destruct answers; [|discriminate]. inversion Huris; subst. cbn in *.
    rewrite !app_nil_r, <- Hw. now rewrite with_io_same.
  - destruct Huris as [|answer uri answers uris Huri Huris]; [discriminate|].
    cbn in Hw, Hlen. cbn [_progress_bar_for].
    rewrite (bind_ok _ _ _ _ _ (search_body_run _ _ _ _ acc _ _ Htitle Huri Hw)).
    rewrite lift_bind, Htitle. cbn [mbind result_bind expect_str].
    rewrite bind_run, write_run.
    assert (Hlen' : length answers = length tracks) by lia.
    erewrite (IH answers uris Huris Hlen' (S i) (Some i) (acc ++ [uri])) by reflexivity.
    unfold with_io, last_step. cbn. rewrite <- !app_assoc. cbn. repeat f_equal.
    destruct tracks; cbn; f_equal; lia.
Qed.

End SearchPhase.

(** C4. The tracks fetched are a non-empty list, each with a title; the
    destination catalog answers the searches, and an identifier can be
    read from each answer; stdout is a terminal. Then the search phase
    makes one search per track, in the order of the tracks and with the
    title of the track, and returns the identifiers read from the answers
    in that order: as many identifiers as tracks. *)
Theorem search_tracks_in_order (sp_token : string) (columns : nat) (tracks : list json)
    (titles : list string) (answers uris : list json) (w : world)
    (rest : list (result json)) :
  tracks <> [] ->
  terminal w = Some columns ->
  Forall2 has_title tracks titles ->
  Forall2 has_top_result answers uris ->
  length answers = length tracks ->
  responses w = map Ok answers ++ rest ->
  search_tracks sp_token (JArr tracks) w
  = (Ok uris,
     with_io w rest
       (exchanges w ++ zip (map (search_request sp_token) titles) (map Ok answers))
       (stdout w ++ [searching]
          ++ progress_output columns (length tracks) 1 titles
          ++ [ProgressEnd columns (length tracks) (length tracks)]))
  /\ length uris = length tracks.
Proof.
  intros Hne Hterminal Htitles Huris Hlen Hw.
  split; [|now rewrite <- (Forall2_length _ _ _ Huris)].
  unfold search_tracks, _progress_bar, _info, _log.
  rewrite bind_run, write_run, lift_bind. cbn [py_len].
  rewrite bind_run. unfold os_get_terminal_size at 1. cbn [terminal with_io].
  rewrite Hterminal, lift_bind. cbn [py_iter].
  rewrite bind_run.
  erewrite (search_loop_run sp_token columns (length tracks) tracks titles Htitles
              answers uris Huris Hlen 1 None []) by exact Hw.
  destruct tracks as [|track tracks]; [congruence|].
  unfold last_step. rewrite bind_run, write_run.
  unfold with_io, searching. cbn. rewrite <- !app_assoc. reflexivity.
Qed.

Lemma search_tracks_in_order_witness :
  search_tracks "sp" (JArr [titled "A"; titled "B"])
    (sample_world [Ok (found "spotify:track:1"); Ok (found "spotify:track:2");
                   Ok (JObj [("id", JStr "me")])])
  = (Ok [JStr "spotify:track:1"; JStr "spotify:track:2"],
     with_io (sample_world []) [Ok (JObj [("id", JStr "me")])]
       [(search_request "sp" "A", Ok (found "spotify:track:1"));
        (search_request "sp" "B", Ok (found "spotify:track:2"))]
       [searching; Progress 80 1 2 "A"; Progress 80 2 2 "B"; ProgressEnd 80 2 2]).
Proof.
  refine (proj1 (search_tracks_in_order "sp" 80 [titled "A"; titled "B"] ["A"; "B"]
                   [found "spotify:track:1"; found "spotify:track:2"]
                   [JStr "spotify:track:1"; JStr "spotify:track:2"]
                   (sample_world [Ok (found "spotify:track:1"); Ok (found "spotify:track:2");
                                  Ok (JObj [("id", JStr "me")])])
                   [Ok (JObj [("id", JStr "me")])] _ eq_refl _ _ eq_refl eq_refl)).
  - discriminate.
  - repeat constructor.
  - repeat constructor.
Defined.

(** ** The progress bar *)

(** C8. On the empty sequence [_progress_bar] does not behave like the
    plain iteration: the plain [for] statement ends at once and leaves its
    state as it is, while the generator raises, [UnboundLocalError] at
    [msg = base] when stdout is a terminal ([base] is only assigned in the
    loop) and [OSError] from [os.get_terminal_size] when it is not. *)
Theorem progress_bar_raises_on_empty {A} (get_message : json -> result json)
    (body : json -> A -> M A) (acc : A) (w : world) :
  _progress_bar (JArr []) get_message body acc w
  = (Raise (match terminal w with
            | Some _ => UnboundLocalError
            | None => OSError
            end), w)
  /\ for_each [] body acc w = (Ok acc, w).
Proof.
  split; [|reflexivity].
  unfold _progress_bar. rewrite lift_bind. cbn [py_len].
  rewrite bind_run. unfold os_get_terminal_size.
  destruct (terminal w); reflexivity.
Qed.

(** The run on a source playlist without tracks: it ends with
    [UnboundLocalError] after the two requests to the source catalog, and
    no playlist is created. *)
Example empty_playlist_run :
  _main sample_args empty_playlist
  = (Raise UnboundLocalError,
     with_io empty_playlist
       [Ok (JObj [("id", JStr "me")]); Ok (JObj [("id", JStr "new")])]
       [(playlists_request "yt" "PL123", Ok (JObj [("items", JArr [titled "My Mix"])]));
        (playlist_items_request "yt" "PL123" None, Ok (JObj [("items", JArr [])]))]
       [Line "DEBUG" (ESC +:+ "[35;1m") [Lit "Tokens found"];
        Line "DEBUG" (ESC +:+ "[35;1m")
          [Lit "Youtube playlist found: "; Repr (JStr "My Mix")];
        Line "INFO" (ESC +:+ "[34;1m")
          [Lit "Found "; Str (JNum 0); Lit " tracks in the playlist"];
        searching]).
Proof. vm_compute. reflexivity. Qed.

(** The whole run of the scenario of the specification: the playlist "My
    Mix" with three tracks, created under its own name and filled with one
    append. *)
Example my_mix_run :
  let w := sample_world
             [Ok (JObj [("items", JArr [titled "My Mix"])]);
              Ok (page_response (sample_page ["A"; "B"; "C"] None));
              Ok (found "spotify:track:1"); Ok (found "spotify:track:2");
              Ok (found "spotify:track:3");
              Ok (JObj [("id", JStr "me")]); Ok (JObj [("id", JStr "new")]);
              Ok (JObj [("snapshot_id", JStr "s1")])] in
  fst (_main sample_args w) = Ok 0%Z /\
  map fst (exchanges (snd (_main sample_args w)))
  = [playlists_request "yt" "PL123";
     playlist_items_request "yt" "PL123" None;
     search_request "sp" "A"; search_request "sp" "B"; search_request "sp" "C";
     me_request "sp";
     create_request "sp" (JStr "me") (JStr "My Mix");
     add_request "sp" (JStr "new")
       [JStr "spotify:track:1"; JStr "spotify:track:2"; JStr "spotify:track:3"]].
Proof. vm_compute. split; reflexivity. Qed.

Section ProgressBarAgrees.

Variable sp_token : string.

Lemma same_io_refl (w : world) : same_io w w.
Proof. repeat split. Qed.

(** The body of the search loop neither reads nor writes stdout. *)
Lemma search_body_same_io (track : json) (uris : list json) (w w' : world) :
  same_io w w' ->
  fst (search_body sp_token track uris w) = fst (search_body sp_token track uris w') /\
  same_io (snd (search_body sp_token track uris w))
          (snd (search_body sp_token track uris w')).
Proof.
  intros (Henv & Hterm & Hresp & Hexch). unfold search_body.
  rewrite !lift_bind. destruct (snippet_title track) as [title|e]; [|now repeat split].
  rewrite !bind_run. unfold _spotify_search_track. rewrite !lift_bind.
  destruct (expect_str title) as [s|e]; [|now repeat split].
  rewrite !bind_run. unfold _url_open. rewrite Hresp, Hexch.
  destruct (responses w') as [|[answer|e] pending]; cbn.
  - repeat split; assumption.
  - unfold lift.
    match goal with
    | |- context [match ?r with Ok _ => _ | Raise _ => _ end] => destruct r
    end; cbn; repeat split; assumption.
  - repeat split; assumption.
Qed.

(** A track for which the body succeeds has a title that is a string. *)
Lemma search_body_title (track : json) (uris uris' : list json) (w w' : world) :
  search_body sp_token track uris w = (Ok uris', w') ->
  exists title, snippet_title track = Ok (JStr title).
Proof.
  unfold search_body. rewrite lift_bind.
  destruct (snippet_title track) as [title|e]; [|discriminate].
  rewrite bind_run. unfold _spotify_search_track. rewrite lift_bind.
  destruct title; try discriminate. eauto.
Qed.

Lemma progress_loop_agrees (columns total : nat) (items : list json) :
  forall (i : nat) (base : option nat) (uris : list json) (w w' : world),
    same_io w w' ->
    match fst (_progress_bar_for columns total snippet_title (search_body sp_token)
                 i items base uris w) with
    | Ok (_, found) => Ok found
    | Raise e => Raise e
    end = fst (for_each items (search_body sp_token) uris w') /\
    same_io (snd (_progress_bar_for columns total snippet_title (search_body sp_token)
                    i items base uris w))
            (snd (for_each items (search_body sp_token) uris w')).
Proof.
  induction items as [|item items IH]; intros i base uris w w' Hsame.
  - split; [reflexivity | exact Hsame].
  - cbn [_progress_bar_for for_each]. rewrite !bind_run.
    destruct (search_body_same_io item uris w w' Hsame) as [Hfst Hsnd].
    destruct (search_body sp_token item uris w) as [[found|e] w1] eqn:Hbody;
      destruct (search_body sp_token item uris w') as [r' w1']; cbn in Hfst, Hsnd;
      subst r'; [|split; [reflexivity | exact Hsnd]].
    destruct (search_body_title _ _ _ _ _ Hbody) as [title Htitle].
    rewrite lift_bind, Htitle. cbn [mbind result_bind expect_str].
    rewrite bind_run, write_run. apply IH.
    destruct Hsnd as (? & ? & ? & ?). repeat split; assumption.
Qed.

(** After a loop that went over some item, or started with the bar drawn,
    the bar has been drawn. *)
Lemma progress_loop_base {A} (columns total : nat) (get_message : json -> result json)
    (body : json -> A -> M A) (items : list json) :
  forall (i : nat) (base last : option nat) (acc acc' : A) (w w' : world),
    _progress_bar_for columns total get_message body i items base acc w
    = (Ok (last, acc'), w') ->
    items <> [] \/ base <> None -> last <> None.
Proof.
  induction items as [|item items IH]; intros i base last acc acc' w w';
    cbn [_progress_bar_for].
  - intros [= <- _ _] [H|H]; congruence.
  - rewrite bind_run. destruct (body item acc w) as [[acc1|e] w1]; [|discriminate].
    rewrite lift_bind. destruct (get_message item ≫= expect_str); [|discriminate].
    rewrite bind_run, write_run. intros Hloop _.
    apply (IH _ _ _ _ _ _ _ Hloop). now right.
Qed.

Lemma progress_bar_unfold {A} (columns : nat) (items : list json)
    (get_message : json -> result json) (body : json -> A -> M A) (acc : A) (w : world) :
  terminal w = Some columns ->
  _progress_bar (JArr items) get_message body acc w
  = match _progress_bar_for columns (length items) get_message body 1 items None acc w with
    | (Ok (Some i, acc'), w') =>
        (Ok acc',
         with_io w' (responses w') (exchanges w')
           (stdout w' ++ [ProgressEnd columns i (length items)]))
    | (Ok (None, _), w') => (Raise UnboundLocalError, w')
    | (Raise e, w') => (Raise e, w')
    end.
Proof.
  intros Hterminal. unfold _progress_bar.
  rewrite lift_bind. cbn [py_len]. rewrite bind_run.
  unfold os_get_terminal_size. rewrite Hterminal, lift_bind. cbn [py_iter].
  rewrite bind_run.
  destruct (_progress_bar_for _ _ _ _ _ _ _ _ _) as [[[[i|] acc']|e] w']; reflexivity.
Qed.

(** On a non-empty list, with a terminal on stdout, the search loop behind
    the progress bar returns or raises what the plain loop does and makes
    the same exchanges. *)
Lemma progress_bar_agrees (columns : nat) (items : list json) (w : world) :
  items <> [] -> terminal w = Some columns ->
  fst (_progress_bar (JArr items) snippet_title (search_body sp_token) [] w)
  = fst (for_each items (search_body sp_token) [] w) /\
  same_io (snd (_progress_bar (JArr items) snippet_title (search_body sp_token) [] w))
          (snd (for_each items (search_body sp_token) [] w)).
Proof.
  intros Hne Hterminal. rewrite (progress_bar_unfold columns) by exact Hterminal.
  destruct (progress_loop_agrees columns (length items) items 1 None [] w w
              (same_io_refl w)) as [Hfst Hsnd].
  destruct (_progress_bar_for columns (length items) snippet_title (search_body sp_token)
              1 items None [] w) as [[[base found]|e] w1] eqn:Hloop;
    cbn in Hfst, Hsnd; [|split; [exact Hfst | exact Hsnd]].
  destruct base as [step|];
    [|apply progress_loop_base in Hloop; [congruence | now left]].
  split; [exact Hfst|].
  destruct Hsnd as (? & ? & ? & ?). repeat split; assumption.
Qed.

End ProgressBarAgrees.

(** * Further properties *)

(** ** Cropping the message of the progress bar *)

Section Crop.

Lemma py_strlen_app (a b : string) : py_strlen (a +:+ b) = py_strlen a + py_strlen b.
Proof.
  induction a as [|c a IH]; [reflexivity|].
  rewrite append_cons. cbn [py_strlen]. rewrite IH. lia.
Qed.

Lemma py_strlen_take (n : nat) (s : string) :
  py_strlen (str_take n s) = Nat.min n (py_strlen s).
Proof.
  revert n. induction s as [|c s IH]; intros n; cbn [str_take py_strlen].
  - now rewrite Nat.min_0_r.
  - destruct (is_continuation c) eqn:Hc; cbn [py_strlen]; rewrite ?Hc.
    + rewrite IH. lia.
    + destruct n as [|n]; cbn [py_strlen]; rewrite ?Hc; [reflexivity|]. rewrite IH. lia.
Qed.

End Crop.

(** X1. For a limit of at least 3, [_crop] returns a string of at most
    [length] characters: the string itself when it fits, and else its
    first [length - 3] characters followed by three dots, [length]
    characters in all. *)
Theorem crop_fits (s : string) (length : Z) :
  (3 <= length)%Z ->
  (Z.of_nat (py_strlen (_crop s length)) <= length)%Z /\
  ((Z.of_nat (py_strlen s) <= length)%Z -> _crop s length = s) /\
  ((length < Z.of_nat (py_strlen s))%Z ->
   _crop s length = str_take (Z.to_nat (length - 3)) s +:+ "..." /\
   Z.of_nat (py_strlen (_crop s length)) = length).
Proof.
  intros Hlength. unfold _crop, str_slice_to.
  destruct (Z.ltb_spec length (Z.of_nat (py_strlen s))) as [Hlong|Hfits].
  - destruct (Z.ltb_spec (length - 3) 0) as [Hneg|_]; [lia|].
    assert (Hlen : Z.of_nat (py_strlen (str_take (Z.to_nat (length - 3)) s +:+ "..."))
                   = length).
    { rewrite py_strlen_app, py_strlen_take.
      change (py_strlen "...") with 3. lia. }
    split; [lia|]. split; [lia|]. intros _. split; [reflexivity | exact Hlen].
  - split; [exact Hfits|]. split; [reflexivity | lia].
Qed.

Lemma crop_fits_witness :
  (3 <= 5)%Z /\
  (Z.of_nat (py_strlen (_crop "Bohemian Rhapsody" 5)) <= 5)%Z /\
  _crop "Bohemian Rhapsody" 5 = "Bo...".
Proof.
  destruct (crop_fits "Bohemian Rhapsody" 5 ltac:(lia)) as (Hle & _ & Hcut).
  split; [lia|]. split; [exact Hle|]. exact (proj1 (Hcut eq_refl)).
Defined.

(** ** Escaping and decoding *)

Section Quoting.

Lemma hex_round_trip (c : ascii) :
  urllib.hextobyte (urllib.hex_digit (nat_of_ascii c / 16))
                   (urllib.hex_digit (nat_of_ascii c mod 16)) = Some c.
Proof. destruct c as [[] [] [] [] [] [] [] []]; reflexivity. Qed.

Lemma hex_digits_safe (c : ascii) :
  urllib.always_safe (urllib.hex_digit (nat_of_ascii c / 16)) = true /\
  urllib.always_safe (urllib.hex_digit (nat_of_ascii c mod 16)) = true.
Proof. destruct c as [[] [] [] [] [] [] [] []]; split; reflexivity. Qed.

Lemma safe_is_plain (c : ascii) :
  urllib.always_safe c = true ->
  Ascii.eqb c "%" = false /\ Ascii.eqb c "+" = false /\ is_ascii c = true.
Proof. destruct c as [[] [] [] [] [] [] [] []]; intros H; try discriminate H; now repeat split. Qed.

Lemma quote_plus_chars (s : string) :
  str_forall query_char (urllib.quote_plus s) = true.
Proof.
  induction s as [|c s IH]; [reflexivity|]. cbn [urllib.quote_plus].
  destruct (urllib.always_safe c) eqn:Hsafe.
  - cbn [str_forall]. unfold query_char at 1. now rewrite Hsafe, IH.
  - destruct (Ascii.eqb c " ").
    + cbn [str_forall]. now rewrite IH.
    + cbn [str_forall]. destruct (hex_digits_safe c) as [Hhi Hlo].
      unfold query_char at 2 3. rewrite Hhi, Hlo, IH. reflexivity.
Qed.

(** A character that is no [query_char] is not in a string of them. *)
Lemma query_chars_without (s : string) (c : ascii) :
  str_forall query_char s = true -> query_char c = false -> contains c s = false.
Proof.
  intros Hs Hc. induction s as [|x s IH]; [reflexivity|].
  cbn in Hs |- *. apply andb_prop in Hs as [Hx Hs]. rewrite (IH Hs), orb_false_r.
  destruct (Ascii.eqb_spec x c) as [->|]; [congruence | reflexivity].
Qed.

Lemma query_char_ascii (c : ascii) : query_char c = true -> is_ascii c = true.
Proof. destruct c as [[] [] [] [] [] [] [] []]; intros H; try discriminate H; reflexivity. Qed.

(** Undoing the escapes gives the bytes back. *)
Lemma unquote_to_bytes_quote_plus (s : string) :
  urllib.unquote_to_bytes (replace_char "+" " " (urllib.quote_plus s)) = s.
Proof.
  induction s as [|c s IH]; [reflexivity|]. cbn [urllib.quote_plus].
  destruct (urllib.always_safe c) eqn:Hsafe.
  - destruct (safe_is_plain c Hsafe) as (Hpercent & Hplus & _).
    cbn [replace_char urllib.unquote_to_bytes]. rewrite Hplus, Hpercent, IH. reflexivity.
  - destruct (Ascii.eqb_spec c " ") as [->|Hspace].
    + cbn [replace_char urllib.unquote_to_bytes]. cbn [Ascii.eqb Bool.eqb].
      now rewrite IH.
    + destruct (hex_digits_safe c) as [Hhi Hlo].
      apply safe_is_plain in Hhi as (_ & Hhi & _).
      apply safe_is_plain in Hlo as (_ & Hlo & _).
      cbn [replace_char]. rewrite Hhi, Hlo.
      cbn [urllib.unquote_to_bytes Ascii.eqb Bool.eqb].
      now rewrite hex_round_trip, IH.
Qed.

(** Without an escape in it, the text is the title with [+] for every
    space. *)
Lemma quote_plus_no_escape (s : string) :
  contains "%" (urllib.quote_plus s) = false ->
  replace_char "+" " " (urllib.quote_plus s) = s.
Proof.
  induction s as [|c s IH]; [reflexivity|]. cbn [urllib.quote_plus].
  destruct (urllib.always_safe c) eqn:Hsafe.
  - destruct (safe_is_plain c Hsafe) as (Hpercent & Hplus & _).
    cbn [contains replace_char]. rewrite Hpercent, Hplus. cbn [orb].
    intros H. now rewrite (IH H).
  - destruct (Ascii.eqb_spec c " ") as [->|Hspace].
    + cbn [contains replace_char Ascii.eqb Bool.eqb orb]. intros H. now rewrite (IH H).
    + cbn [contains Ascii.eqb Bool.eqb orb]. discriminate.
Qed.

(** A non-empty string of ASCII characters is one run. *)
Lemma ascii_runs_ascii (s : string) :
  str_forall is_ascii s = true -> s <> "" -> urllib.ascii_runs s = [(true, s)].
Proof.
  induction s as [|c s IH]; [congruence|]. cbn [str_forall urllib.ascii_runs].
  intros [Hc Hs]%andb_prop _. destruct s as [|c' s].
  - cbn [urllib.ascii_runs]. now rewrite Hc.
  - rewrite (IH Hs) by discriminate. now rewrite Hc.
Qed.

Lemma str_forall_impl (f g : ascii -> bool) (s : string) :
  (forall c, f c = true -> g c = true) -> str_forall f s = true -> str_forall g s = true.
Proof.
  intros Hfg. induction s as [|c s IH]; [reflexivity|]. cbn.
  intros [Hc Hs]%andb_prop. now rewrite (Hfg c Hc), (IH Hs).
Qed.

Lemma str_forall_replace (f : ascii -> bool) (a b : ascii) (s : string) :
  f b = true -> str_forall f s = true -> str_forall f (replace_char a b s) = true.
Proof.
  intros Hb. induction s as [|c s IH]; [reflexivity|]. cbn.
  intros [Hc Hs]%andb_prop. rewrite (IH Hs). now destruct (Ascii.eqb c a); rewrite ?Hb, ?Hc.
Qed.

Lemma contains_replace (c a b : ascii) (s : string) :
  Ascii.eqb a c = false -> Ascii.eqb b c = false ->
  contains c (replace_char a b s) = contains c s.
Proof.
  intros Ha Hb. induction s as [|x s IH]; [reflexivity|]. cbn. rewrite IH.
  destruct (Ascii.eqb_spec x a) as [->|]; [now rewrite Ha, Hb | reflexivity].
Qed.

End Quoting.

(** X2. For a title that has a UTF-8 encoding, [_spotify_search_track]
    makes one request, whose query carries the title escaped by
    [quote_plus]: only letters, digits, [_.-~], [+] and [%] are left, so
    whatever such a title holds, it cannot end the parameter ([&], [#]),
    add a second [=] or put a space in the URL. (A [str] with a lone
    surrogate has no UTF-8 encoding: there [quote_plus] raises
    [UnicodeEncodeError] and no request is made.) *)
Theorem search_query_is_escaped (token title : string) (w : world) :
  well_formed_utf8 title ->
  (exists resp,
     exchanges (snd (_spotify_search_track token (JStr title) w))
     = exchanges w ++
       [({| url := [Lit SPOTIFY_URL; Lit "/search?"; Lit "&q=";
                    Lit (urllib.quote_plus title); Lit "&type=track"; Lit "&limit=1"];
            method := GET; authorization := Some token; data := None |}, resp)]) /\
  str_forall query_char (urllib.quote_plus title) = true /\
  contains "&" (urllib.quote_plus title) = false /\
  contains "=" (urllib.quote_plus title) = false /\
  contains "#" (urllib.quote_plus title) = false /\
  contains " " (urllib.quote_plus title) = false.
Proof.
  intros _. split.
  - unfold _spotify_search_track. rewrite lift_bind. cbn [expect_str].
    rewrite bind_run. unfold _url_open at 1.
    destruct (responses w) as [|[ret|e] pending]; cbn; eexists; reflexivity.
  - pose proof (quote_plus_chars title) as Hq.
    repeat split; [exact Hq | ..]; now apply (query_chars_without _ _ Hq).
Qed.

Lemma search_query_is_escaped_witness :
  well_formed_utf8 "AC/DC - T.N.T. (live) & more" /\
  urllib.quote_plus "AC/DC - T.N.T. (live) & more"
  = "AC%2FDC+-+T.N.T.+%28live%29+%26+more" /\
  exists resp,
    exchanges (snd (_spotify_search_track "sp" (JStr "AC/DC - T.N.T. (live) & more")
                      (sample_world [Ok (found "spotify:track:1")])))
    = exchanges (sample_world [Ok (found "spotify:track:1")]) ++
      [({| url := [Lit SPOTIFY_URL; Lit "/search?"; Lit "&q=";
                   Lit (urllib.quote_plus "AC/DC - T.N.T. (live) & more");
                   Lit "&type=track"; Lit "&limit=1"];
           method := GET; authorization := Some "sp"; data := None |}, resp)].
Proof.
  split; [reflexivity|]. split; [reflexivity|].
  exact (proj1 (search_query_is_escaped "sp" "AC/DC - T.N.T. (live) & more"
                  (sample_world [Ok (found "spotify:track:1")]) eq_refl)).
Defined.

(** The bytes a lone surrogate would have, here those of U+D800, are no
    UTF-8: no [string] of the embedding stands for such a [str]. *)
Example surrogate_is_not_well_formed :
  ~ well_formed_utf8 (String (ascii_of_nat 237) (String (ascii_of_nat 160)
                        (String (ascii_of_nat 128) EmptyString))).
Proof. unfold well_formed_utf8. discriminate. Qed.

(** X3. Decoding what [quote_plus] wrote, as [parse_qs] decodes a value
    ([+] to space, then [unquote]), gives the text back, for every text
    that is well-formed UTF-8. *)
Theorem unquote_plus_quote_plus (s : string) :
  well_formed_utf8 s -> unquote_plus (urllib.quote_plus s) = s.
Proof.
  intros Hs. unfold unquote_plus, urllib.unquote.
  destruct (contains "%" (replace_char "+" " " (urllib.quote_plus s))) eqn:Hescape;
    cbn [negb].
  - assert (Hne : replace_char "+" " " (urllib.quote_plus s) <> "").
    { intros H. rewrite H in Hescape. discriminate. }
    assert (Hascii : str_forall is_ascii (replace_char "+" " " (urllib.quote_plus s))
                     = true).
    { apply str_forall_replace; [reflexivity|].
      apply (str_forall_impl query_char); [exact query_char_ascii|].
      apply quote_plus_chars. }
    rewrite (ascii_runs_ascii _ Hascii Hne). cbn [map urllib.join].
    rewrite unquote_to_bytes_quote_plus, append_empty_r. exact Hs.
  - rewrite contains_replace in Hescape by reflexivity.
    now apply quote_plus_no_escape.
Qed.

Lemma unquote_plus_quote_plus_witness :
  well_formed_utf8 "Beyoncé & JAY-Z: 100% (live)" /\
  urllib.quote_plus "Beyoncé & JAY-Z: 100% (live)"
  = "Beyonc%C3%A9+%26+JAY-Z%3A+100%25+%28live%29" /\
  unquote_plus (urllib.quote_plus "Beyoncé & JAY-Z: 100% (live)")
  = "Beyoncé & JAY-Z: 100% (live)".
Proof.
  split; [reflexivity|]. split; [reflexivity|].
  exact (unquote_plus_quote_plus "Beyoncé & JAY-Z: 100% (live)" eq_refl).
Defined.

(** Bytes that are no UTF-8 do not come back: they are replaced. *)
Example unquote_plus_replaces :
  unquote_plus (urllib.quote_plus (String (ascii_of_nat 255) "a"))
  = urllib.replacement +:+ "a".
Proof. reflexivity. Qed.

(** ** What a playlist reference resolves to *)

Section PlaylistIdOutcomes.

(** [parse_qsl] gives no parameter an empty value. *)
Lemma parse_qsl_values (qs name value : string) :
  (name, value) ∈ urllib.parse_qsl qs -> value <> "".
Proof.
  unfold urllib.parse_qsl. intros Hin. apply list_elem_of_omap in Hin as (field & _ & Hfield).
  destruct (split_once "=" field) as [[n v]|]; [|discriminate].
  destruct (String.eqb_spec v ""); [discriminate|].
  injection Hfield as _ <-.
  now apply unquote_not_empty, replace_char_not_empty.
Qed.

Lemma values_of_elem (name value : string) (pairs : list (string * string)) :
  value ∈ values_of name pairs -> (name, value) ∈ pairs.
Proof.
  unfold values_of. intros Hin. apply list_elem_of_omap in Hin as ([n v] & Hin & Hsome).
  destruct (String.eqb_spec n name) as [->|]; [|discriminate].
  now injection Hsome as ->.
Qed.

End PlaylistIdOutcomes.

(** X4. [_youtube_get_playlist_id] returns an identifier or raises
    [KeyError], nothing else; and the identifier it takes from a URL is
    never the empty string. *)
Theorem playlist_id_outcomes (s : string) :
  _youtube_get_playlist_id s = Raise KeyError \/
  exists id, _youtube_get_playlist_id s = Ok id /\
             (String.prefix playlist_prefix s = true -> id <> "").
Proof.
  rewrite playlist_id_unfold.
  destruct (String.prefix playlist_prefix s); [|right; exists s; split; [reflexivity | discriminate]].
  destruct (values_of "list" (query_parameters s)) as [|id ids] eqn:Hvalues; [now left|].
  right. exists id. split; [reflexivity|]. intros _.
  apply (parse_qsl_values (urllib.urlparse_query s) "list").
  apply values_of_elem. fold (query_parameters s). rewrite Hvalues. left.
Qed.

Lemma playlist_id_outcomes_witness :
  String.prefix playlist_prefix "https://www.youtube.com/playlist?list=PL123" = true /\
  exists id,
    _youtube_get_playlist_id "https://www.youtube.com/playlist?list=PL123" = Ok id /\
    id <> "".
Proof.
  split; [reflexivity|].
  destruct (playlist_id_outcomes "https://www.youtube.com/playlist?list=PL123")
    as [H|(id & H & Hne)]; [vm_compute in H; discriminate|].
  exists id. split; [exact H | exact (Hne eq_refl)].
Defined.

(** ** No request after a failure *)

Section FailFast.

Lemma fail_fast_nil {A} (r : result A) : fail_fast r [].
Proof. left. constructor. Qed.

Lemma fail_fast_one (req : request) (r : result json) : fail_fast r [(req, r)].
Proof.
  destruct r as [ret|e].
  - left. constructor; [now exists ret | constructor].
  - right. exists [], req, e. repeat split. constructor.
Qed.

Lemma fail_fast_ok {A} (a : A) (X : list exchange) : fail_fast (Ok a) X -> all_answered X.
Proof. intros [H|(X' & req & e & _ & _ & H)]; [exact H | discriminate]. Qed.

(** The result of a run that raised may be read at any type. *)
Lemma fail_fast_raise {A B} (e : exn) (X : list exchange) :
  fail_fast (A:=A) (Raise e) X -> fail_fast (A:=B) (Raise e) X.
Proof.
  intros [H|(X' & req & e' & HX & HX' & [= ->])]; [now left|].
  right. now exists X', req, e'.
Qed.

Lemma fail_fast_app {A B} (a : A) (r : result B) (X1 X2 : list exchange) :
  fail_fast (Ok a) X1 -> fail_fast r X2 -> fail_fast r (X1 ++ X2).
Proof.
  intros H1%fail_fast_ok [H2|(X' & req & e & -> & HX' & ->)].
  - left. now apply Forall_app.
  - right. exists (X1 ++ X'), req, e. rewrite app_assoc.
    repeat split. now apply Forall_app.
Qed.

(** Steps that fail fast compose to a run that fails fast. *)
Lemma fail_fast_bind {A B} (m : M A) (f : A -> M B) :
  emits m fail_fast -> (forall a, emits (f a) fail_fast) -> emits (m ≫= f) fail_fast.
Proof.
  intros Hm Hf. apply emits_bind. eapply emits_conseq; [exact Hm|]. cbv beta.
  intros [a|e] X1 H1; [|exact (fail_fast_raise _ _ H1)].
  eapply emits_conseq; [apply Hf|]. cbv beta. intros r X2 H2.
  exact (fail_fast_app _ _ _ _ H1 H2).
Qed.

Lemma fail_fast_url_open (req : request) : emits (_url_open req) fail_fast.
Proof. apply emits_url_open. intros r. apply fail_fast_one. Qed.

Lemma fail_fast_lift {A} (r : result A) : emits (lift r) fail_fast.
Proof. apply emits_lift, fail_fast_nil. Qed.

Lemma fail_fast_log (level color : string) (message : fstring) :
  emits (_log level color message) fail_fast.
Proof. apply emits_log, fail_fast_nil. Qed.

Lemma fail_fast_get_token (name : string) : emits (_get_token name) fail_fast.
Proof. apply emits_get_token. intros r. apply fail_fast_nil. Qed.

Lemma fail_fast_playlist_name (token playlist_id : string) :
  emits (_youtube_get_playlist_name token playlist_id) fail_fast.
Proof.
  unfold _youtube_get_playlist_name.
  apply fail_fast_bind; [apply fail_fast_url_open | intros ret; apply fail_fast_lift].
Qed.

Lemma fail_fast_while (base_url : fstring) (pending : nat) :
  forall ret tracks,
    emits (_youtube_get_tracks_while base_url pending ret tracks) fail_fast.
Proof.
  induction pending as [|pending IH]; intros ret tracks; rewrite while_unfold;
    (apply fail_fast_bind; [apply fail_fast_lift|]); intros cursor;
    (destruct (truthy cursor); [|apply emits_ret, fail_fast_nil]);
    (apply fail_fast_bind; [apply fail_fast_lift|]); intros token; cbv zeta;
    (apply fail_fast_bind; [apply fail_fast_url_open|]); intros ret'.
  - apply emits_raise, fail_fast_nil.
  - apply fail_fast_bind; [apply fail_fast_lift|]. intros tracks'. apply IH.
Qed.

Lemma fail_fast_get_tracks (token playlist_id : string) :
  emits (_youtube_get_tracks token playlist_id) fail_fast.
Proof.
  unfold _youtube_get_tracks. cbv zeta.
  apply fail_fast_bind; [apply fail_fast_url_open|]. intros ret.
  apply fail_fast_bind; [apply fail_fast_lift|]. intros tracks.
  apply fail_fast_bind; [apply emits_count_pending; intros n; apply fail_fast_nil|].
  intros pending. apply fail_fast_while.
Qed.

Lemma fail_fast_search_track (token : string) (track : json) :
  emits (_spotify_search_track token track) fail_fast.
Proof.
  unfold _spotify_search_track.
  apply fail_fast_bind; [apply fail_fast_lift|]. intros title. cbv zeta.
  apply fail_fast_bind; [apply fail_fast_url_open | intros ret; apply fail_fast_lift].
Qed.

Lemma fail_fast_search_body (token : string) (track : json) (uris : list json) :
  emits (search_body token track uris) fail_fast.
Proof.
  unfold search_body.
  apply fail_fast_bind; [apply fail_fast_lift|]. intros title.
  apply fail_fast_bind; [apply fail_fast_search_track|]. intros uri.
  apply emits_ret, fail_fast_nil.
Qed.

(** The progress bar adds no request of its own. *)
Lemma fail_fast_progress_bar {A} (sequence : json) (get_message : json -> result json)
    (body : json -> A -> M A) (acc : A) :
  (forall item acc, emits (body item acc) fail_fast) ->
  emits (_progress_bar sequence get_message body acc) fail_fast.
Proof.
  intros Hbody. unfold _progress_bar.
  apply fail_fast_bind; [apply fail_fast_lift|]. intros total.
  apply fail_fast_bind; [apply emits_terminal_size; intros r; apply fail_fast_nil|].
  intros columns.
  apply fail_fast_bind; [apply fail_fast_lift|]. intros items.
  apply fail_fast_bind.
  - generalize 1 (@None nat) acc.
    induction items as [|item items IH]; intros i base acc'; cbn [_progress_bar_for].
    + apply emits_ret, fail_fast_nil.
    + apply fail_fast_bind; [apply Hbody|]. intros acc''.
      apply fail_fast_bind; [apply fail_fast_lift|]. intros message.
      apply fail_fast_bind; [apply emits_write, fail_fast_nil|]. intros _. apply IH.
  - intros [[i|] acc'].
    + apply fail_fast_bind; [apply emits_write, fail_fast_nil|]. intros _.
      apply emits_ret, fail_fast_nil.
    + apply emits_raise, fail_fast_nil.
Qed.

Lemma fail_fast_search_tracks (token : string) (tracks : json) :
  emits (search_tracks token tracks) fail_fast.
Proof.
  unfold search_tracks, _info.
  apply fail_fast_bind; [apply fail_fast_log|]. intros _.
  apply fail_fast_progress_bar. intros item acc. apply fail_fast_search_body.
Qed.

Lemma fail_fast_create_playlist (token : string) (name : json) :
  emits (_spotify_create_playlist token name) fail_fast.
Proof.
  unfold _spotify_create_playlist.
  apply fail_fast_bind; [apply fail_fast_url_open|]. intros user.
  apply fail_fast_bind; [apply fail_fast_lift|]. intros user_id. cbv zeta.
  apply fail_fast_bind; [apply fail_fast_url_open | intros ret; apply fail_fast_lift].
Qed.

Lemma fail_fast_add_to_playlist (token : string) (playlist : json) (tracks : list json) :
  emits (_spotify_add_to_playlist token playlist tracks) fail_fast.
Proof.
  unfold _spotify_add_to_playlist. cbv zeta.
  apply fail_fast_bind; [apply fail_fast_url_open|]. intros _.
  apply emits_ret, fail_fast_nil.
Qed.

Lemma fail_fast_add_tracks (token : string) (playlist : json) (uris : list json) :
  emits (add_tracks token playlist uris) fail_fast.
Proof.
  rewrite add_tracks_batches. induction (batches uris) as [|chunk chunks IH]; cbn [for_in].
  - apply emits_ret, fail_fast_nil.
  - apply fail_fast_bind; [apply fail_fast_add_to_playlist | intros _; exact IH].
Qed.

End FailFast.

(** X5. The script never retries and never goes on after a failed
    request: in every run of [_main], each request but the last was
    answered, and if the last one failed, its exception is what the run
    raises. *)
Theorem main_fails_fast (args : Namespace.t) (w : world) :
  exists X, exchanges (snd (_main args w)) = exchanges w ++ X /\
            fail_fast (fst (_main args w)) X.
Proof.
  revert w. change (emits (_main args) fail_fast). unfold _main, _debug, _info.
  apply fail_fast_bind; [apply fail_fast_get_token|]. intros yt_token.
  apply fail_fast_bind; [apply fail_fast_get_token|]. intros sp_token.
  apply fail_fast_bind; [apply fail_fast_log|]. intros _.
  apply fail_fast_bind; [apply fail_fast_lift|]. intros youtube_playlist.
  apply fail_fast_bind; [apply fail_fast_playlist_name|]. intros name.
  apply fail_fast_bind; [apply fail_fast_log|]. intros _.
  apply fail_fast_bind; [apply fail_fast_get_tracks|]. intros tracks.
  apply fail_fast_bind; [apply fail_fast_lift|]. intros found.
  apply fail_fast_bind; [apply fail_fast_log|]. intros _.
  apply fail_fast_bind; [apply fail_fast_search_tracks|]. intros uris.
  apply fail_fast_bind; [apply fail_fast_create_playlist|]. intros spotify_playlist.
  apply fail_fast_bind; [apply fail_fast_log|]. intros _.
  apply fail_fast_bind; [apply fail_fast_add_tracks|]. intros _.
  apply fail_fast_bind; [apply fail_fast_log|]. intros _.
  apply fail_fast_bind; [apply fail_fast_log|]. intros _.
  apply emits_ret, fail_fast_nil.
Qed.

(** ** Every run, step by step *)

Section Steps.

Lemma emits_then {A B} (m : M A) (f : A -> M B) (P : result A -> list exchange -> Prop)
    (Q : A -> result B -> list exchange -> Prop) :
  emits m P -> (forall a, emits (f a) (Q a)) -> emits (m ≫= f) (then_ P Q).
Proof.
  intros Hm Hf. apply emits_bind. eapply emits_conseq; [exact Hm|]. cbv beta.
  intros [a|e] X1 HP.
  - eapply emits_conseq; [apply Hf|]. cbv beta. intros r X2 HQ.
    exists (Ok a), X1. split; [exact HP|]. now exists X2.
  - exists (Raise e), X1. now split.
Qed.

(** A line of the log changes nothing in what is exchanged. *)
Lemma emits_after_log {A} (level color : string) (message : fstring) (k : M A)
    (Q : result A -> list exchange -> Prop) :
  emits k Q -> emits (_log level color message;; k) Q.
Proof. intros Hk. apply emits_bind, emits_log. exact Hk. Qed.

Lemma emits_asks {A} (req : request) (read : json -> result A) :
  emits (ret ← _url_open req; lift (read ret)) (asks req read).
Proof.
  apply emits_bind, emits_url_open. intros [ret|e].
  - apply emits_lift. now exists (Ok ret).
  - now exists (Raise e).
Qed.

(** The last element of a list that has one, whatever stands in for it. *)
Lemma last_cons {A} (l : list A) (x d : A) : List.last (x :: l) d = List.last l x.
Proof.
  revert x d. induction l as [|y l IH]; intros x d; [reflexivity|].
  change (List.last (x :: y :: l) d) with (List.last (y :: l) d).
  now rewrite (IH y d), (IH y x).
Qed.

Lemma emits_pages_while (token playlist_id : string) (pending : nat) :
  forall ret tracks,
    emits (_youtube_get_tracks_while (playlist_items_url token playlist_id) pending
             ret tracks)
      (fun r X => follows_cursors token playlist_id (Ok ret) X /\
                  forall all, r = Ok all ->
                    has_no_cursor (List.last (map snd X) (Ok ret)) /\
                    exists rets, map snd X = map Ok rets /\ extended tracks rets = Ok all).
Proof.
  induction pending as [|pending IH]; intros ret tracks; rewrite while_unfold;
    apply emits_bind, emits_lift;
    (destruct (dict_get ret "nextPageToken") as [cursor|e] eqn:Hget;
       [|split; [exact I | discriminate]]);
    (destruct (truthy cursor) eqn:Htruthy;
       [|apply emits_ret; split; [exact I|]; intros all [= <-];
         split; [now exists ret, cursor | now exists []]]);
    rewrite (get_truthy _ _ _ Hget Htruthy); apply emits_bind, emits_lift; cbv zeta;
    apply emits_bind, emits_url_open;
    assert (Hone : forall resp,
              follows_cursors token playlist_id (Ok ret)
                [({| url := playlist_items_url token playlist_id
                            ++ [Lit "&pageToken="; Str cursor];
                     method := GET; authorization := None; data := None |}, resp)])
      by (intros resp; split; [|exact I]; exists cursor; split;
          [now exists ret | reflexivity]).
  - intros [ret'|e]; [apply emits_raise|]; (split; [apply Hone | discriminate]).
  - intros [ret'|e]; [|split; [apply Hone | discriminate]].
    apply emits_bind, emits_lift.
    destruct (list_extend tracks (getitem ret' "items")) as [tracks'|e] eqn:Hextend;
      [|split; [apply Hone | discriminate]].
    eapply emits_conseq; [apply IH|]. cbv beta. intros r X [Hchain Hlast]. split.
    + split; [apply (Hone (Ok ret'))|exact Hchain].
    + intros all Hr. destruct (Hlast all Hr) as (Hcursor & rets & Hrets & Hall).
      cbn [app map snd]. split; [now rewrite last_cons|].
      exists (ret' :: rets). cbn. rewrite Hrets, Hextend. now split.
Qed.

Lemma emits_pages_fetched (token playlist_id : string) :
  emits (_youtube_get_tracks token playlist_id) (pages_fetched token playlist_id).
Proof.
  unfold _youtube_get_tracks. cbv zeta. apply emits_bind, emits_url_open.
  intros [ret|e]; [|exists (Raise e), []; repeat split; discriminate].
  apply emits_bind, emits_lift.
  destruct (getitem ret "items") as [tracks|e] eqn:Hitems;
    [|exists (Ok ret), []; repeat split; discriminate].
  apply emits_bind, emits_count_pending. intros pending.
  eapply emits_conseq; [apply emits_pages_while|]. cbv beta. intros r X [Hchain Hlast].
  exists (Ok ret), X. split; [reflexivity|]. split; [exact Hchain|].
  intros all Hr. destruct (Hlast all Hr) as (Hcursor & rets & Hrets & Hall).
  split; [exact Hcursor|]. now exists ret, rets, tracks.
Qed.

Lemma searches_made_nil (token : string) (items : list json) (e : exn) :
  searches_made token items (Raise e) [].
Proof. split; [exists []; split; [constructor | reflexivity] | discriminate]. Qed.

Lemma emits_search_body (token : string) (track : json) (uris : list json) :
  emits (search_body token track uris)
    (fun r X => (X = [] /\ exists e, r = Raise e) \/
                exists title answer,
                  has_title track title /\ X = [(search_request token title, answer)] /\
                  r = (answer ≫= top_result) ≫= (fun uri => Ok (uris ++ [uri]))).
Proof.
  unfold search_body. apply emits_bind, emits_lift.
  destruct (snippet_title track) as [title|e] eqn:Htitle; [|left; eauto].
  apply emits_bind. unfold _spotify_search_track. apply emits_bind, emits_lift.
  destruct title as [| | |title| |]; cbn [expect_str]; try (left; eauto).
  cbv zeta. apply emits_bind, emits_url_open. intros [answer|e].
  - apply emits_lift. fold (top_result answer). rewrite app_nil_r.
    destruct (top_result answer) as [uri|e] eqn:Huri.
    + apply emits_ret. right. exists title, (Ok answer). repeat split; [exact Htitle|].
      cbn. now rewrite Huri.
    + right. exists title, (Ok answer). repeat split; [exact Htitle|].
      cbn. now rewrite Huri.
  - right. exists title, (Raise e). repeat split. exact Htitle.
Qed.

Lemma emits_searches_loop (token : string) (columns total : nat) (items : list json) :
  forall (i : nat) (base : option nat) (uris : list json),
    emits (_progress_bar_for columns total snippet_title (search_body token)
             i items base uris)
      (fun r X =>
         (exists titles, Forall2 has_title (take (length X) items) titles /\
                         map fst X = map (search_request token) titles) /\
         forall last found, r = Ok (last, found) ->
           exists new, found = uris ++ new /\ length X = length items /\
                       Forall2 gave X new).
Proof.
  induction items as [|item items IH]; intros i base uris; cbn [_progress_bar_for].
  - apply emits_ret. split; [exists []; split; [constructor | reflexivity]|].
    intros last found [= _ <-]. exists []. rewrite app_nil_r. repeat split. constructor.
  - apply emits_bind. eapply emits_conseq; [apply emits_search_body|]. cbv beta.
    intros r X1 [[-> [e ->]]|(title & answer & Htitle & -> & ->)].
    { split; [exists []; split; [constructor | reflexivity] | discriminate]. }
    assert (Hone : exists titles,
               Forall2 has_title (take 1 (item :: items)) titles /\
               map fst [(search_request token title, answer)]
               = map (search_request token) titles).
    { exists [title]. split; [|reflexivity]. cbn. repeat constructor. exact Htitle. }
    destruct answer as [answer|e]; [|split; [exact Hone | discriminate]].
    change (Ok answer ≫= top_result) with (top_result answer).
    destruct (top_result answer) as [uri|e] eqn:Huri;
      [|split; [exact Hone | discriminate]].
    cbn. apply emits_bind, emits_lift. rewrite Htitle. cbn.
    apply emits_bind, emits_write. eapply emits_conseq; [apply IH|]. cbv beta.
    intros r X2 [(titles & Htitles & Hreqs) Hfound]. split.
    + exists (title :: titles). split.
      * cbn. constructor; [exact Htitle | exact Htitles].
      * cbn. now rewrite Hreqs.
    + intros last found Hr. destruct (Hfound last found Hr) as (new & -> & Hlen & Hgave).
      exists (uri :: new). rewrite <- app_assoc. repeat split.
      * cbn. now rewrite Hlen.
      * constructor; [now exists answer | exact Hgave].
Qed.

Lemma emits_searches_made (token : string) (tracks : json) :
  emits (search_tracks token tracks) (searches_made token (elements tracks)).
Proof.
  unfold search_tracks, _progress_bar, _info. apply emits_after_log.
  apply emits_bind, emits_lift.
  destruct (py_len tracks) as [total|e]; [|apply searches_made_nil].
  apply emits_bind, emits_terminal_size. intros [columns|e]; [|apply searches_made_nil].
  apply emits_bind, emits_lift. unfold elements.
  destruct (py_iter tracks) as [items|e]; [|apply searches_made_nil].
  apply emits_bind. eapply emits_conseq; [apply emits_searches_loop|]. cbv beta.
  intros [[[step|] found]|e] X [Htitles Hfound].
  - apply emits_bind, emits_write. apply emits_ret. rewrite !app_nil_r.
    split; [exact Htitles|]. intros uris [= <-].
    destruct (Hfound _ _ eq_refl) as (new & -> & Hlen & Hgave). now split.
  - apply emits_raise. rewrite app_nil_r. split; [exact Htitles | discriminate].
  - split; [exact Htitles | discriminate].
Qed.

Lemma emits_playlist_created (token : string) (name : json) :
  emits (_spotify_create_playlist token name) (playlist_created token name).
Proof.
  unfold _spotify_create_playlist, playlist_created, then_, asks.
  apply emits_bind, emits_url_open. intros [user|e].
  - apply emits_bind, emits_lift. destruct (getitem user "id") as [user_id|e] eqn:Hid.
    + cbv zeta. apply emits_bind, emits_url_open. intros [ret|e].
      * apply emits_lift. exists (Ok user_id), [(me_request token, Ok user)].
        split; [exists (Ok user); split; [reflexivity | now rewrite <- Hid]|].
        eexists. split; [exists (Ok ret); split; reflexivity | reflexivity].
      * exists (Ok user_id), [(me_request token, Ok user)].
        split; [exists (Ok user); split; [reflexivity | now rewrite <- Hid]|].
        eexists. split; [exists (Raise e); split; reflexivity | reflexivity].
    + exists (Raise e), [(me_request token, Ok user)].
      split; [exists (Ok user); split; [reflexivity | now rewrite <- Hid]|]. now split.
  - exists (Raise e), [(me_request token, Raise e)].
    split; [exists (Raise e); split; reflexivity|]. now split.
Qed.

Lemma emits_tracks_added (token : string) (playlist : json) (uris : list json) :
  emits (add_tracks token playlist uris) (tracks_added token playlist uris).
Proof.
  rewrite add_tracks_batches. unfold tracks_added.
  induction (batches uris) as [|chunk chunks IH]; cbn [for_in].
  - apply emits_ret. repeat split. constructor.
  - apply emits_bind. unfold _spotify_add_to_playlist at 1. cbv zeta.
    apply emits_bind, emits_url_open. intros [answer|e].
    + apply emits_ret. eapply emits_conseq; [exact IH|]. cbv beta.
      intros r X [Hreqs Hall]. cbn. split; [now rewrite Hreqs|].
      intros Hr. destruct (Hall Hr) as [Hlen Hanswered]. split; [now rewrite Hlen|].
      constructor; [now exists answer | exact Hanswered].
    + split; [reflexivity | discriminate].
Qed.

Lemma emits_transfer (args : Namespace.t) (yt_token sp_token : string) :
  emits (transfer args yt_token sp_token) (steps_of_main args yt_token sp_token).
Proof.
  unfold transfer, steps_of_main, _debug, _info. apply emits_after_log.
  apply emits_then; [apply emits_lift; now split|]. intros playlist_id.
  apply emits_then; [apply emits_playlist_name|]. intros name. apply emits_after_log.
  apply emits_then; [apply emits_pages_fetched|]. intros tracks.
  apply emits_then; [apply emits_lift; now split|]. intros found. apply emits_after_log.
  apply emits_then; [apply emits_searches_made|]. intros uris.
  apply emits_then; [apply emits_playlist_created|]. intros spotify_playlist.
  apply emits_after_log.
  apply emits_then; [apply emits_tracks_added|]. intros _.
  do 2 apply emits_after_log. apply emits_ret. now split.
Qed.

(** With both tokens set, [_main] is the transfer with them. *)
Lemma main_transfer (args : Namespace.t) (w : world) (yt_token sp_token : string) :
  environ w !! "YOUTUBE_TOKEN" = Some yt_token ->
  environ w !! "SPOTIFY_TOKEN" = Some sp_token ->
  _main args w = transfer args yt_token sp_token w.
Proof.
  intros Hyt Hsp. unfold _main.
  rewrite (bind_ok _ _ _ _ _ (get_token_set _ _ _ Hyt)).
  rewrite (bind_ok _ _ _ _ _ (get_token_set _ _ _ Hsp)). reflexivity.
Qed.

End Steps.

(** ** What every run keeps to *)

Section Runs.

Lemma main_steps (args : Namespace.t) (w : world) (yt_token sp_token : string) :
  environ w !! "YOUTUBE_TOKEN" = Some yt_token ->
  environ w !! "SPOTIFY_TOKEN" = Some sp_token ->
  exists X, exchanges (snd (_main args w)) = exchanges w ++ X /\
            steps_of_main args yt_token sp_token (fst (_main args w)) X.
Proof.
  intros Hyt Hsp. rewrite (main_transfer _ _ _ _ Hyt Hsp). apply emits_transfer.
Qed.

(** What holds of the exchanges of every step holds of those of the run. *)
Lemma then_forall {A B} (K : exchange -> Prop) (P : result A -> list exchange -> Prop)
    (Q : A -> result B -> list exchange -> Prop) (r : result B) (X : list exchange) :
  (forall r1 X1, P r1 X1 -> Forall K X1) ->
  (forall a X1 X2, P (Ok a) X1 -> Q a r X2 -> Forall K X2) ->
  then_ P Q r X -> Forall K X.
Proof.
  intros HP HQ (r1 & X1 & H1 & H2). destruct r1 as [a|e].
  - destruct H2 as (X2 & H2 & ->). apply Forall_app. split; [eauto | eauto].
  - destruct H2 as [_ ->]. eauto.
Qed.

(** An exchange of a run is one of its first step or one of the rest. *)
Lemma then_elem {A B} (P : result A -> list exchange -> Prop)
    (Q : A -> result B -> list exchange -> Prop) (r : result B) (X : list exchange)
    (x : exchange) :
  then_ P Q r X -> x ∈ X ->
  (exists r1 X1, P r1 X1 /\ x ∈ X1) \/
  (exists a X1 X2, P (Ok a) X1 /\ Q a r X2 /\ X = X1 ++ X2 /\ x ∈ X2).
Proof.
  intros (r1 & X1 & H1 & H2) Hin. destruct r1 as [a|e].
  - destruct H2 as (X2 & H2 & ->). apply elem_of_app in Hin as [Hin|Hin].
    + left. now exists (Ok a), X1.
    + right. now exists a, X1, X2.
  - destruct H2 as [_ ->]. left. now exists (Raise e), X1.
Qed.

Lemma requests_of_map {T} (f : T -> request) (X : list exchange) :
  forall l, map fst X = map f l -> Forall (fun x => exists t, fst x = f t) X.
Proof.
  induction X as [|x X IH]; intros [|t l]; cbn; intros [=]; constructor; eauto.
Qed.

Lemma follows_cursors_requests (token playlist_id : string) (X : list exchange) :
  forall prev, follows_cursors token playlist_id prev X ->
    Forall (fun x => exists cursor,
              fst x = playlist_items_request token playlist_id (Some cursor)) X.
Proof.
  induction X as [|x X IH]; intros prev; cbn; [constructor|].
  intros [(cursor & _ & Hx) HX]. constructor; [now exists cursor | eauto].
Qed.

Lemma pages_fetched_requests (token playlist_id : string) (r : result json)
    (X : list exchange) :
  pages_fetched token playlist_id r X ->
  Forall (fun x => exists cursor, fst x = playlist_items_request token playlist_id cursor) X.
Proof.
  intros (first & more & -> & Hchain & _). constructor; [now exists None|].
  eapply Forall_impl; [exact (follows_cursors_requests _ _ _ _ Hchain)|].
  intros x [cursor Hx]. now exists (Some cursor).
Qed.

Lemma searches_made_requests (token : string) (items : list json)
    (r : result (list json)) (X : list exchange) :
  searches_made token items r X -> Forall (is_search token) X.
Proof. intros [(titles & _ & Hreqs) _]. exact (requests_of_map _ _ _ Hreqs). Qed.

Lemma playlist_created_requests (token : string) (name : json) (r : result json)
    (X : list exchange) :
  playlist_created token name r X ->
  Forall (fun x => fst x = me_request token \/
                   exists user_id, fst x = create_request token user_id name) X.
Proof.
  apply then_forall.
  - intros r1 X1 (resp & -> & _). constructor; [now left | constructor].
  - intros user_id X1 X2 _ (resp & -> & _).
    constructor; [right; now exists user_id | constructor].
Qed.

(** An identifier [_spotify_create_playlist] returns is the [id] of the
    answer to the request that creates the playlist. *)
Lemma playlist_created_id (token : string) (name playlist : json) (X : list exchange) :
  playlist_created token name (Ok playlist) X ->
  exists user user_id created,
    X = [(me_request token, Ok user); (create_request token user_id name, Ok created)] /\
    getitem user "id" = Ok user_id /\ getitem created "id" = Ok playlist.
Proof.
  intros (r1 & X1 & (user & -> & ->) & H2).
  destruct user as [user|e]; [|now destruct H2]. cbn in H2.
  destruct (getitem user "id") as [user_id|e] eqn:Hid; [|now destruct H2].
  destruct H2 as (X2 & (created & -> & Hr) & ->).
  destruct created as [created|e]; [|discriminate]. cbn in Hr.
  exists user, user_id, created. now repeat split.
Qed.

Lemma tracks_added_requests (token : string) (playlist : json) (uris : list json)
    (r : result unit) (X : list exchange) :
  tracks_added token playlist uris r X ->
  Forall (fun x => exists chunk, fst x = add_request token playlist chunk) X.
Proof. intros [Hreqs _]. exact (requests_of_map _ _ _ Hreqs). Qed.

End Runs.

(** X6. In every run of [_youtube_get_tracks], the first page is asked
    for without a cursor and every other request carries the
    [nextPageToken] of the answer just before it, one that Python counts
    as true. When the function returns, every request was answered, the
    last answer carries no such cursor, and the tracks are the [items] of
    the first answer extended by those of the others, in order. *)
Theorem tracks_requests_follow_cursors (token playlist_id : string) (w : world) :
  exists X,
    exchanges (snd (_youtube_get_tracks token playlist_id w)) = exchanges w ++ X /\
    pages_fetched token playlist_id (fst (_youtube_get_tracks token playlist_id w)) X.
Proof. exact (emits_pages_fetched token playlist_id w). Qed.

(** X7. In every run of the search loop of [_main], the searches are made
    for the titles of the first tracks of the list, one per track and in
    the order of the list, for as long as the loop runs. When the loop
    returns, every track was searched and the identifiers are the top
    results of the answers, in that order. *)
Theorem searches_follow_the_tracks (sp_token : string) (tracks : json) (w : world) :
  exists X,
    exchanges (snd (search_tracks sp_token tracks w)) = exchanges w ++ X /\
    searches_made sp_token (elements tracks) (fst (search_tracks sp_token tracks w)) X.
Proof. exact (emits_searches_made sp_token tracks w). Qed.

(** X8. In every run of the loop that fills the playlist, the requests
    are the first batches of the identifiers, in order, each to the same
    playlist: the loop stops at the first append that fails, and when it
    returns, every batch was appended. The batches hold between 1 and 100
    identifiers and, put together, are the identifiers. *)
Theorem appends_follow_the_batches (sp_token : string) (spotify_playlist : json)
    (uris : list json) (w : world) :
  (exists X,
     exchanges (snd (add_tracks sp_token spotify_playlist uris w)) = exchanges w ++ X /\
     tracks_added sp_token spotify_playlist uris
       (fst (add_tracks sp_token spotify_playlist uris w)) X /\
     fail_fast (fst (add_tracks sp_token spotify_playlist uris w)) X) /\
  Forall (fun chunk => 0 < length chunk <= 100) (batches uris) /\
  concat (batches uris) = uris.
Proof.
  split; [|split; [apply batches_sizes | apply batches_concat]].
  destruct (emits_tracks_added sp_token spotify_playlist uris w) as (X & HX & Hadded).
  destruct (fail_fast_add_tracks sp_token spotify_playlist uris w) as (X' & HX' & Hfast).
  rewrite HX in HX'. apply app_inv_head in HX'. subst X'. now exists X.
Qed.

(** X9. With both tokens set, every request of a run of [_main] is one of
    the six the script knows. Those to the source catalog are for the
    playlist the argument names, with the YouTube key in the URL and no
    [Authorization] header; those to the destination catalog carry the
    Spotify token as the bearer. *)
Theorem requests_are_routed (args : Namespace.t) (w : world) (yt_token sp_token : string) :
  environ w !! "YOUTUBE_TOKEN" = Some yt_token ->
  environ w !! "SPOTIFY_TOKEN" = Some sp_token ->
  exists X, exchanges (snd (_main args w)) = exchanges w ++ X /\
            Forall (routed args yt_token sp_token) X.
Proof.
  intros Hyt Hsp. destruct (main_steps args w _ _ Hyt Hsp) as (X & HX & Hsteps).
  exists X. split; [exact HX|]. revert Hsteps. generalize (fst (_main args w)). intros r.
  unfold steps_of_main.
  apply then_forall; [intros r1 Y [-> _]; constructor|].
  intros playlist_id _ Y0 [_ Hid].
  assert (Hsource : forall Y : list exchange,
            Forall (fun x => source_request yt_token playlist_id (fst x)) Y ->
            Forall (routed args yt_token sp_token) Y).
  { intros Y HY. eapply Forall_impl; [exact HY|]. intros x Hx. left. now exists playlist_id. }
  apply then_forall.
  { intros r1 Y (resp & -> & _). apply Hsource. constructor; [now left | constructor]. }
  intros name _ Y1 _. apply then_forall.
  { intros r1 Y Hpages. apply Hsource.
    eapply Forall_impl; [exact (pages_fetched_requests _ _ _ _ Hpages)|].
    intros x Hx. now right. }
  intros tracks _ Y2 _. apply then_forall; [intros r1 Y [-> _]; constructor|].
  intros found _ Y3 _. apply then_forall.
  { intros r1 Y Hsearch.
    eapply Forall_impl; [exact (searches_made_requests _ _ _ _ Hsearch)|].
    intros x Hx. right. now left. }
  intros uris _ Y4 _. apply then_forall.
  { intros r1 Y Hcreate.
    eapply Forall_impl; [exact (playlist_created_requests _ _ _ _ Hcreate)|].
    intros x [Hx|[user_id Hx]]; right; right; [now left | right; left; eauto]. }
  intros spotify_playlist _ Y5 _. apply then_forall.
  { intros r1 Y Hadd.
    eapply Forall_impl; [exact (tracks_added_requests _ _ _ _ _ Hadd)|].
    intros x [chunk Hx]. right. do 3 right. eauto. }
  intros _ _ Y6 _ [-> _]. constructor.
Qed.

Lemma requests_are_routed_witness :
  exists X, exchanges (snd (_main sample_args run_to_the_end))
            = exchanges run_to_the_end ++ X /\
            Forall (routed sample_args "yt" "sp") X.
Proof. apply (requests_are_routed sample_args run_to_the_end "yt" "sp"); reflexivity. Defined.

Section Appends.

(** Among requests that only read, none appends. *)
Lemma reads_do_not_append (K : exchange -> Prop) (X : list exchange)
    (token : string) (playlist : json) (chunk : list json) (resp : result json) :
  (forall x, K x -> method (fst x) = GET) -> Forall K X ->
  (add_request token playlist chunk, resp) ∉ X.
Proof.
  intros HK HX Hin. rewrite Forall_forall in HX.
  specialize (HK _ (HX _ Hin)). discriminate.
Qed.

Lemma create_does_not_append (sp_token : string) (name : json) (r : result json)
    (X : list exchange) (token : string) (playlist : json) (chunk : list json)
    (resp : result json) :
  playlist_created sp_token name r X -> (add_request token playlist chunk, resp) ∉ X.
Proof.
  intros Hcreate%playlist_created_requests Hin. rewrite Forall_forall in Hcreate.
  destruct (Hcreate _ Hin) as [H|[user_id H]]; discriminate.
Qed.

End Appends.

(** X10. With both tokens set, every append of a run of [_main] goes to
    the playlist this run created: before it, the request that creates
    the playlist was answered, and the append is to the [id] of that
    answer. *)
Theorem appends_go_to_the_created_playlist (args : Namespace.t) (w : world)
    (yt_token sp_token : string) :
  environ w !! "YOUTUBE_TOKEN" = Some yt_token ->
  environ w !! "SPOTIFY_TOKEN" = Some sp_token ->
  exists X, exchanges (snd (_main args w)) = exchanges w ++ X /\
    forall token playlist chunk resp,
      (add_request token playlist chunk, resp) ∈ X ->
      exists before after user_id name created,
        X = before ++ (create_request sp_token user_id name, Ok created) :: after /\
        getitem created "id" = Ok playlist /\
        (add_request token playlist chunk, resp) ∈ after.
Proof.
  intros Hyt Hsp. destruct (main_steps args w _ _ Hyt Hsp) as (X & HX & H).
  exists X. split; [exact HX|]. clear HX. revert H. generalize (fst (_main args w)).
  intros r H token playlist chunk resp Hin. unfold steps_of_main in H.
  destruct (then_elem _ _ _ _ _ H Hin)
    as [(r1 & Y & [-> _] & Hin1)|(playlist_id & Y1 & Z1 & [-> _] & H1 & -> & Hin1)];
    [inversion Hin1|]. clear H Hin.
  destruct (then_elem _ _ _ _ _ H1 Hin1)
    as [(r1 & Y & (resp' & -> & _) & Hin2)|(name & Y2 & Z2 & _ & H2 & -> & Hin2)];
    [apply list_elem_of_singleton in Hin2; discriminate|]. clear H1 Hin1.
  destruct (then_elem _ _ _ _ _ H2 Hin2)
    as [(r1 & Y & Hpages & Hin3)|(tracks & Y3 & Z3 & _ & H3 & -> & Hin3)].
  { exfalso. revert Hin3. eapply reads_do_not_append;
      [|exact (pages_fetched_requests _ _ _ _ Hpages)].
    intros x [cursor ->]. reflexivity. }
  clear H2 Hin2.
  destruct (then_elem _ _ _ _ _ H3 Hin3)
    as [(r1 & Y & [-> _] & Hin4)|(found & Y4 & Z4 & [-> _] & H4 & -> & Hin4)];
    [inversion Hin4|]. clear H3 Hin3.
  destruct (then_elem _ _ _ _ _ H4 Hin4)
    as [(r1 & Y & Hsearch & Hin5)|(uris & Y5 & Z5 & _ & H5 & -> & Hin5)].
  { exfalso. revert Hin5. eapply reads_do_not_append;
      [|exact (searches_made_requests _ _ _ _ Hsearch)].
    intros x [title ->]. reflexivity. }
  clear H4 Hin4.
  destruct (then_elem _ _ _ _ _ H5 Hin5)
    as [(r1 & Y & Hcreate & Hin6)|(created_id & Y6 & Z6 & Hcreate & H6 & -> & Hin6)];
    [exfalso; exact (create_does_not_append _ _ _ _ _ _ _ _ Hcreate Hin6)|].
  clear H5 Hin5.
  apply playlist_created_id in Hcreate
    as (user & user_id & created & -> & Huser & Hcreated).
  assert (Hsame : playlist = created_id).
  { destruct (then_elem _ _ _ _ _ H6 Hin6)
      as [(r1 & Y & Hadd & Hin7)|(u & Y7 & Z7 & _ & [-> _] & _ & Hin7)];
      [|inversion Hin7].
    apply tracks_added_requests in Hadd. rewrite Forall_forall in Hadd.
    destruct (Hadd _ Hin7) as [chunk' [= Hplaylist _ _]]. exact Hplaylist. }
  subst created_id.
  exists (Y2 ++ Y3 ++ Y5 ++ [(me_request sp_token, Ok user)]), Z6, user_id,
    (name_or (Namespace.name args) name), created.
  split; [|now split]. cbn. rewrite <- !app_assoc. reflexivity.
Qed.

Lemma appends_go_to_the_created_playlist_witness :
  exists X, exchanges (snd (_main sample_args run_to_the_end))
            = exchanges run_to_the_end ++ X /\
    forall token playlist chunk resp,
      (add_request token playlist chunk, resp) ∈ X ->
      exists before after user_id name created,
        X = before ++ (create_request "sp" user_id name, Ok created) :: after /\
        getitem created "id" = Ok playlist /\
        (add_request token playlist chunk, resp) ∈ after.
Proof.
  apply (appends_go_to_the_created_playlist sample_args run_to_the_end "yt" "sp");
    reflexivity.
Defined.

(** X11. What status 0 means. With both tokens set, a run of [_main]
    that returns did all of this, in this order and nothing else: it
    asked for the name of the playlist the argument names, fetched its
    pages, searched the title of every track in the order of the
    playlist and got an identifier from each search, created the
    playlist under [args.name or name], and appended every batch of the
    identifiers to the playlist the catalog created, each append being
    answered. What it returns is 0. *)
Theorem success_means_transferred (args : Namespace.t) (w : world)
    (yt_token sp_token : string) (status : Z) :
  environ w !! "YOUTUBE_TOKEN" = Some yt_token ->
  environ w !! "SPOTIFY_TOKEN" = Some sp_token ->
  fst (_main args w) = Ok status ->
  status = 0%Z /\
  exists playlist_id name tracks titles uris playlist Xname Xpages Xsearch Xcreate Xadd,
    exchanges (snd (_main args w))
    = exchanges w ++ Xname ++ Xpages ++ Xsearch ++ Xcreate ++ Xadd /\
    _youtube_get_playlist_id (Namespace.youtube_playlist args) = Ok playlist_id /\
    (exists ret, Xname = [(playlists_request yt_token playlist_id, Ok ret)] /\
                 first_title ret = Ok name) /\
    pages_fetched yt_token playlist_id (Ok tracks) Xpages /\
    Forall2 has_title (elements tracks) titles /\
    map fst Xsearch = map (search_request sp_token) titles /\
    Forall2 gave Xsearch uris /\
    (exists user user_id created,
       Xcreate = [(me_request sp_token, Ok user);
                  (create_request sp_token user_id (name_or (Namespace.name args) name),
                   Ok created)] /\
       getitem user "id" = Ok user_id /\ getitem created "id" = Ok playlist) /\
    map fst Xadd = map (add_request sp_token playlist) (batches uris) /\
    all_answered Xadd.
Proof.
  intros Hyt Hsp Hstatus. destruct (main_steps args w _ _ Hyt Hsp) as (X & HX & H).
  rewrite Hstatus in H. rewrite HX. clear HX Hstatus. unfold steps_of_main in H.
  destruct H as ([playlist_id|e] & X1 & [-> Hid] & H); [|now destruct H].
  destruct H as (Z1 & H & ->).
  destruct H as ([name|e] & Xname & (resp & -> & Hname) & H); [|now destruct H].
  destruct H as (Z2 & H & ->).
  destruct H as ([tracks|e] & Xpages & Hpages & H); [|now destruct H].
  destruct H as (Z3 & H & ->).
  destruct H as ([found|e] & X2 & [-> _] & H); [|now destruct H].
  destruct H as (Z4 & H & ->).
  destruct H as ([uris|e] & Xsearch & [(titles & Htitles & Hreqs) Hfound] & H);
    [|now destruct H].
  destruct H as (Z5 & H & ->). destruct (Hfound uris eq_refl) as [Hlen Hgave].
  destruct H as ([playlist|e] & Xcreate & Hcreate & H); [|now destruct H].
  destruct H as (Z6 & H & ->).
  destruct H as ([[]|e] & Xadd & [Hadds Hall] & H); [|now destruct H].
  destruct H as (Z8 & [-> [= ->]] & ->). destruct (Hall eq_refl) as [Hlen' Hanswered].
  split; [reflexivity|].
  exists playlist_id, name, tracks, titles, uris, playlist,
    [(playlists_request yt_token playlist_id, resp)], Xpages, Xsearch, Xcreate, Xadd.
  rewrite Hlen, take_ge in Htitles by lia. rewrite Hlen', take_ge in Hadds by lia.
  destruct resp as [ret|e]; [|discriminate]. cbn in Hname.
  repeat split; try assumption.
  - cbn. now rewrite app_nil_r.
  - now rewrite Hid.
  - exists ret. now split.
  - apply playlist_created_id in Hcreate as (user & user_id & created & -> & Hu & Hc).
    now exists user, user_id, created.
Qed.

Lemma success_means_transferred_witness :
  0%Z = 0%Z /\
  exists playlist_id name tracks titles uris playlist Xname Xpages Xsearch Xcreate Xadd,
    exchanges (snd (_main sample_args run_to_the_end))
    = exchanges run_to_the_end ++ Xname ++ Xpages ++ Xsearch ++ Xcreate ++ Xadd /\
    _youtube_get_playlist_id (Namespace.youtube_playlist sample_args) = Ok playlist_id /\
    (exists ret, Xname = [(playlists_request "yt" playlist_id, Ok ret)] /\
                 first_title ret = Ok name) /\
    pages_fetched "yt" playlist_id (Ok tracks) Xpages /\
    Forall2 has_title (elements tracks) titles /\
    map fst Xsearch = map (search_request "sp") titles /\
    Forall2 gave Xsearch uris /\
    (exists user user_id created,
       Xcreate = [(me_request "sp", Ok user);
                  (create_request "sp" user_id
                     (name_or (Namespace.name sample_args) name), Ok created)] /\
       getitem user "id" = Ok user_id /\ getitem created "id" = Ok playlist) /\
    map fst Xadd = map (add_request "sp" playlist) (batches uris) /\
    all_answered Xadd.
Proof.
  apply (success_means_transferred sample_args run_to_the_end "yt" "sp" 0);
    [reflexivity | reflexivity | vm_compute; reflexivity].
Defined.

(** ** The run that goes through *)

Section GoesThrough.

Context {A : Type} (w : world) (p0 : list (result json)) (X0 : list exchange)
  (O0 : list output).

(** What is known of a step from any world holds where the run has come
    to. *)
Lemma runs_at (m : M A) (r : result A) (p : list (result json)) (X : list exchange)
    (O : list output) :
  (forall w', responses w' = p0 -> terminal w' = terminal w ->
              m w' = (r, with_io w' p (exchanges w' ++ X) (stdout w' ++ O))) ->
  runs m w p0 X0 O0 r p X O.
Proof.
  intros Hm. unfold runs. rewrite Hm by reflexivity.
  unfold with_io. cbn. now rewrite <- !app_assoc.
Qed.

Lemma runs_bind {B} (m : M A) (f : A -> M B) (a : A) (r : result B)
    (p p' : list (result json)) (X X' : list exchange) (O O' : list output) :
  runs m w p0 X0 O0 (Ok a) p X O ->
  runs (f a) w p (X0 ++ X) (O0 ++ O) r p' X' O' ->
  runs (m ≫= f) w p0 X0 O0 r p' (X ++ X') (O ++ O').
Proof.
  unfold runs. intros Hm Hf. rewrite (bind_ok _ _ _ _ _ Hm), Hf.
  now rewrite <- !app_assoc.
Qed.

Lemma runs_lift (r : result A) : runs (lift r) w p0 X0 O0 r p0 [] [].
Proof. unfold runs. now rewrite !app_nil_r. Qed.

Lemma runs_ret (a : A) : runs (mret a) w p0 X0 O0 (Ok a) p0 [] [].
Proof. exact (runs_lift (Ok a)). Qed.

End GoesThrough.

Section Steps.

Context (w : world) (X0 : list exchange) (O0 : list output).

Lemma runs_log (p0 : list (result json)) (level color : string) (message : fstring) :
  runs (_log level color message) w p0 X0 O0 (Ok tt) p0 [] [Line level color message].
Proof.
  unfold runs, _log, sys_stdout_write, with_io. cbn.
  now rewrite app_nil_r, <- app_assoc.
Qed.

Lemma runs_playlist_name (token playlist_id : string) (ret : json)
    (rest : list (result json)) :
  runs (_youtube_get_playlist_name token playlist_id) w (Ok ret :: rest) X0 O0
    (first_title ret) rest [(playlists_request token playlist_id, Ok ret)] [].
Proof.
  apply runs_at. intros w' Hw _. unfold _youtube_get_playlist_name.
  now rewrite (bind_ok _ _ _ _ _ (url_open_run _ _ _ _ Hw)), app_nil_r.
Qed.

Lemma runs_get_tracks (token playlist_id : string) (first : page) (more : list page)
    (rest : list (result json)) :
  Forall well_formed (first :: more) -> linked first more = true ->
  runs (_youtube_get_tracks token playlist_id) w
    (map (fun p => Ok (page_response p)) (first :: more) ++ rest) X0 O0
    (Ok (JArr (concat (map page_items (first :: more))))) rest
    ((playlist_items_request token playlist_id None, Ok (page_response first))
     :: follow_ups token playlist_id first more) [].
Proof.
  intros [Hfirst Hmore]%Forall_cons Hlinked. apply runs_at. intros w' Hw _. cbn in Hw.
  unfold _youtube_get_tracks.
  rewrite (bind_ok _ _ _ _ _ (url_open_run _ _ _ _ Hw)), lift_bind.
  rewrite (proj1 Hfirst), bind_run. cbn [count_pending].
  rewrite (while_follows_cursors token playlist_id more first (page_items first) _ _ rest);
    [| assumption | assumption | assumption | reflexivity
     | cbn; rewrite length_app, length_map; lia].
  unfold with_io, playlist_items_request. cbn. rewrite <- !app_assoc, app_nil_r.
  reflexivity.
Qed.

Lemma runs_search_tracks (sp_token : string) (columns : nat) (tracks : list json)
    (titles : list string) (answers uris : list json) (rest : list (result json)) :
  tracks <> [] -> terminal w = Some columns ->
  Forall2 has_title tracks titles -> Forall2 has_top_result answers uris ->
  length answers = length tracks ->
  runs (search_tracks sp_token (JArr tracks)) w (map Ok answers ++ rest) X0 O0
    (Ok uris) rest
    (zip (map (search_request sp_token) titles) (map Ok answers))
    ([searching] ++ progress_output columns (length tracks) 1 titles
       ++ [ProgressEnd columns (length tracks) (length tracks)]).
Proof.
  intros Hne Hterminal Htitles Huris Hlen. apply runs_at. intros w' Hw Hw'.
  rewrite <- Hw' in Hterminal.
  unfold search_tracks, _progress_bar, _info, _log.
  rewrite bind_run, write_run, lift_bind. cbn [py_len].
  rewrite bind_run. unfold os_get_terminal_size at 1. cbn [terminal with_io].
  rewrite Hterminal, lift_bind. cbn [py_iter].
  rewrite bind_run.
  erewrite (search_loop_run sp_token columns (length tracks) tracks titles Htitles
              answers uris Huris Hlen 1 None []) by exact Hw.
  destruct tracks as [|track tracks]; [congruence|].
  unfold last_step. rewrite bind_run, write_run.
  unfold with_io, searching. cbn. rewrite <- !app_assoc. reflexivity.
Qed.

Lemma runs_create_playlist (token : string) (name user user_id created : json)
    (rest : list (result json)) :
  getitem user "id" = Ok user_id ->
  runs (_spotify_create_playlist token name) w (Ok user :: Ok created :: rest) X0 O0
    (getitem created "id") rest
    [(me_request token, Ok user); (create_request token user_id name, Ok created)] [].
Proof.
  intros Hid. apply runs_at. intros w' Hw _. unfold _spotify_create_playlist.
  rewrite (bind_ok _ _ _ _ _ (url_open_run _ _ _ _ Hw)), lift_bind, Hid. cbv zeta.
  erewrite bind_ok by (apply url_open_run; reflexivity).
  unfold lift, with_io. cbn. now rewrite <- !app_assoc, app_nil_r.
Qed.

Lemma runs_add_tracks (token : string) (playlist : json) (uris answers : list json)
    (rest : list (result json)) :
  length answers = length (batches uris) ->
  runs (add_tracks token playlist uris) w (map Ok answers ++ rest) X0 O0 (Ok tt) rest
    (zip (map (add_request token playlist) (batches uris)) (map Ok answers)) [].
Proof.
  intros Hlen. apply runs_at. intros w' Hw _.
  now rewrite add_tracks_batches, (add_each_batch _ _ _ _ _ _ Hw Hlen), app_nil_r.
Qed.

End Steps.

(** X12. The transfer goes through. With both tokens set and stdout a
    terminal, when the catalogs answer every request, the source playlist
    has a name and tracks, each with a title, on pages linked by their
    cursors, every search gives an identifier, and the user and the new
    playlist have an [id], [_main] returns 0 after exactly these
    requests: the name, the pages, one search per track in the order of
    the playlist, the user, the creation under [args.name or name], and
    one append per batch of at most 100 identifiers to the new playlist.
    It takes no response it does not need. *)
Theorem transfer_goes_through (args : Namespace.t) (w : world) (yt_token sp_token : string)
    (columns : nat) (playlist_id : string) (ret name : json) (first : page)
    (more : list page) (titles : list string) (answers uris : list json)
    (user user_id created playlist : json) (added : list json)
    (rest : list (result json)) :
  environ w !! "YOUTUBE_TOKEN" = Some yt_token ->
  environ w !! "SPOTIFY_TOKEN" = Some sp_token ->
  terminal w = Some columns ->
  _youtube_get_playlist_id (Namespace.youtube_playlist args) = Ok playlist_id ->
  first_title ret = Ok name ->
  Forall well_formed (first :: more) -> linked first more = true ->
  concat (map page_items (first :: more)) <> [] ->
  Forall2 has_title (concat (map page_items (first :: more))) titles ->
  Forall2 has_top_result answers uris ->
  length answers = length titles ->
  getitem user "id" = Ok user_id -> getitem created "id" = Ok playlist ->
  length added = length (batches uris) ->
  responses w
  = Ok ret :: map (fun p => Ok (page_response p)) (first :: more)
    ++ map Ok answers ++ Ok user :: Ok created :: map Ok added ++ rest ->
  exists written,
    _main args w
    = (Ok 0%Z,
       with_io w rest
         (exchanges w
          ++ (playlists_request yt_token playlist_id, Ok ret)
          :: (playlist_items_request yt_token playlist_id None, Ok (page_response first))
          :: follow_ups yt_token playlist_id first more
          ++ zip (map (search_request sp_token) titles) (map Ok answers)
          ++ (me_request sp_token, Ok user)
          :: (create_request sp_token user_id (name_or (Namespace.name args) name),
              Ok created)
          :: zip (map (add_request sp_token playlist) (batches uris)) (map Ok added))
         (stdout w ++ written)).
Proof.
  intros Hyt Hsp Hterminal Hid Hname Hpages Hlinked Hne Htitles Huris Hlen Huser
    Hcreated Hadded Hw.
  rewrite (main_transfer _ _ _ _ Hyt Hsp).
  assert (Hlen' : length answers = length (concat (map page_items (first :: more))))
    by now rewrite (Forall2_length _ _ _ Htitles).
  eassert (Hrun : runs (transfer args yt_token sp_token) w (responses w) [] []
                    (Ok 0%Z) rest _ _).
  { rewrite Hw. unfold transfer, _debug, _info.
    eapply runs_bind; [apply runs_log|].
    eapply runs_bind; [rewrite Hid; apply runs_lift|].
    eapply runs_bind; [rewrite <- Hname; apply runs_playlist_name|].
    eapply runs_bind; [apply runs_log|].
    eapply runs_bind; [apply runs_get_tracks; [exact Hpages | exact Hlinked]|].
    eapply runs_bind; [apply runs_lift|].
    eapply runs_bind; [apply runs_log|].
    eapply runs_bind;
      [apply (runs_search_tracks _ _ _ sp_token columns _ titles answers uris);
       [exact Hne | exact Hterminal | exact Htitles | exact Huris | exact Hlen']|].
    eapply runs_bind;
      [rewrite <- Hcreated; apply (runs_create_playlist _ _ _ _ _ user user_id created);
       exact Huser|].
    eapply runs_bind; [apply runs_log|].
    eapply runs_bind; [apply runs_add_tracks; exact Hadded|].
    eapply runs_bind; [apply runs_log|].
    eapply runs_bind; [apply runs_log|].
    apply runs_ret. }
  unfold runs in Hrun. rewrite !app_nil_r, with_io_same in Hrun. rewrite Hrun.
  cbn [app]. eexists. reflexivity.
Qed.

Lemma transfer_goes_through_witness :
  exists written,
    _main sample_args run_to_the_end
    = (Ok 0%Z,
       with_io run_to_the_end []
         (exchanges run_to_the_end
          ++ (playlists_request "yt" "PL123", Ok (JObj [("items", JArr [titled "My Mix"])]))
          :: (playlist_items_request "yt" "PL123" None,
              Ok (page_response (sample_page ["A"; "B"] None)))
          :: follow_ups "yt" "PL123" (sample_page ["A"; "B"] None) []
          ++ zip (map (search_request "sp") ["A"; "B"])
                 (map Ok [found "spotify:track:1"; found "spotify:track:2"])
          ++ (me_request "sp", Ok (JObj [("id", JStr "me")]))
          :: (create_request "sp" (JStr "me")
                (name_or (Namespace.name sample_args) (JStr "My Mix")),
              Ok (JObj [("id", JStr "new")]))
          :: zip (map (add_request "sp" (JStr "new"))
                    (batches [JStr "spotify:track:1"; JStr "spotify:track:2"]))
                 (map Ok [JObj [("snapshot_id", JStr "s1")]]))
         (stdout run_to_the_end ++ written)).
Proof.
  apply (transfer_goes_through sample_args run_to_the_end "yt" "sp" 80 "PL123"
           (JObj [("items", JArr [titled "My Mix"])]) (JStr "My Mix")
           (sample_page ["A"; "B"] None) [] ["A"; "B"]
           [found "spotify:track:1"; found "spotify:track:2"]
           [JStr "spotify:track:1"; JStr "spotify:track:2"]
           (JObj [("id", JStr "me")]) (JStr "me") (JObj [("id", JStr "new")]) (JStr "new")
           [JObj [("snapshot_id", JStr "s1")]] []).
  - reflexivity.
  - reflexivity.
  - reflexivity.
  - vm_compute. reflexivity.
  - reflexivity.
  - repeat constructor.
  - reflexivity.
  - discriminate.
  - repeat constructor.
  - repeat constructor.
  - reflexivity.
  - reflexivity.
  - reflexivity.
  - reflexivity.
  - reflexivity.
Defined.



(** ** Without a terminal *)

Section KeepsTerminal.

Lemma keeps_terminal_bind {A B} (m : M A) (f : A -> M B) :
  (forall w, terminal (snd (m w)) = terminal w) ->
  (forall a w, terminal (snd (f a w)) = terminal w) ->
  forall w, terminal (snd ((m ≫= f) w)) = terminal w.
Proof.
  intros Hm Hf w. rewrite bind_run. specialize (Hm w).
  destruct (m w) as [[a|e] w1]; cbn in Hm; [now rewrite Hf | exact Hm].
Qed.

Lemma keeps_terminal_playlist_name (token playlist_id : string) (w : world) :
  terminal (snd (_youtube_get_playlist_name token playlist_id w)) = terminal w.
Proof. revert w. apply keeps_terminal_bind; reflexivity. Qed.

Lemma keeps_terminal_while (base_url : fstring) (pending : nat) :
  forall ret tracks w,
    terminal (snd (_youtube_get_tracks_while base_url pending ret tracks w)) = terminal w.
Proof.
  induction pending as [|pending IH]; intros ret tracks; rewrite while_unfold;
    (apply keeps_terminal_bind; [reflexivity|]); intros cursor;
    (destruct (truthy cursor); [|reflexivity]);
    (apply keeps_terminal_bind; [reflexivity|]); intros token; cbv zeta;
    (apply keeps_terminal_bind; [reflexivity|]); intros ret'; [reflexivity|].
  apply keeps_terminal_bind; [reflexivity|]. intros tracks'. apply IH.
Qed.

Lemma keeps_terminal_get_tracks (token playlist_id : string) (w : world) :
  terminal (snd (_youtube_get_tracks token playlist_id w)) = terminal w.
Proof.
  revert w. unfold _youtube_get_tracks. cbv zeta.
  apply keeps_terminal_bind; [reflexivity|]. intros ret.
  apply keeps_terminal_bind; [reflexivity|]. intros tracks.
  apply keeps_terminal_bind; [reflexivity|]. intros pending.
  apply keeps_terminal_while.
Qed.

(** Without a terminal the search loop raises before the first search. *)
Lemma search_tracks_without_terminal (sp_token : string) (tracks : json) (w : world) :
  terminal w = None ->
  exists e, search_tracks sp_token tracks w
            = (Raise e, with_io w (responses w) (exchanges w) (stdout w ++ [searching])).
Proof.
  intros Hterminal. unfold search_tracks, _progress_bar, _info, _log.
  rewrite bind_run, write_run, lift_bind.
  destruct (py_len tracks) as [total|e]; [|now exists e].
  rewrite bind_run. unfold os_get_terminal_size. cbn [terminal with_io].
  rewrite Hterminal. now exists OSError.
Qed.

End KeepsTerminal.

(** X14. When stdout is not a terminal, no run of [_main] returns: with
    both tokens set, the run raises, at the latest in
    [os.get_terminal_size] of [_progress_bar], after requests to the
    source catalog only. Nothing is searched, created or appended. *)
Theorem without_a_terminal_nothing_is_transferred (args : Namespace.t) (w : world)
    (yt_token sp_token : string) :
  environ w !! "YOUTUBE_TOKEN" = Some yt_token ->
  environ w !! "SPOTIFY_TOKEN" = Some sp_token ->
  terminal w = None ->
  exists e X,
    fst (_main args w) = Raise e /\
    exchanges (snd (_main args w)) = exchanges w ++ X /\
    Forall (fun x => exists playlist_id, source_request yt_token playlist_id (fst x)) X.
Proof.
  intros Hyt Hsp Hterminal. rewrite (main_transfer _ _ _ _ Hyt Hsp).
  unfold transfer, _debug, _info, _log. rewrite bind_run, write_run, lift_bind.
  destruct (_youtube_get_playlist_id (Namespace.youtube_playlist args))
    as [playlist_id|e].
  2:{ exists e, []. cbn. rewrite app_nil_r. repeat split. constructor. }
  set (w1 := with_io w _ _ _). rewrite bind_run.
  destruct (emits_playlist_name yt_token playlist_id w1) as (X1 & HX1 & resp & -> & Hr).
  pose proof (keeps_terminal_playlist_name yt_token playlist_id w1) as Ht1.
  destruct (_youtube_get_playlist_name yt_token playlist_id w1) as [[name|e] w2];
    cbn [fst snd] in HX1, Hr, Ht1.
  2:{ exists e, [(playlists_request yt_token playlist_id, resp)]. cbn [fst snd].
      repeat split; [exact HX1|]. constructor; [exists playlist_id; now left | constructor]. }
  rewrite bind_run, write_run. set (w3 := with_io w2 _ _ _). rewrite bind_run.
  destruct (emits_pages_fetched yt_token playlist_id w3) as (X2 & HX2 & Hpages).
  pose proof (keeps_terminal_get_tracks yt_token playlist_id w3) as Ht3.
  assert (Hsource : Forall (fun x : exchange =>
                              exists id, source_request yt_token id (fst x))
                      ([(playlists_request yt_token playlist_id, resp)] ++ X2)).
  { apply Forall_app. split; [constructor; [exists playlist_id; now left | constructor]|].
    eapply Forall_impl; [exact (pages_fetched_requests _ _ _ _ Hpages)|].
    intros x Hx. exists playlist_id. now right. }
  assert (Hmade : exchanges (snd (_youtube_get_tracks yt_token playlist_id w3))
                  = exchanges w ++ [(playlists_request yt_token playlist_id, resp)] ++ X2).
  { rewrite HX2. subst w3. cbn [exchanges with_io]. rewrite HX1.
    now rewrite <- app_assoc. }
  clear HX1 HX2 Hpages.
  destruct (_youtube_get_tracks yt_token playlist_id w3) as [[tracks|e] w4];
    cbn [fst snd] in Hmade, Ht3.
  2:{ exists e, ([(playlists_request yt_token playlist_id, resp)] ++ X2). now repeat split. }
  rewrite lift_bind. destruct (py_len tracks) as [total|e].
  2:{ exists e, ([(playlists_request yt_token playlist_id, resp)] ++ X2). now repeat split. }
  rewrite bind_run, write_run. set (w5 := with_io w4 _ _ _). rewrite bind_run.
  destruct (search_tracks_without_terminal sp_token tracks w5) as [e ->].
  { subst w5 w3 w1. cbn [terminal with_io] in *. congruence. }
  exists e, ([(playlists_request yt_token playlist_id, resp)] ++ X2). now repeat split.
Qed.

Lemma without_a_terminal_nothing_is_transferred_witness :
  exists e X,
    fst (_main sample_args (without_terminal run_to_the_end)) = Raise e /\
    exchanges (snd (_main sample_args (without_terminal run_to_the_end)))
    = exchanges (without_terminal run_to_the_end) ++ X /\
    Forall (fun x => exists playlist_id, source_request "yt" playlist_id (fst x)) X.
Proof.
  apply (without_a_terminal_nothing_is_transferred sample_args
           (without_terminal run_to_the_end) "yt" "sp"); reflexivity.
Defined.
